(** * preptlist.c: preprocessing of the parse tree target list

    A shallow embedding of [src/backend/optimizer/prep/preptlist.c]
    (PostgreSQL 7.2 lineage): [preprocess_targetlist], [expand_targetlist],
    [process_matched_tle] and [build_column_default], with the properties
    the specification states about them.

    Conventions.
    - C [int], [Oid], [Index], [int32], [AttrNumber] values are [Z].
    - A [Node *] is an [option Node]; [None] is the NULL pointer.
    - [TargetEntry] nodes live in a store and are referred to by address,
      so that "the same entry" and "a rebuilt entry" can be told apart.
    - A [List *] handed to or returned by [preprocess_targetlist] is a chain
      of cons cells in the store; [lappend] writes the last cell in place.
    - [elog(ERROR, ...)] leaves the function at once; the state it leaves
      behind (store, held locks) is part of the outcome.

    Layout: the embedding of the source; the value-level reading of its
    loops and the vocabulary of the properties; a sample catalog; then the
    lemmas, the theorems C1 to C10 and their instances at the samples. *)

From Stdlib Require Import ZArith Lia Bool.
From stdpp Require Import base tactics option list strings.

Set Warnings "-register-all".
Local Open Scope Z_scope.

(* ================================================================== *)
(** ** Expression nodes *)
(* ================================================================== *)

Definition Oid := Z.
Definition Index := Z.
Definition Datum := Z.

Definition InvalidOid : Oid := 0.
(** catalog/pg_type.h *)
Definition TIDOID : Oid := 27.
(** access/htup.h *)
Definition SelfItemPointerAttributeNumber : Z := -1.
(** sizeof(Oid) *)
Definition sizeof_Oid : Z := 4.

(** nodes/nodes.h, enum CmdType *)
Definition CMD_UNKNOWN : Z := 0.
Definition CMD_SELECT : Z := 1.
Definition CMD_UPDATE : Z := 2.
Definition CMD_INSERT : Z := 3.
Definition CMD_DELETE : Z := 4.
Definition CMD_UTILITY : Z := 5.
Definition CMD_NOTHING : Z := 6.

(** The node variants this file builds or inspects ([Var], [Const],
    [ArrayRef]); every other node type is [T_Other] with its tag and
    children. *)
Inductive Node : Type :=
| T_Var (varno : Index) (varattno : Z) (vartype : Oid) (vartypmod : Z)
        (varlevelsup : Index)
| T_Const (consttype : Oid) (constlen : Z) (constvalue : Datum)
          (constisnull constbyval constisset constiscast : bool)
| T_ArrayRef (refattrlength refelemlength : Z) (refelemtype : Oid)
             (refelembyval : bool)
             (refupperindexpr reflowerindexpr : list Node)
             (refexpr refassgnexpr : option Node)
| T_Other (tag : Z) (args : list Node).

Definition makeVar (varno : Index) (varattno : Z) (vartype : Oid)
    (vartypmod : Z) (varlevelsup : Index) : Node :=
  T_Var varno varattno vartype vartypmod varlevelsup.

Definition makeConst (consttype : Oid) (constlen : Z) (constvalue : Datum)
    (constisnull constbyval constisset constiscast : bool) : Node :=
  T_Const consttype constlen constvalue constisnull constbyval constisset
          constiscast.

(** [IsA(e, ArrayRef)], for a non-NULL [e] *)
Definition IsA_ArrayRef (e : option Node) : bool :=
  match e with Some (T_ArrayRef _ _ _ _ _ _ _ _) => true | _ => false end.

Definition is_NULL {A} (p : option A) : bool :=
  match p with None => true | Some _ => false end.

(** Field reads through a cast to [ArrayRef].  The source only performs
    them behind an [IsA] test; elsewhere they read as NULL / 0 here. *)
Definition refexpr_of (e : option Node) : option Node :=
  match e with Some (T_ArrayRef _ _ _ _ _ _ r _) => r | _ => None end.
Definition refassgnexpr_of (e : option Node) : option Node :=
  match e with Some (T_ArrayRef _ _ _ _ _ _ _ a) => a | _ => None end.
Definition refelemtype_of (e : option Node) : Oid :=
  match e with Some (T_ArrayRef _ _ t _ _ _ _ _) => t | _ => 0 end.
Definition refupperindexpr_of (e : option Node) : list Node :=
  match e with Some (T_ArrayRef _ _ _ _ u _ _ _) => u | _ => [] end.
Definition reflowerindexpr_of (e : option Node) : list Node :=
  match e with Some (T_ArrayRef _ _ _ _ _ l _ _) => l | _ => [] end.

(** [memcpy(newexpr, src, sizeof(ArrayRef)); newexpr->refexpr = base] *)
Definition ArrayRef_with_refexpr (src : option Node) (base : option Node)
    : option Node :=
  match src with
  | Some (T_ArrayRef al el et eb up lo _ asg) =>
      Some (T_ArrayRef al el et eb up lo base asg)
  | other => other
  end.

(** *** Structural equality of node trees *)

Definition list_eqb {A} (f : A -> A -> bool) : list A -> list A -> bool :=
  fix go l1 l2 :=
    match l1, l2 with
    | [], [] => true
    | x :: l1', y :: l2' => f x y && go l1' l2'
    | _, _ => false
    end.

Definition opt_eqb {A} (f : A -> A -> bool) (o1 o2 : option A) : bool :=
  match o1, o2 with
  | None, None => true
  | Some x, Some y => f x y
  | _, _ => false
  end.

Fixpoint node_eqb (a b : Node) {struct a} : bool :=
  match a, b with
  | T_Var a1 a2 a3 a4 a5, T_Var b1 b2 b3 b4 b5 =>
      (a1 =? b1) && (a2 =? b2) && (a3 =? b3) && (a4 =? b4) && (a5 =? b5)
  | T_Const a1 a2 a3 a4 a5 a6 a7, T_Const b1 b2 b3 b4 b5 b6 b7 =>
      (a1 =? b1) && (a2 =? b2) && (a3 =? b3) && Bool.eqb a4 b4
      && Bool.eqb a5 b5 && Bool.eqb a6 b6 && Bool.eqb a7 b7
  | T_ArrayRef a1 a2 a3 a4 au al ar aa, T_ArrayRef b1 b2 b3 b4 bu bl br ba =>
      (a1 =? b1) && (a2 =? b2) && (a3 =? b3) && Bool.eqb a4 b4
      && list_eqb node_eqb au bu && list_eqb node_eqb al bl
      && opt_eqb node_eqb ar br && opt_eqb node_eqb aa ba
  | T_Other t1 l1, T_Other t2 l2 => (t1 =? t2) && list_eqb node_eqb l1 l2
  | _, _ => false
  end.

(** Modelled from the spec: [equal()] of nodes/equalfuncs.c is not in the
    source tree; the specification describes it as a recursive,
    type-tag-aware deep comparison of expression trees, with two NULL
    pointers equal and a NULL pointer different from any node. *)
Definition equal (a b : option Node) : bool := opt_eqb node_eqb a b.

(** A nested induction principle for [Node]. *)
Definition opt_all {A} (P : A -> Prop) (o : option A) : Prop :=
match o with Some x => P x | None => True end.

Section NodeInd.
Variable P : Node -> Prop.
Hypothesis HVar : forall a b c d e, P (T_Var a b c d e).
Hypothesis HConst : forall a b c d e f g, P (T_Const a b c d e f g).
Hypothesis HArr : forall a b c d up lo r asg,
    Forall P up -> Forall P lo -> opt_all P r -> opt_all P asg ->
    P (T_ArrayRef a b c d up lo r asg).
Hypothesis HOther : forall t l, Forall P l -> P (T_Other t l).

Fixpoint Node_nested_ind (n : Node) : P n :=
  let all := fix all (l : list Node) : Forall P l :=
    match l with
    | [] => @List.Forall_nil _ P
    | x :: l' => @List.Forall_cons _ P x l' (Node_nested_ind x) (all l')
    end in
  let opt := fun (o : option Node) =>
    match o return opt_all P o with
    | Some x => Node_nested_ind x
    | None => I
    end in
  match n with
  | T_Var a b c d e => HVar a b c d e
  | T_Const a b c d e f g => HConst a b c d e f g
  | T_ArrayRef a b c d up lo r asg =>
      HArr a b c d up lo r asg (all up) (all lo) (opt r) (opt asg)
  | T_Other t l => HOther t l (all l)
  end.
End NodeInd.

(* ================================================================== *)
(** ** Target entries, catalog structures, collaborators *)
(* ================================================================== *)

Record Resdom : Type := mkResdom {
  resno : Z;
  restype : Oid;
  restypmod : Z;
  resname : string;
  ressortgroupref : Index;
  reskey : Index;
  reskeyop : Oid;
  resjunk : bool
}.

(** The position number [resno] is an [AttrNumber], an int16.  The field
    is modelled by the number it holds: a number in the range of the type
    is stored as it is.  Attribute numbers are in that range; the
    theorems that number entries by their place in a list, or take the
    number as a parameter, state the range as a hypothesis. *)
Definition fits_AttrNumber (n : Z) : Prop := -32768 <= n <= 32767.

(** nodes/makefuncs.c: the fields given, the sort/group fields zeroed. *)
Definition makeResdom (resno : Z) (restype : Oid) (restypmod : Z)
    (resname : string) (resjunk : bool) : Resdom :=
  mkResdom resno restype restypmod resname 0 0 InvalidOid resjunk.

(** [resdom = copyObject(resdom); resdom->resno = attrno] *)
Definition Resdom_with_resno (r : Resdom) (attrno : Z) : Resdom :=
  mkResdom attrno (restype r) (restypmod r) (resname r)
           (ressortgroupref r) (reskey r) (reskeyop r) (resjunk r).

Record TargetEntry : Type := mkTargetEntry {
  resdom : Resdom;
  expr : option Node
}.

(** Modelled from the spec: the Attribute Descriptor of the relation
    schema.  [attname], [atttypid], [atttypmod] and [attisset] are the
    fields the source reads; [attisdropped] is the descriptor's is_dropped
    flag, read by [COLUMN_IS_DROPPED], whose macro is not in the source
    tree. *)
Record Form_pg_attribute : Type := mkAttr {
  attname : string;
  atttypid : Oid;
  atttypmod : Z;
  attisset : bool;
  attisdropped : bool
}.

Definition COLUMN_IS_DROPPED (att : Form_pg_attribute) : bool :=
  attisdropped att.

Record AttrDefault : Type := mkAttrDefault {
  adnum : Z;
  adbin : string
}.

Record TupleConstr : Type := mkTupleConstr {
  defval : list AttrDefault
}.
Definition num_defval (c : TupleConstr) : Z := Z.of_nat (length (defval c)).

Record TupleDesc : Type := mkTupleDesc {
  attrs : list Form_pg_attribute;
  constr : option TupleConstr
}.

Record Relation : Type := mkRelation {
  rd_id : Oid;
  rd_att : TupleDesc
}.

Definition RelationGetNumberOfAttributes (rel : Relation) : Z :=
  Z.of_nat (length (attrs (rd_att rel))).

Record RangeTblEntry : Type := mkRTE {
  relid : Oid;
  subquery : option unit
}.

Definition AccessShareLock : Z := 1.

(** The services this file calls and that live elsewhere in the backend:
    the relation cache behind [heap_open], the node reader, the type
    coercion routines and the type catalog.  [DROP_COLUMN_HACK] says
    whether the file is compiled with [_DROP_COLUMN_HACK__] defined.
    [uninit_typlen_typbyval attrno] is the indeterminate content of the
    automatic variables [typlen] and [typbyval] of [build_column_default]
    on entry to the call for [attrno]. *)
Record Collaborators : Type := mkCollaborators {
  relcache : Oid -> option Relation;
  stringToNode : string -> option Node;
  exprType : option Node -> Oid;
  CoerceTargetExpr : option Node -> Oid -> Oid -> Z -> option Node;
  getBaseType : Oid -> Oid;
  coerce_type_typmod : option Node -> Oid -> Z -> option Node;
  get_typdefault : Oid -> Z -> option Node;
  get_typlenbyval : Oid -> Z * bool;
  makeNullConst : Oid -> Node;
  DROP_COLUMN_HACK : bool;
  uninit_typlen_typbyval : Z -> Z * bool
}.

(* ================================================================== *)
(** ** State, outcomes and the monad of the embedding *)
(* ================================================================== *)

(** Addresses of [TargetEntry] nodes and of [List] cells. *)
Definition tle_ptr := nat.
Abbreviation List := (option nat).
Abbreviation NIL := (@None nat).

Record State : Type := mkState {
  tles : list TargetEntry;          (* TargetEntry nodes, by address *)
  cells : list (tle_ptr * List);    (* List cells: lfirst, lnext *)
  locks : list (Oid * Z)            (* relation locks held: relation, mode *)
}.

(** The [elog(ERROR, ...)] sites, under the specification's names. *)
Inductive elog_error : Type :=
| ResultRelationInvalid
    (* "preprocess_targetlist: subquery cannot be result relation" *)
| UnsupportedCommandKind
    (* "expand_targetlist: unexpected command_type" *)
| UnexpectedJunkAssignment (name : string)
    (* "Unexpected assignment to attribute \"%s\"" *)
| MultipleAssignmentConflict (name : string)
    (* "Multiple assignments to same attribute \"%s\"" *)
| DefaultTypeMismatch (column : string) (atttype type_id : Oid)
    (* "Column \"%s\" is of type %s but default expression is of type %s" *)
| RelationNotFound (relationId : Oid).
    (* raised inside heap_open *)

(** [Done a]: normal return.  [Elog e]: left through [elog(ERROR)].
    [Undefined]: the C program has no defined behaviour here (a wild
    pointer, an index outside its array, a list that never ends). *)
Inductive outcome (A : Type) : Type :=
| Done (a : A)
| Elog (e : elog_error)
| Undefined.
Arguments Done {A} a.
Arguments Elog {A} e.
Arguments Undefined {A}.

Definition M (A : Type) : Type := State -> outcome A * State.

#[global] Instance M_ret : MRet M := fun A (a : A) s => (Done a, s).
#[global] Instance M_bind : MBind M := fun A B (k : A -> M B) (m : M A) s =>
  match m s with
  | (Done a, s1) => k a s1
  | (Elog e, s1) => (Elog e, s1)
  | (Undefined, s1) => (Undefined, s1)
  end.

(** A computation that does not touch the state. *)
Definition lift {A} (o : outcome A) : M A := fun s => (o, s).

Definition elog {A} (e : elog_error) : M A := fun s => (Elog e, s).
Definition undefined {A} : M A := fun s => (Undefined, s).

Definition deref (p : tle_ptr) : M TargetEntry := fun s =>
  match tles s !! p with
  | Some t => (Done t, s)
  | None => (Undefined, s)
  end.

(** [makeTargetEntry] allocates a new node. *)
Definition makeTargetEntry (r : Resdom) (e : option Node) : M tle_ptr :=
  fun s => (Done (length (tles s)),
            mkState (tles s ++ [mkTargetEntry r e]) (cells s) (locks s)).

(** parser/parsetree.h: [rt_fetch(i, rt)] is [nth(i - 1, rt)]. *)
Definition rt_fetch (rangetable_index : Index)
    (rangetable : list RangeTblEntry) : M RangeTblEntry :=
  if rangetable_index <? 1 then undefined
  else match rangetable !! Z.to_nat (rangetable_index - 1) with
       | Some rte => mret rte
       | None => undefined
       end.

Definition getrelid (rangeindex : Index) (rangetable : list RangeTblEntry)
    : M Oid :=
  rte ← rt_fetch rangeindex rangetable; mret (relid rte).

Fixpoint remove_first (x : Oid * Z) (l : list (Oid * Z)) : list (Oid * Z) :=
  match l with
  | [] => []
  | y :: l' => if decide (x = y) then l' else y :: remove_first x l'
  end.

(* ================================================================== *)
(** ** List cells *)
(* ================================================================== *)

(** The element pointers of the list at [l], read cell by cell.  A chain
    of distinct cells is no longer than the cell store, so a walk that
    has not reached [NIL] after that many steps never will. *)
Fixpoint contents_from (fuel : nat) (h : list (tle_ptr * List)) (l : List)
    : option (list tle_ptr) :=
  match l with
  | None => Some []
  | Some a =>
      match fuel with
      | O => None
      | S fuel' =>
          match h !! a with
          | Some (x, next) => cons x <$> contents_from fuel' h next
          | None => None
          end
      end
  end.

Definition list_contents_in (h : list (tle_ptr * List)) (l : List)
    : option (list tle_ptr) :=
  contents_from (length h) h l.

(** A [foreach] over the whole list *)
Definition list_contents (l : List) : M (list tle_ptr) := fun s =>
  match list_contents_in (cells s) l with
  | Some xs => (Done xs, s)
  | None => (Undefined, s)
  end.

(** [length(list)] *)
Definition length_List (l : List) : M nat :=
  xs ← list_contents l; mret (length xs).

(** [makeList1(obj)]: one new cell, [lnext] NIL *)
Definition makeList1 (obj : tle_ptr) : M nat := fun s =>
  (Done (length (cells s)),
   mkState (tles s) (cells s ++ [(obj, NIL)]) (locks s)).

(** [lnext(cell) = next] *)
Definition set_lnext (cell : nat) (next : List) : M unit := fun s =>
  match cells s !! cell with
  | Some (x, _) =>
      (Done tt, mkState (tles s) (<[cell := (x, next)]> (cells s)) (locks s))
  | None => (Undefined, s)
  end.

(** [for (temp = l1; lnext(temp) != NIL; temp = lnext(temp));] *)
Fixpoint last_cell_from (fuel : nat) (h : list (tle_ptr * List)) (a : nat)
    : option nat :=
  match fuel with
  | O => None
  | S fuel' =>
      match h !! a with
      | Some (_, None) => Some a
      | Some (_, Some b) => last_cell_from fuel' h b
      | None => None
      end
  end.

Definition last_cell (a : nat) : M nat := fun s =>
  match last_cell_from (length (cells s)) (cells s) a with
  | Some b => (Done b, s)
  | None => (Undefined, s)
  end.

(** Modelled from the spec: [lappend] of nodes/list.c is not in the source
    tree.  It appends to the list it is given, in place ("may be appended
    to directly"; the source calls the effect destructive): the new cell is
    hung on the last cell of the list, and the list itself is returned. *)
Definition lappend (l : List) (obj : tle_ptr) : M List :=
  c ← makeList1 obj;
  match l with
  | None => mret (Some c)
  | Some a =>
      temp ← last_cell a;
      _ ← set_lnext temp (Some c);
      mret l
  end.

(** The cells of a fresh chain holding [xs], laid out from address [base]. *)
Fixpoint fresh_chain (base : nat) (xs : list tle_ptr)
    : list (tle_ptr * List) :=
  match xs with
  | [] => []
  | x :: rest =>
      (x, match rest with [] => NIL | _ => Some (S base) end)
      :: fresh_chain (S base) rest
  end.

(** Allocate a fresh chain of cells holding [xs]. *)
Definition fresh_copy (xs : list tle_ptr) : M List := fun s =>
  match xs with
  | [] => (Done NIL, s)
  | _ => (Done (Some (length (cells s))),
          mkState (tles s) (cells s ++ fresh_chain (length (cells s)) xs)
                  (locks s))
  end.

(** Modelled from the spec: [listCopy] of nodes/list.c is not in the source
    tree.  It makes a shallow copy: a new chain of cells that holds the
    same element pointers. *)
Definition listCopy (l : List) : M List :=
  xs ← list_contents l; fresh_copy xs.

(** The list a run of [lappend]s starting from [acc] builds. *)
Fixpoint lappend_all (acc : List) (xs : list tle_ptr) : M List :=
  match xs with
  | [] => mret acc
  | x :: rest => acc' ← lappend acc x; lappend_all acc' rest
  end.

Section Embedding.

Variable E : Collaborators.

(** [heap_open]: find the relation, then take the lock on it. *)
Definition heap_open (relationId : Oid) (lockmode : Z) : M Relation :=
  fun s =>
    match relcache E relationId with
    | Some r => (Done r,
                 mkState (tles s) (cells s) ((rd_id r, lockmode) :: locks s))
    | None => (Elog (RelationNotFound relationId), s)
    end.

(** [heap_close]: give the lock back. *)
Definition heap_close (rel : Relation) (lockmode : Z) : M unit :=
  fun s => (Done tt,
            mkState (tles s) (cells s)
                    (remove_first (rd_id rel, lockmode) (locks s))).

(* ================================================================== *)
(** ** process_matched_tle *)
(* ================================================================== *)

(** The [while] loop that strips a nest of assigning [ArrayRef]s:
    [while (p != NULL && IsA(p, ArrayRef) && p->refassgnexpr != NULL)
       p = p->refexpr;] *)
Fixpoint strip_ArrayRefs (n : Node) : option Node :=
  match n with
  | T_ArrayRef _ _ _ _ _ _ r (Some _) =>
      match r with
      | Some b => strip_ArrayRefs b
      | None => None
      end
  | _ => Some n
  end.

Definition priorbottom_of (prior_expr : option Node) : option Node :=
  match refexpr_of prior_expr with
  | Some n => strip_ArrayRefs n
  | None => None
  end.

Definition process_matched_tle (src_tle : tle_ptr) (prior_tle : option tle_ptr)
    (attrno : Z) : M tle_ptr :=
  src ← deref src_tle;
  let resdom := resdom src in
  match prior_tle with
  | None =>
      (* first assignment to the attribute *)
      if resno resdom =? attrno then mret src_tle
      else makeTargetEntry (Resdom_with_resno resdom attrno) (expr src)
  | Some prior_tle =>
      prior ← deref prior_tle;
      if is_NULL (expr src) || negb (IsA_ArrayRef (expr src)) ||
         is_NULL (refassgnexpr_of (expr src)) ||
         is_NULL (expr prior) || negb (IsA_ArrayRef (expr prior)) ||
         is_NULL (refassgnexpr_of (expr prior)) ||
         negb (refelemtype_of (expr src) =? refelemtype_of (expr prior))
      then elog (MultipleAssignmentConflict (resname resdom))
      else
        let priorbottom := priorbottom_of (expr prior) in
        if negb (equal priorbottom (refexpr_of (expr src)))
        then elog (MultipleAssignmentConflict (resname resdom))
        else
          let newexpr := ArrayRef_with_refexpr (expr src) (expr prior) in
          makeTargetEntry (Resdom_with_resno resdom attrno) newexpr
  end.

(* ================================================================== *)
(** ** build_column_default *)
(* ================================================================== *)

(** [while (--ndef >= 0) if (attrno == defval[ndef].adnum) ...]: the
    defaults array is searched from its last entry down. *)
Fixpoint scan_defval (defval : list AttrDefault) (ndef : nat) (attrno : Z)
    : option AttrDefault :=
  match ndef with
  | O => None
  | S n =>
      match defval !! n with
      | Some d => if attrno =? adnum d then Some d
                  else scan_defval defval n attrno
      | None => None
      end
  end.

(** The function reads the relation descriptor and the type catalog and
    touches nothing else, so it is embedded as a plain [outcome]. *)
Definition build_column_default (rel : Relation) (attrno : Z)
    : outcome (option Node) :=
  let rd_att := rd_att rel in
  if attrno <? 1 then Undefined else
  match attrs rd_att !! Z.to_nat (attrno - 1) with
  | None => Undefined
  | Some att_tup =>
      let atttype := atttypid att_tup in
      let atttypmod := atttypmod att_tup in
      (* int16 typlen; bool typbyval;  -- not initialised *)
      let typlen := fst (uninit_typlen_typbyval E attrno) in
      let typbyval := snd (uninit_typlen_typbyval E attrno) in
      let found :=
        match constr rd_att with
        | Some c =>
            if 0 <? num_defval c
            then scan_defval (defval c) (Z.to_nat (num_defval c)) attrno
            else None
        | None => None
        end in
      match found with
      | Some d =>
          let expr := stringToNode E (adbin d) in
          let type_id := exprType E expr in
          if negb (type_id =? atttype) then
            let expr := CoerceTargetExpr E expr type_id
                          (getBaseType E atttype) atttypmod in
            if is_NULL expr
            then Elog (DefaultTypeMismatch (attname att_tup) atttype type_id)
            else Done (coerce_type_typmod E expr atttype atttypmod)
          else Done (coerce_type_typmod E expr atttype atttypmod)
      | None =>
          let expr :=
            if attisset att_tup then
              Some (makeConst atttype sizeof_Oid 0 true true false false)
            else
              let expr :=
                if DROP_COLUMN_HACK E && COLUMN_IS_DROPPED att_tup
                then Some (makeConst atttype typlen 0 true typbyval
                                     false false)
                else get_typdefault E atttype atttypmod in
              let expr :=
                if is_NULL expr
                then Some (makeConst atttype typlen 0 true typbyval
                                     false false)
                else expr in
              (* get_typlenbyval(atttype, &typlen, &typbyval); *)
              let typlen := fst (get_typlenbyval E atttype) in
              let typbyval := snd (get_typlenbyval E atttype) in
              expr in
          Done (coerce_type_typmod E expr atttype atttypmod)
      end
  end.

(* ================================================================== *)
(** ** expand_targetlist *)
(* ================================================================== *)

(** The [foreach] at lines 165-179: scan the old target list for entries
    that assign to the attribute. *)
Fixpoint match_attribute (attrname : string) (attrno : Z)
    (temp : list tle_ptr) (old_tlist_index : nat)
    (tlistentry_used : list bool) (new_tle : option tle_ptr)
    : M (option tle_ptr * list bool) :=
  match temp with
  | [] => mret (new_tle, tlistentry_used)
  | old_tle_ptr :: rest =>
      old_tle ← deref old_tle_ptr;
      let resdom := resdom old_tle in
      if negb (default false (tlistentry_used !! old_tlist_index)) &&
         negb (resjunk resdom) &&
         String.eqb (resname resdom) attrname
      then
        new_tle' ← process_matched_tle old_tle_ptr new_tle attrno;
        match_attribute attrname attrno rest (S old_tlist_index)
          (<[old_tlist_index := true]> tlistentry_used) (Some new_tle')
      else
        match_attribute attrname attrno rest (S old_tlist_index)
          tlistentry_used new_tle
  end.

(** The [switch (command_type)] at lines 195-216: the expression for an
    attribute the old target list does not assign. *)
Definition missing_expr (rel : Relation) (command_type : Z)
    (result_relation : Index) (att_tup : Form_pg_attribute) (attrno : Z)
    : outcome (option Node) :=
  let atttype := atttypid att_tup in
  let atttypmod := atttypmod att_tup in
  if command_type =? CMD_INSERT then build_column_default rel attrno
  else if command_type =? CMD_UPDATE then
    if DROP_COLUMN_HACK E && COLUMN_IS_DROPPED att_tup
    then Done (Some (makeNullConst E atttype))
    else Done (Some (makeVar result_relation attrno atttype atttypmod 0))
  else Elog UnsupportedCommandKind.

(** The body of [if (new_tle == NULL)]. *)
Definition missing_attribute (rel : Relation) (command_type : Z)
    (result_relation : Index) (att_tup : Form_pg_attribute) (attrno : Z)
    : M tle_ptr :=
  new_expr ← lift (missing_expr rel command_type result_relation
                                att_tup attrno);
  makeTargetEntry (makeResdom attrno (atttypid att_tup) (atttypmod att_tup)
                              (attname att_tup) false)
                  new_expr.

(** [for (attrno = 1; attrno <= numattrs; attrno++)]; [todo] counts the
    iterations left.  Returns the new list, the used map and the final
    value of [attrno]. *)
Fixpoint attribute_loop (rel : Relation) (tlist : list tle_ptr)
    (command_type : Z) (result_relation : Index)
    (todo : nat) (attrno : Z) (tlistentry_used : list bool)
    (new_tlist : list tle_ptr) : M (list tle_ptr * list bool * Z) :=
  match todo with
  | O => mret (new_tlist, tlistentry_used, attrno)
  | S todo' =>
      match attrs (rd_att rel) !! Z.to_nat (attrno - 1) with
      | None => undefined
      | Some att_tup =>
          let attrname := attname att_tup in
          '(new_tle, tlistentry_used) ←
            match_attribute attrname attrno tlist 0 tlistentry_used None;
          new_tle ← match new_tle with
                    | Some p => mret p
                    | None => missing_attribute rel command_type
                                result_relation att_tup attrno
                    end;
          attribute_loop rel tlist command_type result_relation todo'
            (attrno + 1) tlistentry_used (new_tlist ++ [new_tle])
      end
  end.

(** The [foreach] at lines 237-259: copy the unprocessed entries to the
    end of the new list. *)
Fixpoint copy_unprocessed (temp : list tle_ptr) (old_tlist_index : nat)
    (tlistentry_used : list bool) (attrno : Z) (new_tlist : list tle_ptr)
    : M (list tle_ptr) :=
  match temp with
  | [] => mret new_tlist
  | old_tle_ptr :: rest =>
      if negb (default false (tlistentry_used !! old_tlist_index)) then
        old_tle ← deref old_tle_ptr;
        let resdom := resdom old_tle in
        if negb (resjunk resdom)
        then elog (UnexpectedJunkAssignment (resname resdom))
        else
          old_tle_ptr ←
            (if negb (resno resdom =? attrno)
             then makeTargetEntry (Resdom_with_resno resdom attrno)
                                  (expr old_tle)
             else mret old_tle_ptr);
          copy_unprocessed rest (S old_tlist_index) tlistentry_used
            (attrno + 1) (new_tlist ++ [old_tle_ptr])
      else
        copy_unprocessed rest (S old_tlist_index) tlistentry_used
          attrno new_tlist
  end.

(** [tlist] and the result are the sequences of entry pointers the
    [List]s hold: the function only reads [tlist] (with [length] and
    [foreach]) and builds [new_tlist] from [NIL] with [lappend].  The
    cells of [new_tlist] are laid out where the list is handed over, in
    [preprocess_targetlist] ([lappend_all]); the state this function
    returns tells the entries and the locks, and what is stated of it is
    stated of those, not of cells. *)
Definition expand_targetlist (tlist : list tle_ptr) (command_type : Z)
    (result_relation : Index) (range_table : list RangeTblEntry)
    : M (list tle_ptr) :=
  let old_tlist_len := length tlist in
  let new_tlist := [] in
  (* palloc((old_tlist_len + 1) * sizeof(bool)); memset(..., 0, ...) *)
  let tlistentry_used := replicate (old_tlist_len + 1) false in
  relid ← getrelid result_relation range_table;
  rel ← heap_open relid AccessShareLock;
  let numattrs := RelationGetNumberOfAttributes rel in
  '(new_tlist, tlistentry_used, attrno) ←
    attribute_loop rel tlist command_type result_relation
      (Z.to_nat numattrs) 1 tlistentry_used new_tlist;
  new_tlist ← copy_unprocessed tlist 0 tlistentry_used attrno new_tlist;
  _ ← heap_close rel AccessShareLock;
  mret new_tlist.

(* ================================================================== *)
(** ** preprocess_targetlist *)
(* ================================================================== *)

(** [expand_targetlist] works on the sequence of pointers [tlist] holds
    and its result is laid out by the [lappend]s that built it. *)
Definition preprocess_targetlist (tlist : List) (command_type : Z)
    (result_relation : Index) (range_table : list RangeTblEntry) : M List :=
  _ ← (if negb (result_relation =? 0) then
         rte ← rt_fetch result_relation range_table;
         if negb (is_NULL (subquery rte)) || (relid rte =? InvalidOid)
         then elog ResultRelationInvalid
         else mret tt
       else mret tt);
  tlist ← (if (command_type =? CMD_INSERT) || (command_type =? CMD_UPDATE)
           then
             old_tlist ← list_contents tlist;
             new_tlist ← expand_targetlist old_tlist command_type
                           result_relation range_table;
             lappend_all NIL new_tlist
           else mret tlist);
  if (command_type =? CMD_UPDATE) || (command_type =? CMD_DELETE) then
    len ← length_List tlist;
    let resdom := makeResdom (Z.of_nat len + 1) TIDOID (-1) "ctid" true in
    let var := makeVar result_relation SelfItemPointerAttributeNumber
                       TIDOID (-1) 0 in
    tlist ← (if command_type =? CMD_DELETE then listCopy tlist
             else mret tlist);
    tle ← makeTargetEntry resdom (Some var);
    lappend tlist tle
  else mret tlist.

End Embedding.

(* ================================================================== *)
(** ** Value-level reading of the loops, and the vocabulary of the
       properties *)
(* ================================================================== *)

(** The loops of [expand_targetlist] allocate entries as they go.  To
    reason about what they produce, each loop is read a second time on
    the values of the entries ([scan], [merge_matches],
    [attribute_values]); the lemmas [match_attribute_run],
    [attribute_loop_run] and [copy_unprocessed_run] below show that the
    embedded loops compute exactly these values. *)

(** [p] is the address of an entry with value [t]. *)
Definition points_to (s : State) (p : tle_ptr) (t : TargetEntry) : Prop :=
  tles s !! p = Some t.

(** The store only gains entries; cells and locks are as before. *)
Definition grows (s s' : State) : Prop :=
  tles s `prefix_of` tles s' /\ cells s' = cells s /\ locks s' = locks s.

(** The test of [process_matched_tle] on a second assignment, as one
    boolean: both expressions are assigning [ArrayRef]s of one element
    type, and the bottom of the prior nest is the new entry's base. *)
Definition merge_ok (src_expr prior_expr : option Node) : bool :=
  negb (is_NULL src_expr || negb (IsA_ArrayRef src_expr) ||
        is_NULL (refassgnexpr_of src_expr) ||
        is_NULL prior_expr || negb (IsA_ArrayRef prior_expr) ||
        is_NULL (refassgnexpr_of prior_expr) ||
        negb (refelemtype_of src_expr =? refelemtype_of prior_expr))
  && equal (priorbottom_of prior_expr) (refexpr_of src_expr).

(** The entry [process_matched_tle] returns, by value; [None] when it
    raises the conflict. *)
Definition merged_entry (attrno : Z) (prior : option TargetEntry)
    (src : TargetEntry) : option TargetEntry :=
  match prior with
  | None =>
      if resno (resdom src) =? attrno then Some src
      else Some (mkTargetEntry (Resdom_with_resno (resdom src) attrno)
                               (expr src))
  | Some prior =>
      if merge_ok (expr src) (expr prior)
      then Some (mkTargetEntry (Resdom_with_resno (resdom src) attrno)
                   (ArrayRef_with_refexpr (expr src) (expr prior)))
      else None
  end.

(** The successive calls of [process_matched_tle] on the matches [ms] of
    one attribute, by value; [None] when one of them raises the
    conflict. *)
Fixpoint merge_matches (attrno : Z) (prior : option TargetEntry)
    (ms : list TargetEntry) : option (option TargetEntry) :=
  match ms with
  | [] => Some prior
  | m :: ms' =>
      match merged_entry attrno prior m with
      | Some t => merge_matches attrno (Some t) ms'
      | None => None
      end
  end.

(** The entries one scan of the old list matches to [attrname], and the
    used map it leaves. *)
Fixpoint scan (attrname : string) (ts : list TargetEntry) (idx : nat)
    (used : list bool) : list TargetEntry * list bool :=
  match ts with
  | [] => ([], used)
  | t :: rest =>
      if negb (default false (used !! idx)) && negb (resjunk (resdom t)) &&
         String.eqb (resname (resdom t)) attrname
      then let '(ms, used') := scan attrname rest (S idx)
                                    (<[idx := true]> used) in
           (t :: ms, used')
      else scan attrname rest (S idx) used
  end.

(** A non-junk entry whose name is [attrname]: a candidate match. *)
Definition assigns (attrname : string) (t : TargetEntry) : bool :=
  negb (resjunk (resdom t)) && String.eqb (resname (resdom t)) attrname.

(** The properties every entry of an attribute carries. *)
Definition entry_for (attrno : Z) (n : string) (t : TargetEntry) : Prop :=
  resno (resdom t) = attrno /\ resjunk (resdom t) = false /\
  resname (resdom t) = n.

Definition outcome_map {A B} (f : A -> B) (o : outcome A) : outcome B :=
  match o with
  | Done a => Done (f a)
  | Elog e => Elog e
  | Undefined => Undefined
  end.

Section Values.
Variable E : Collaborators.

(** The entries the attribute loop produces, by value. *)
Fixpoint attribute_values (rel : Relation) (ts : list TargetEntry)
    (command_type : Z) (result_relation : Index) (todo : nat) (attrno : Z)
    (used : list bool) : outcome (list TargetEntry * list bool) :=
  match todo with
  | O => Done ([], used)
  | S todo' =>
      match attrs (rd_att rel) !! Z.to_nat (attrno - 1) with
      | None => Undefined
      | Some att =>
          let '(ms, used') := scan (attname att) ts 0 used in
          let rest := attribute_values rel ts command_type result_relation
                        todo' (attrno + 1) used' in
          match merge_matches attrno None ms with
          | None => Elog (MultipleAssignmentConflict (attname att))
          | Some (Some t) => outcome_map (fun r => (t :: fst r, snd r)) rest
          | Some None =>
              match missing_expr E rel command_type result_relation
                                 att attrno with
              | Done e =>
                  outcome_map
                    (fun r => (mkTargetEntry
                                 (makeResdom attrno (atttypid att)
                                    (atttypmod att) (attname att) false) e
                               :: fst r, snd r)) rest
              | Elog e => Elog e
              | Undefined => Undefined
              end
          end
      end
  end.

End Values.

(** Every entry marked used carries the name of one of the first [k]
    attributes. *)
Definition used_inv (rel : Relation) (ts : list TargetEntry) (k : nat)
    (used : list bool) : Prop :=
  forall j : nat, default false (used !! j) = true ->
    exists t (k' : nat) att',
      ts !! j = Some t /\ (k' < k)%nat /\
      attrs (rd_att rel) !! k' = Some att' /\
      attname att' = resname (resdom t).

(** No attribute before position [k] has the name [n]. *)
Definition first_named (rel : Relation) (n : string) (k : nat) : Prop :=
  forall (k' : nat) att', (k' < k)%nat ->
    attrs (rd_att rel) !! k' = Some att' -> attname att' <> n.

(** The elements of [xs] whose used flag (from index [idx] on) is clear. *)
Fixpoint unprocessed {A} (xs : list A) (idx : nat) (used : list bool)
    : list A :=
  match xs with
  | [] => []
  | x :: rest =>
      if negb (default false (used !! idx))
      then x :: unprocessed rest (S idx) used
      else unprocessed rest (S idx) used
  end.

(** An entry with its position set to [attrno]. *)
Definition renumbered (t : TargetEntry) (attrno : Z) : TargetEntry :=
  mkTargetEntry (Resdom_with_resno (resdom t) attrno) (expr t).

(** [ps] forwards the entries [un] (address and value), numbering them
    from [attrno] on: each output entry is the source entry renumbered;
    it is the source entry itself when the number already fits, and an
    entry allocated after the first [n0] otherwise. *)
Fixpoint forwarded (n0 : nat) (s' : State) (attrno : Z)
    (un : list (tle_ptr * TargetEntry)) (ps : list tle_ptr) : Prop :=
  match un, ps with
  | [], [] => True
  | (p, t) :: un', p' :: ps' =>
      points_to s' p' (renumbered t attrno) /\
      (resno (resdom t) = attrno -> p' = p) /\
      (resno (resdom t) <> attrno -> (n0 <= p')%nat) /\
      forwarded n0 s' (attrno + 1) un' ps'
  | _, _ => False
  end.

(** The first entry of [un] that is not junk, if any. *)
Definition first_visible (un : list (tle_ptr * TargetEntry))
    : option (tle_ptr * TargetEntry) :=
  List.find (fun pt => negb (resjunk (resdom (snd pt)))) un.

(** The lock [heap_open(..., AccessShareLock)] takes on [rel]. *)
Definition lock_of (rel : Relation) : Oid * Z := (rd_id rel, AccessShareLock).

(** The range table entry of the result relation resolves, and the
    relation cache knows the relation. *)
Definition resolves (E : Collaborators) (rt : list RangeTblEntry)
    (rr : Index) (rel : Relation) : Prop :=
  1 <= rr /\
  exists rte, rt !! Z.to_nat (rr - 1) = Some rte /\
              relcache E (relid rte) = Some rel.

(** The row-identifier entry [preprocess_targetlist] appends to a list of
    [n] entries. *)
Definition ctid_entry (result_relation : Index) (n : nat) : TargetEntry :=
  mkTargetEntry
    (makeResdom (Z.of_nat n + 1) TIDOID (-1) "ctid" true)
    (Some (makeVar result_relation SelfItemPointerAttributeNumber
                   TIDOID (-1) 0)).

(** The block of [preprocess_targetlist] at lines 85-108, under a name of
    its own for the proofs ([preprocess_targetlist_unfold] shows that the
    function is the sanity check, the expansion and this block in
    sequence). *)
Definition add_ctid (command_type : Z) (result_relation : Index)
    (tlist : List) : M List :=
  len ← length_List tlist;
  let resdom := makeResdom (Z.of_nat len + 1) TIDOID (-1) "ctid" true in
  let var := makeVar result_relation SelfItemPointerAttributeNumber
                     TIDOID (-1) 0 in
  tlist ← (if command_type =? CMD_DELETE then listCopy tlist
           else mret tlist);
  tle ← makeTargetEntry resdom (Some var);
  lappend tlist tle.

(** The block of [preprocess_targetlist] at lines 61-67, the sanity check
    on the result relation, under a name of its own. *)
Definition check_result_relation (result_relation : Index)
    (range_table : list RangeTblEntry) : M unit :=
  if negb (result_relation =? 0) then
    rte ← rt_fetch result_relation range_table;
    if negb (is_NULL (subquery rte)) || (relid rte =? InvalidOid)
    then elog ResultRelationInvalid
    else mret tt
  else mret tt.

(** The sanity check lets the call through: there is no result relation,
    or its range table entry is a plain relation. *)
Definition result_relation_ok (rr : Index) (rt : list RangeTblEntry)
    : Prop :=
  rr = 0 \/
  (1 <= rr /\
   exists rte, rt !! Z.to_nat (rr - 1) = Some rte /\
               subquery rte = None /\ relid rte <> InvalidOid).

(** An array-element-assignment node with its assigned value present. *)
Definition array_assignment (e : option Node) : Prop :=
  exists al el et eb up lo base v,
    e = Some (T_ArrayRef al el et eb up lo base (Some v)).

(** The innermost base expression: peel nested array-element-assignment
    nodes until something else is found. *)
Fixpoint innermost_base (n : Node) : option Node :=
  match n with
  | T_ArrayRef _ _ _ _ _ _ base (Some _) =>
      match base with
      | Some inner => innermost_base inner
      | None => None
      end
  | other => Some other
  end.

Definition innermost_base_of (e : option Node) : option Node :=
  match e with
  | Some n => innermost_base n
  | None => None
  end.

(** The condition under which a second assignment may be merged. *)
Definition mergeable (src_expr prior_expr : option Node) : Prop :=
  array_assignment src_expr /\ array_assignment prior_expr /\
  refelemtype_of src_expr = refelemtype_of prior_expr /\
  innermost_base_of prior_expr = refexpr_of src_expr.

(** The expression that nests the assignments [later], in order, around
    [inner]: each one becomes the layer outside the ones before it. *)
Fixpoint nest_assignments (inner : option Node) (later : list (option Node))
    : option Node :=
  match later with
  | [] => inner
  | e :: rest => nest_assignments (ArrayRef_with_refexpr e inner) rest
  end.

Definition merged_expr (es : list (option Node)) : option Node :=
  match es with
  | [] => None
  | e :: rest => nest_assignments e rest
  end.

(** Candidates that cannot all be merged: some candidate after the first
    is not mergeable with the merge of those before it. *)
Definition conflicting (ms : list TargetEntry) : Prop :=
  exists pre m post,
    ms = pre ++ m :: post /\ pre <> [] /\
    ~ mergeable (expr m) (merged_expr (map expr pre)).

Definition visible (t : TargetEntry) : bool := negb (resjunk (resdom t)).

(** The entries a list of pointers refers to. *)
Fixpoint entries_of (s : State) (ps : list tle_ptr) : list TargetEntry :=
  match ps with
  | [] => []
  | p :: rest =>
      match tles s !! p with
      | Some t => t :: entries_of s rest
      | None => entries_of s rest
      end
  end.

(* ================================================================== *)
(** ** Sample catalog and target lists *)
(* ================================================================== *)

Definition ex_exprType (e : option Node) : Oid :=
  match e with
  | Some (T_Var _ _ t _ _) => t
  | Some (T_Const t _ _ _ _ _ _) => t
  | _ => 0
  end.

(** int4 is 23, text is 25, int4[] is 1007. *)
Definition ex_rel : Relation :=
  mkRelation 100
    (mkTupleDesc [mkAttr "a" 23 (-1) false false;
                  mkAttr "b" 1007 (-1) false false;
                  mkAttr "c" 25 (-1) false false] None).

(** A relation whose second column is dropped. *)
Definition ex_rel_dropped : Relation :=
  mkRelation 101
    (mkTupleDesc [mkAttr "a" 23 (-1) false false;
                  mkAttr "b" 23 (-1) false true] None).

(** A relation whose first column has a stored default of another type. *)
Definition ex_rel_baddefault : Relation :=
  mkRelation 102
    (mkTupleDesc [mkAttr "a" 23 (-1) false false;
                  mkAttr "b" 1007 (-1) false false]
       (Some (mkTupleConstr [mkAttrDefault 1 "text-default"]))).

Definition ex_rel_one : Relation :=
  mkRelation 103 (mkTupleDesc [mkAttr "a" 23 (-1) false false] None).

Definition ex_relcache (o : Oid) : option Relation :=
  if o =? 100 then Some ex_rel
  else if o =? 101 then Some ex_rel_dropped
  else if o =? 102 then Some ex_rel_baddefault
  else if o =? 103 then Some ex_rel_one
  else None.

Definition ex_typlenbyval (t : Oid) : Z * bool :=
  if t =? 23 then (4, true) else (-1, false).

(** No type-level defaults, no coercion from text to int4, and zeroed
    stack garbage. *)
Definition ex_collaborators (hack : bool) : Collaborators :=
  mkCollaborators
    ex_relcache
    (fun _ => Some (T_Const 25 (-1) 0 false false false false))
    ex_exprType
    (fun _ _ _ _ => None)
    (fun t => t)
    (fun e _ _ => e)
    (fun _ _ => None)
    ex_typlenbyval
    (fun t => T_Const t (fst (ex_typlenbyval t)) 0 true
                      (snd (ex_typlenbyval t)) false false)
    hack
    (fun _ => (0, false)).

Definition ex_E : Collaborators := ex_collaborators false.
Definition ex_E_hack : Collaborators := ex_collaborators true.

Definition ex_rt : list RangeTblEntry :=
  [mkRTE 100 None; mkRTE 101 None; mkRTE 102 None; mkRTE 103 None].

Definition ex_col_b : Node := T_Var 1 2 1007 (-1) 0.

(** [b[i] = v] *)
Definition ex_assign (i v : Z) (base : option Node) : Node :=
  T_ArrayRef (-1) 4 23 true [T_Const 23 4 i false true false false] [] base
             (Some (T_Const 23 4 v false true false false)).

Definition ex_b1 : TargetEntry :=
  mkTargetEntry (makeResdom 1 1007 (-1) "b" false)
                (Some (ex_assign 1 10 (Some ex_col_b))).
Definition ex_b3 : TargetEntry :=
  mkTargetEntry (makeResdom 2 1007 (-1) "b" false)
                (Some (ex_assign 3 30 (Some ex_col_b))).
Definition ex_ord : TargetEntry :=
  mkTargetEntry (makeResdom 3 23 (-1) "ord" true)
                (Some (T_Var 1 1 23 (-1) 0)).
Definition ex_bx : TargetEntry :=
  mkTargetEntry (makeResdom 2 1007 (-1) "b" false)
                (Some (T_Const 1007 (-1) 1 false false false false)).
Definition ex_by : TargetEntry :=
  mkTargetEntry (makeResdom 2 1007 (-1) "b" false)
                (Some (T_Const 1007 (-1) 2 false false false false)).
Definition ex_stray : TargetEntry :=
  mkTargetEntry (makeResdom 3 23 (-1) "zzz" false)
                (Some (T_Const 23 4 3 false true false false)).
Definition ex_a : TargetEntry :=
  mkTargetEntry (makeResdom 1 23 (-1) "a" false)
                (Some (T_Const 23 4 1 false true false false)).

(** SET b[1] = 10, b[3] = 30, with a junk ordering key; the list is laid
    out in three cells starting at cell 0. *)
Definition ex_store_arrays : State :=
  mkState [ex_b1; ex_b3; ex_ord] [(0, Some 1); (1, Some 2); (2, None)]%nat [].

(** SET b = 1, b = 2, zzz = 3 *)
Definition ex_store_conflict : State :=
  mkState [ex_bx; ex_by; ex_stray] [] [].

(** SET a = 1 *)
Definition ex_store_a : State := mkState [ex_a] [] [].

Definition ex_store_empty : State := mkState [] [] [].

(** The state the expansion of [ex_store_arrays] for UPDATE leaves. *)
Definition ex_arrays_expanded : State :=
  Eval cbv in
    snd (expand_targetlist ex_E [0; 1; 2]%nat CMD_UPDATE 1 ex_rt
                           ex_store_arrays).

(** The state the attribute loop of that expansion leaves. *)
Definition ex_arrays_after_loop : State :=
  Eval cbv in
    snd (attribute_loop ex_E ex_rel [0; 1; 2]%nat CMD_UPDATE 1 3 1
           (replicate 4 false) []
           (mkState (tles ex_store_arrays) (cells ex_store_arrays)
                    (lock_of ex_rel :: locks ex_store_arrays))).

(** The state DELETE preprocessing of [ex_store_arrays] leaves. *)
Definition ex_arrays_deleted : State :=
  Eval cbv in
    snd (preprocess_targetlist ex_E (Some 0%nat) CMD_DELETE 1 ex_rt
                               ex_store_arrays).

(** The state the failed UPDATE expansion of [ex_store_conflict] leaves. *)
Definition ex_conflict_left : State :=
  Eval cbv in
    snd (expand_targetlist ex_E [0; 1; 2]%nat CMD_UPDATE 1 ex_rt
                           ex_store_conflict).

(** The claims that do not hold as they are written, as properties of one
    invocation. *)

(** C1 as written: the visible entries are numbered 1..N and named
    after the attributes, where N counts the attributes that are not
    dropped. *)
Definition C1_as_stated (E : Collaborators) (tlist : list tle_ptr)
    (cmd : Z) (rr : Index) (rt : list RangeTblEntry) (rel : Relation)
    (s : State) : Prop :=
  forall out s',
    expand_targetlist E tlist cmd rr rt s = (Done out, s') ->
    let vis := List.filter visible (entries_of s' out) in
    let live := List.filter (fun a => negb (COLUMN_IS_DROPPED a))
                            (attrs (rd_att rel)) in
    map (fun t => resno (resdom t)) vis = seqZ 1 (Z.of_nat (length live)) /\
    map (fun t => resname (resdom t)) vis = map attname live.

(** C8 as written: whatever the exit, the locks held are those held
    before. *)
Definition C8_as_stated (E : Collaborators) (tlist : list tle_ptr)
    (cmd : Z) (rr : Index) (rt : list RangeTblEntry) (s : State) : Prop :=
  forall r s',
    expand_targetlist E tlist cmd rr rt s = (r, s') -> locks s' = locks s.

(** C9 as written: every other command kind fails with
    UnsupportedCommandKind. *)
Definition C9_as_stated (E : Collaborators) (tlist : list tle_ptr)
    (cmd : Z) (rr : Index) (rt : list RangeTblEntry) (s : State) : Prop :=
  cmd <> CMD_INSERT -> cmd <> CMD_UPDATE ->
  fst (expand_targetlist E tlist cmd rr rt s) = Elog UnsupportedCommandKind.

(** C10 as written: conflicting assignments together with a stray
    visible entry always fail with MultipleAssignmentConflict. *)
Definition C10_as_stated (E : Collaborators) (tlist : list tle_ptr)
    (ts : list TargetEntry) (cmd : Z) (rr : Index)
    (rt : list RangeTblEntry) (rel : Relation) (s : State) : Prop :=
  cmd = CMD_INSERT \/ cmd = CMD_UPDATE ->
  (exists (i : nat) att,
     attrs (rd_att rel) !! i = Some att /\ first_named rel (attname att) i /\
     conflicting (List.filter (assigns (attname att)) ts)) ->
  (exists stray,
     stray ∈ ts /\ resjunk (resdom stray) = false /\
     forall a, a ∈ attrs (rd_att rel) -> attname a <> resname (resdom stray)) ->
  exists n,
    fst (expand_targetlist E tlist cmd rr rt s)
    = Elog (MultipleAssignmentConflict n).

(** Assignments to elements of one array: every expression is an
    array-element assignment, with element type [et], whose base is [b],
    and [b] itself is not such an assignment. *)
Definition same_array (b : option Node) (et : Oid) (ms : list TargetEntry)
    : Prop :=
  ~ array_assignment b /\
  Forall (fun m => array_assignment (expr m) /\
                   refexpr_of (expr m) = b /\
                   refelemtype_of (expr m) = et) ms.

(** Every visible entry of the source list carries the name of an
    attribute of the relation. *)
Definition no_stray (rel : Relation) (ts : list TargetEntry) : Prop :=
  forall t, t ∈ ts -> resjunk (resdom t) = false ->
    exists att, att ∈ attrs (rd_att rel) /\
                attname att = resname (resdom t).

(** No attribute of the relation has candidates that cannot be merged. *)
Definition no_conflict (rel : Relation) (ts : list TargetEntry) : Prop :=
  forall att, att ∈ attrs (rd_att rel) ->
    ~ conflicting (List.filter (assigns (attname att)) ts).

(** Every attribute no visible entry assigns gets its missing
    expression: the [switch] on the command kind returns for it. *)
Definition missing_ok (E : Collaborators) (rel : Relation)
    (ts : list TargetEntry) (cmd : Z) (rr : Index) : Prop :=
  forall (i : nat) att,
    attrs (rd_att rel) !! i = Some att ->
    List.filter (assigns (attname att)) ts = [] ->
    exists e, missing_expr E rel cmd rr att (Z.of_nat i + 1) = Done e.

(** A target list in the form the expansion produces for [rel]: the
    entry at place [j] is numbered [j + 1]; the first entries are visible
    and named after the attributes, one per attribute and in their order;
    the entries after them are junk. *)
Definition canonical (rel : Relation) (ts : list TargetEntry) : Prop :=
  (length (attrs (rd_att rel)) <= length ts)%nat /\
  forall (j : nat) t, ts !! j = Some t ->
    resno (resdom t) = Z.of_nat j + 1 /\
    match attrs (rd_att rel) !! j with
    | Some att => resjunk (resdom t) = false /\
                  resname (resdom t) = attname att
    | None => resjunk (resdom t) = true
    end.

(** A computation that leaves the relation locks as they are, whatever
    its outcome. *)
Definition keeps_locks {A} (m : M A) : Prop :=
  forall s r s', m s = (r, s') -> locks s' = locks s.

(* ================================================================== *)
(** ** Further sample inputs *)
(* ================================================================== *)

Definition ex_c : TargetEntry :=
  mkTargetEntry (makeResdom 3 25 (-1) "c" false)
                (Some (T_Const 25 (-1) 7 false false false false)).

(** INSERT ... (b, c) VALUES (1, 7); the list is laid out in two cells
    starting at cell 0. *)
Definition ex_store_insert : State :=
  mkState [ex_bx; ex_c] [(0, Some 1); (1, None)]%nat [].

(** The state the expansion of [ex_store_insert] for INSERT leaves. *)
Definition ex_insert_expanded : State :=
  Eval cbv in
    snd (expand_targetlist ex_E [0; 1]%nat CMD_INSERT 1 ex_rt
                           ex_store_insert).

(** SET a = 1, zzz = 3 on the relation with the one column "a". *)
Definition ex_store_stray : State := mkState [ex_a; ex_stray] [] [].

(** The state the failed UPDATE expansion of [ex_store_stray] leaves. *)
Definition ex_stray_left : State :=
  Eval cbv in
    snd (expand_targetlist ex_E [0; 1]%nat CMD_UPDATE 4 ex_rt
                           ex_store_stray).

(** The state the failed INSERT expansion of the empty list into the
    relation with the uncoercible default leaves. *)
Definition ex_baddefault_left : State :=
  Eval cbv in
    snd (expand_targetlist ex_E [] CMD_INSERT 3 ex_rt ex_store_empty).

(** A range table whose first entry has no relation. *)
Definition ex_rt_invalid : list RangeTblEntry := [mkRTE InvalidOid None].

(** SET b[1] = 10 alone: the entry is numbered 1 in the source list, and
    "b" is the second column. *)
Definition ex_store_b1 : State := mkState [ex_b1] [] [].

(** The state the expansion of [ex_store_b1] for UPDATE leaves. *)
Definition ex_b1_expanded : State :=
  Eval cbv in
    snd (expand_targetlist ex_E [0]%nat CMD_UPDATE 1 ex_rt ex_store_b1).

(** The state the first match of "b" in [ex_store_arrays] leaves. *)
Definition ex_b1_matched : State :=
  Eval cbv in snd (process_matched_tle 0%nat None 2 ex_store_arrays).


(* ================================================================== *)
(** ** Structural equality decides equality of node trees *)
(* ================================================================== *)

Lemma list_eqb_spec {A} (f : A -> A -> bool) (l1 : list A) :
  Forall (fun x => forall y, f x y = true <-> x = y) l1 ->
  forall l2, list_eqb f l1 l2 = true <-> l1 = l2.
Proof.
  induction 1 as [|x l1 Hx _ IH]; intros [|y l2]; simpl;
    try (split; [discriminate | discriminate]); try tauto.
  rewrite andb_true_iff, Hx, IH. split.
  - intros [-> ->]; reflexivity.
  - intros [= -> ->]; auto.
Qed.

Lemma opt_eqb_spec {A} (f : A -> A -> bool) (o1 : option A) :
  opt_all (fun x => forall y, f x y = true <-> x = y) o1 ->
  forall o2, opt_eqb f o1 o2 = true <-> o1 = o2.
Proof.
  intros H [y|]; destruct o1 as [x|]; simpl in *;
    try (split; [discriminate | discriminate]); try tauto.
  rewrite H. split; [intros -> | intros [= ->]]; reflexivity.
Qed.

Lemma node_eqb_spec (a b : Node) : node_eqb a b = true <-> a = b.
Proof.
  revert b. induction a as [| |a1 a2 a3 a4 up lo r asg Hup Hlo Hr Hasg
                             |t l Hl] using Node_nested_ind;
    intros [ | | | ]; intros; simpl;
    try (split; [discriminate | discriminate]).
  - rewrite !andb_true_iff, !Z.eqb_eq. split.
    + intros [[[[-> ->] ->] ->] ->]; reflexivity.
    + intros [= -> -> -> -> ->]; auto.
  - rewrite !andb_true_iff, !Z.eqb_eq, !Bool.eqb_true_iff. split.
    + intros [[[[[[-> ->] ->] ->] ->] ->] ->]; reflexivity.
    + intros [= -> -> -> -> -> -> ->]; repeat split.
  - rewrite !andb_true_iff, !Z.eqb_eq, !Bool.eqb_true_iff.
    rewrite (list_eqb_spec _ _ Hup), (list_eqb_spec _ _ Hlo).
    rewrite (opt_eqb_spec _ _ Hr), (opt_eqb_spec _ _ Hasg). split.
    + intros [[[[[[[-> ->] ->] ->] ->] ->] ->] ->]; reflexivity.
    + intros [= -> -> -> -> -> -> -> ->]; repeat split.
  - rewrite !andb_true_iff, !Z.eqb_eq, (list_eqb_spec _ _ Hl). split.
    + intros [-> ->]; reflexivity.
    + intros [= -> ->]; auto.
Qed.

Lemma equal_spec (a b : option Node) : equal a b = true <-> a = b.
Proof.
  unfold equal. apply opt_eqb_spec. destruct a; simpl; auto using node_eqb_spec.
Qed.

(* ================================================================== *)
(** ** Running the monad *)
(* ================================================================== *)

Lemma run_bind {A B} (m : M A) (k : A -> M B) (s : State) :
  (m ≫= k) s = match m s with
               | (Done a, s1) => k a s1
               | (Elog e, s1) => (Elog e, s1)
               | (Undefined, s1) => (Undefined, s1)
               end.
Proof. reflexivity. Qed.

Lemma run_ret {A} (a : A) (s : State) : (mret a : M A) s = (Done a, s).
Proof. reflexivity. Qed.

Lemma bind_inv {A B} (m : M A) (k : A -> M B) s r s' :
  (m ≫= k) s = (r, s') ->
  (exists a s1, m s = (Done a, s1) /\ k a s1 = (r, s')) \/
  (exists e, m s = (Elog e, s') /\ r = Elog e) \/
  (m s = (Undefined, s') /\ r = Undefined).
Proof.
  rewrite run_bind. destruct (m s) as [[a|e|] s1]; intros H.
  - left; eauto.
  - right; left. inversion H; subst. eauto.
  - right; right. inversion H; subst. eauto.
Qed.

#[global] Instance grows_refl : Reflexive grows.
Proof. intros s. unfold grows. auto. Qed.

#[global] Instance grows_trans : Transitive grows.
Proof.
  intros a b c (H1 & H2 & H3) (H4 & H5 & H6). unfold grows.
  split; [by etrans | split; congruence].
Qed.

Lemma points_to_grows s s' p t : grows s s' -> points_to s p t -> points_to s' p t.
Proof. intros (H & _) Hp. unfold points_to in *. by eapply prefix_lookup_Some. Qed.

Lemma points_to_all_grows s s' ps ts :
  grows s s' -> Forall2 (points_to s) ps ts -> Forall2 (points_to s') ps ts.
Proof.
  intros Hg H. eapply Forall2_impl; [exact H|].
  intros p t. by apply points_to_grows.
Qed.

Lemma makeTargetEntry_run r e s :
  makeTargetEntry r e s =
    (Done (length (tles s)),
     mkState (tles s ++ [mkTargetEntry r e]) (cells s) (locks s)).
Proof. reflexivity. Qed.

Lemma makeTargetEntry_grows r e s :
  grows s (mkState (tles s ++ [mkTargetEntry r e]) (cells s) (locks s)) /\
  points_to (mkState (tles s ++ [mkTargetEntry r e]) (cells s) (locks s))
            (length (tles s)) (mkTargetEntry r e).
Proof.
  split.
  - unfold grows; simpl. split; [by apply prefix_app_r | done].
  - unfold points_to; simpl. by rewrite lookup_app_r, Nat.sub_diag.
Qed.

Lemma deref_run s p t : points_to s p t -> deref p s = (Done t, s).
Proof. unfold points_to, deref. by intros ->. Qed.

Lemma Resdom_with_resno_same r : Resdom_with_resno r (resno r) = r.
Proof. by destruct r. Qed.

(** [process_matched_tle], by value. *)
Lemma process_matched_tle_run src_ptr prior_ptr attrno s src prior :
  points_to s src_ptr src ->
  option_Forall2 (points_to s) prior_ptr prior ->
  exists r s', process_matched_tle src_ptr prior_ptr attrno s = (r, s') /\
    grows s s' /\
    match merged_entry attrno prior src with
    | Some t => exists p, r = Done p /\ points_to s' p t
    | None => r = Elog (MultipleAssignmentConflict (resname (resdom src)))
    end.
Proof.
  intros Hsrc Hprior. unfold process_matched_tle.
  rewrite run_bind, (deref_run _ _ _ Hsrc).
  destruct Hprior as [pp pv Hpp|]; simpl merged_entry.
  - rewrite run_bind, (deref_run _ _ _ Hpp). unfold merge_ok.
    destruct (is_NULL (expr src) || _ || _ || _ || _ || _ || _) eqn:Hc;
      simpl.
    + eexists _, _. split; [reflexivity|]. split; [reflexivity|]. reflexivity.
    + destruct (equal _ _) eqn:Heq; simpl.
      * rewrite makeTargetEntry_run. eexists _, _. split; [reflexivity|].
        destruct (makeTargetEntry_grows (Resdom_with_resno (resdom src) attrno)
                    (ArrayRef_with_refexpr (expr src) (expr pv)) s) as [Hg Hp].
        split; [exact Hg|]. eauto.
      * eexists _, _. split; [reflexivity|]. split; reflexivity.
  - destruct (resno (resdom src) =? attrno) eqn:Hno.
    + rewrite run_ret. eexists _, _. split; [reflexivity|].
      split; [reflexivity|]. eauto.
    + rewrite makeTargetEntry_run. eexists _, _. split; [reflexivity|].
      destruct (makeTargetEntry_grows (Resdom_with_resno (resdom src) attrno)
                  (expr src) s) as [Hg Hp].
      split; [exact Hg|]. eauto.
Qed.

(** The scan of the old list for one attribute, by value. *)
Lemma match_attribute_run name attrno temp :
  forall idx used prior_ptr prior s ts,
  Forall2 (points_to s) temp ts ->
  option_Forall2 (points_to s) prior_ptr prior ->
  exists r s',
    match_attribute name attrno temp idx used prior_ptr s = (r, s') /\
    grows s s' /\
    match merge_matches attrno prior (fst (scan name ts idx used)) with
    | Some res =>
        exists rp, r = Done (rp, snd (scan name ts idx used)) /\
                   option_Forall2 (points_to s') rp res
    | None => r = Elog (MultipleAssignmentConflict name)
    end.
Proof.
  induction temp as [|p temp IH]; intros idx used prior_ptr prior s ts Hts Hprior.
  - apply Forall2_nil_inv_l in Hts as ->. simpl.
    eexists _, _. split; [reflexivity|]. split; [reflexivity|]. eauto.
  - apply Forall2_cons_inv_l in Hts as (t & ts' & Hp & Hts' & ->).
    cbn [match_attribute scan]. rewrite run_bind, (deref_run _ _ _ Hp).
    destruct (negb (default false (used !! idx)) && negb (resjunk (resdom t))
              && String.eqb (resname (resdom t)) name) eqn:Hc.
    + destruct (scan name ts' (S idx) (<[idx:=true]> used)) as [ms used'] eqn:Hs.
      rewrite run_bind.
      destruct (process_matched_tle_run p prior_ptr attrno s t prior Hp Hprior)
        as (r1 & s1 & Hrun & Hg & Hm).
      rewrite Hrun. cbn [fst snd merge_matches].
      destruct (merged_entry attrno prior t) as [t'|].
      * destruct Hm as (p' & -> & Hp').
        destruct (IH (S idx) (<[idx:=true]> used) (Some p') (Some t') s1 ts')
          as (r & s' & Hrun' & Hg' & Hres).
        { by eapply points_to_all_grows. }
        { by constructor. }
        rewrite Hs in Hres. cbn [fst snd] in Hres.
        eexists _, _. split; [exact Hrun'|]. split; [by etrans|]. exact Hres.
      * subst r1. eexists _, _. split; [reflexivity|]. split; [exact Hg|].
        apply andb_true_iff in Hc as [_ Hn]. apply String.eqb_eq in Hn.
        by rewrite Hn.
    + destruct (IH (S idx) used prior_ptr prior s ts' Hts' Hprior)
        as (r & s' & Hrun' & Hg' & Hres).
      eexists _, _. split; [exact Hrun'|]. split; [exact Hg'|]. exact Hres.
Qed.

Section ValuesRun.
Variable E : Collaborators.

Lemma lift_run {A} (o : outcome A) s : lift o s = (o, s).
Proof. reflexivity. Qed.

(** The attribute loop, by value. *)
Lemma attribute_loop_run rel tlist cmd rr ts todo :
  forall attrno used acc s,
  Forall2 (points_to s) tlist ts ->
  exists r s',
    attribute_loop E rel tlist cmd rr todo attrno used acc s = (r, s') /\
    grows s s' /\
    match attribute_values E rel ts cmd rr todo attrno used with
    | Done (vs, used') =>
        exists ps, r = Done (acc ++ ps, used', attrno + Z.of_nat todo) /\
                   Forall2 (points_to s') ps vs
    | Elog e => r = Elog e
    | Undefined => r = Undefined
    end.
Proof.
  induction todo as [|todo IH]; intros attrno used acc s Hts.
  - simpl. eexists _, _. split; [reflexivity|]. split; [reflexivity|].
    exists []. rewrite app_nil_r, Z.add_0_r. split; [reflexivity|constructor].
  - cbn [attribute_loop attribute_values].
    destruct (attrs (rd_att rel) !! Z.to_nat (attrno - 1)) as [att|].
    2:{ eexists _, _. split; [reflexivity|]. split; reflexivity. }
    rewrite run_bind.
    destruct (match_attribute_run (attname att) attrno tlist 0%nat used None None
                s ts Hts) as (r1 & s1 & Hrun & Hg & Hm); [constructor|].
    rewrite Hrun. clear Hrun.
    destruct (scan (attname att) ts 0 used) as [ms used'] eqn:Hs.
    cbn [fst snd] in Hm.
    destruct (merge_matches attrno None ms) as [[t|]|].
    + destruct Hm as (rp & -> & Hrp). inversion Hrp as [p' t' Hp'|]; subst.
      rewrite run_bind, run_ret.
      destruct (IH (attrno + 1) used' (acc ++ [p']) s1) as (r & s' & Hrun' & Hg' & Hres).
      { by eapply points_to_all_grows. }
      eexists _, _. split; [exact Hrun'|]. split; [by etrans|].
      destruct (attribute_values E rel ts cmd rr todo (attrno + 1) used')
        as [[vs used'']|e|]; simpl; auto.
      destruct Hres as (ps & -> & Hps). exists (p' :: ps).
      replace (attrno + Z.of_nat (S todo)) with (attrno + 1 + Z.of_nat todo)
        by lia.
      rewrite <- app_assoc. simpl. split.
      * reflexivity.
      * constructor; [|exact Hps]. by eapply points_to_grows.
    + destruct Hm as (rp & -> & Hrp). inversion Hrp; subst.
      rewrite run_bind. unfold missing_attribute at 1.
      rewrite run_bind, lift_run.
      destruct (missing_expr E rel cmd rr att attrno) as [e|e|].
      * rewrite makeTargetEntry_run.
        match goal with |- context [makeResdom ?a ?b ?c ?d ?f] =>
          destruct (makeTargetEntry_grows (makeResdom a b c d f) e s1)
            as [Hg1 Hp1] end.
        set (s2 := mkState _ _ _) in *.
        destruct (IH (attrno + 1) used' (acc ++ [length (tles s1)]) s2)
          as (r & s' & Hrun' & Hg' & Hres).
        { eapply points_to_all_grows; [|exact Hts]. by etrans. }
        eexists _, _. split; [exact Hrun'|].
        split; [etrans; [exact Hg|]; by etrans|].
        destruct (attribute_values E rel ts cmd rr todo (attrno + 1) used')
          as [[vs used'']|e'|]; simpl; auto.
        destruct Hres as (ps & -> & Hps). exists (length (tles s1) :: ps).
        replace (attrno + Z.of_nat (S todo))
          with (attrno + 1 + Z.of_nat todo) by lia.
        rewrite <- app_assoc. simpl. split.
        -- reflexivity.
        -- constructor; [|exact Hps]. by eapply points_to_grows.
      * eexists _, _. split; [reflexivity|]. split; [exact Hg|]. reflexivity.
      * eexists _, _. split; [reflexivity|]. split; [exact Hg|]. reflexivity.
    + subst r1. eexists _, _. split; [reflexivity|]. split; [exact Hg|].
      reflexivity.
Qed.

End ValuesRun.

(* ================================================================== *)
(** ** Facts about the value-level loops *)
(* ================================================================== *)

Lemma assigns_spec n t :
  assigns n t = true <->
  resjunk (resdom t) = false /\ resname (resdom t) = n.
Proof.
  unfold assigns. rewrite andb_true_iff, negb_true_iff, String.eqb_eq. tauto.
Qed.

Lemma scan_cond (used : list bool) (idx : nat) n t :
  negb (default false (used !! idx)) && negb (resjunk (resdom t))
    && String.eqb (resname (resdom t)) n
  = negb (default false (used !! idx)) && assigns n t.
Proof. unfold assigns. by rewrite andb_assoc. Qed.

Lemma scan_sublist n ts : forall idx used,
  fst (scan n ts idx used) `sublist_of` List.filter (assigns n) ts.
Proof.
  induction ts as [|t ts IH]; intros idx used; simpl; [constructor|].
  rewrite scan_cond. destruct (assigns n t) eqn:Ha.
  - destruct (negb (default false (used !! idx))); simpl.
    + specialize (IH (S idx) (<[idx:=true]> used)).
      destruct (scan n ts (S idx) (<[idx:=true]> used)); simpl in *.
      by constructor.
    + by constructor.
  - rewrite andb_false_r. apply IH.
Qed.

Lemma scan_all_assign n ts idx used :
  Forall (fun t => assigns n t = true) (fst (scan n ts idx used)).
Proof.
  apply Forall_forall. intros t Ht.
  eapply elem_of_sublist in Ht; [|apply scan_sublist].
  apply list_elem_of_In, filter_In in Ht. tauto.
Qed.

(** When no candidate is marked used yet, the scan finds them all. *)
Lemma scan_filter n ts : forall idx used,
  (forall j t, ts !! j = Some t -> assigns n t = true ->
               default false (used !! (idx + j)%nat) = false) ->
  fst (scan n ts idx used) = List.filter (assigns n) ts.
Proof.
  induction ts as [|t ts IH]; intros idx used Hun; simpl; [done|].
  rewrite scan_cond. destruct (assigns n t) eqn:Ha.
  - assert (H0 : default false (used !! idx) = false).
    { specialize (Hun 0%nat t eq_refl Ha). by rewrite Nat.add_0_r in Hun. }
    rewrite H0. simpl.
    specialize (IH (S idx) (<[idx:=true]> used)).
    destruct (scan n ts (S idx) (<[idx:=true]> used)); simpl in *.
    f_equal. apply IH. intros j t' Hj Ht'.
    rewrite list_lookup_insert_ne by lia.
    specialize (Hun (S j) t' Hj Ht'). rewrite Nat.add_succ_r in Hun.
    exact Hun.
  - rewrite andb_false_r. apply IH. intros j t' Hj Ht'.
    specialize (Hun (S j) t' Hj Ht'). rewrite Nat.add_succ_r in Hun.
    exact Hun.
Qed.

(** What a scan may mark: only candidates of its attribute. *)
Lemma scan_marks n ts : forall idx used j,
  default false (snd (scan n ts idx used) !! j) = true ->
  default false (used !! j) = true \/
  exists t, (idx <= j)%nat /\ ts !! (j - idx)%nat = Some t /\
            assigns n t = true.
Proof.
  induction ts as [|t ts IH]; intros idx used j; simpl; [auto|].
  rewrite scan_cond.
  destruct (negb (default false (used !! idx)) && assigns n t) eqn:Hc.
  - specialize (IH (S idx) (<[idx:=true]> used) j).
    destruct (scan n ts (S idx) (<[idx:=true]> used)); simpl in *.
    intros H. destruct (IH H) as [Hu|(t' & Hle & Ht' & Ha)].
    + destruct (decide (idx = j)) as [->|Hne].
      * right. exists t. rewrite Nat.sub_diag. simpl.
        apply andb_true_iff in Hc. split; [lia|tauto].
      * rewrite list_lookup_insert_ne in Hu by done. auto.
    + right. exists t'. split; [lia|]. split; [|done].
      replace (j - idx)%nat with (S (j - S idx)) by lia. done.
  - intros H. destruct (IH (S idx) used j H) as [Hu|(t' & Hle & Ht' & Ha)];
      [auto|].
    right. exists t'. split; [lia|]. split; [|done].
    replace (j - idx)%nat with (S (j - S idx)) by lia. done.
Qed.

Lemma merged_entry_for attrno n prior src t :
  assigns n src = true ->
  merged_entry attrno prior src = Some t -> entry_for attrno n t.
Proof.
  intros [Hj Hn]%assigns_spec. unfold merged_entry, entry_for.
  destruct prior as [pr|].
  - destruct (merge_ok _ _); intros [= <-]; simpl; auto.
  - destruct (resno (resdom src) =? attrno) eqn:Hno; intros [= <-]; simpl;
      auto.
    apply Z.eqb_eq in Hno. auto.
Qed.

Lemma merge_matches_for attrno n ms : forall prior t,
  Forall (fun m => assigns n m = true) ms ->
  (forall p, prior = Some p -> entry_for attrno n p) ->
  merge_matches attrno prior ms = Some (Some t) -> entry_for attrno n t.
Proof.
  induction ms as [|m ms IH]; intros prior t Hms Hprior; simpl.
  - intros [= ->]. by apply Hprior.
  - apply Forall_cons in Hms as [Hm Hms].
    destruct (merged_entry attrno prior m) as [t'|] eqn:Ht'; [|done].
    apply IH; [done|]. intros p [= <-]. by eapply merged_entry_for.
Qed.

Lemma merge_matches_some attrno ms : forall t,
  merge_matches attrno (Some t) ms <> Some None.
Proof.
  induction ms as [|m ms IH]; intros t; cbn [merge_matches]; [done|].
  destruct (merged_entry attrno (Some t) m); [apply IH|done].
Qed.

Lemma merge_matches_none attrno ms :
  merge_matches attrno None ms = Some None <-> ms = [].
Proof.
  split; [|by intros ->].
  destruct ms as [|m ms]; [done|]. cbn [merge_matches].
  destruct (merged_entry attrno None m) as [t|] eqn:Ht; [|done].
  intros H. by apply merge_matches_some in H.
Qed.

(** A single candidate never conflicts. *)
Lemma merge_matches_short attrno ms :
  (length ms <= 1)%nat -> merge_matches attrno None ms <> None.
Proof.
  destruct ms as [|m [|m' ms]]; simpl; try done; [|lia].
  intros _. by destruct (resno (resdom m) =? attrno).
Qed.

Section ValuesFacts.
Variable E : Collaborators.
Variable rel : Relation.
Variable ts : list TargetEntry.
Variable cmd : Z.
Variable rr : Index.

Lemma build_column_default_Elog attrno e :
  build_column_default E rel attrno = Elog e ->
  exists c t1 t2, e = DefaultTypeMismatch c t1 t2.
Proof.
  unfold build_column_default.
  destruct (attrno <? 1); [done|].
  destruct (attrs (rd_att rel) !! Z.to_nat (attrno - 1)) as [att|]; [|done].
  destruct (match constr (rd_att rel) with Some _ => _ | None => _ end);
    [|done].
  destruct (negb _); [|done]. destruct (is_NULL _); [|done].
  intros [= <-]. eauto.
Qed.

Lemma build_column_default_defined attrno att :
  1 <= attrno ->
  attrs (rd_att rel) !! Z.to_nat (attrno - 1) = Some att ->
  build_column_default E rel attrno <> Undefined.
Proof.
  intros Hle Hatt. unfold build_column_default.
  destruct (attrno <? 1) eqn:Hlt; [lia|]. rewrite Hatt.
  destruct (match constr (rd_att rel) with Some _ => _ | None => _ end);
    [|done].
  destruct (negb _); [|done]. by destruct (is_NULL _).
Qed.

Lemma missing_expr_Elog att attrno e :
  missing_expr E rel cmd rr att attrno = Elog e ->
  (cmd = CMD_INSERT /\ exists c t1 t2, e = DefaultTypeMismatch c t1 t2) \/
  (cmd <> CMD_INSERT /\ cmd <> CMD_UPDATE /\ e = UnsupportedCommandKind).
Proof.
  unfold missing_expr.
  destruct (cmd =? CMD_INSERT) eqn:Hi.
  - intros H. left. split; [lia|]. by eapply build_column_default_Elog.
  - destruct (cmd =? CMD_UPDATE) eqn:Hu.
    + by destruct (_ && _).
    + intros [= <-]. right. repeat split; lia.
Qed.

Lemma missing_expr_defined att attrno :
  1 <= attrno ->
  attrs (rd_att rel) !! Z.to_nat (attrno - 1) = Some att ->
  missing_expr E rel cmd rr att attrno <> Undefined.
Proof.
  intros Hle Hatt. unfold missing_expr.
  destruct (cmd =? CMD_INSERT); [by eapply build_column_default_defined|].
  destruct (cmd =? CMD_UPDATE); [|done]. by destruct (_ && _).
Qed.

Lemma missing_expr_unsupported att attrno :
  cmd <> CMD_INSERT -> cmd <> CMD_UPDATE ->
  missing_expr E rel cmd rr att attrno = Elog UnsupportedCommandKind.
Proof.
  intros Hi Hu. unfold missing_expr.
  destruct (cmd =? CMD_INSERT) eqn:H1; [lia|].
  destruct (cmd =? CMD_UPDATE) eqn:H2; [lia|]. done.
Qed.

Ltac unfold_values H :=
  cbn [attribute_values] in H;
  match type of H with
  | context [attrs (rd_att rel) !! ?k] =>
      destruct (attrs (rd_att rel) !! k) as [?att|] eqn:?Hatt; [|try done]
  end;
  match type of H with
  | context [scan ?n ts 0 ?u] =>
      pose proof (scan_sublist n ts 0 u) as ?Hsub;
      pose proof (scan_all_assign n ts 0 u) as ?Hall;
      pose proof (scan_marks n ts 0 u) as ?Hmarks;
      destruct (scan n ts 0 u) as [?ms ?used1] eqn:?Hscan
  end;
  cbn [fst snd] in *.

(** Shape of a successful attribute loop: one visible entry per
    attribute, numbered and named after it. *)
Lemma attribute_values_shape todo : forall attrno used vs used',
  1 <= attrno ->
  attribute_values E rel ts cmd rr todo attrno used = Done (vs, used') ->
  length vs = todo /\
  forall (i : nat) t, vs !! i = Some t ->
    exists att,
      attrs (rd_att rel) !! (Z.to_nat (attrno - 1) + i)%nat = Some att /\
      entry_for (attrno + Z.of_nat i) (attname att) t.
Proof.
  induction todo as [|todo IH]; intros attrno used vs used' Hle H.
  - simpl in H. injection H as <- <-. split; [done|]. intros i t Hi. done.
  - unfold_values H.
    assert (Hstep : forall t0,
      entry_for attrno (attname att) t0 ->
      outcome_map (fun r : list TargetEntry * list bool => (t0 :: fst r, snd r))
        (attribute_values E rel ts cmd rr todo (attrno + 1) used1)
      = Done (vs, used') ->
      length vs = S todo /\
      forall (i : nat) t, vs !! i = Some t ->
        exists att',
          attrs (rd_att rel) !! (Z.to_nat (attrno - 1) + i)%nat = Some att' /\
          entry_for (attrno + Z.of_nat i) (attname att') t).
    { intros t0 Ht0 Hm.
      destruct (attribute_values E rel ts cmd rr todo (attrno + 1) used1)
        as [[vs1 u1]|e|] eqn:Hrest; simpl in Hm; try done.
      injection Hm as <- <-.
      destruct (IH (attrno + 1) used1 vs1 u1 ltac:(lia) Hrest) as [Hlen Hall'].
      split; [simpl; lia|]. intros [|i] t Hi; simpl in Hi.
      - injection Hi as <-. exists att. rewrite Nat.add_0_r, Z.add_0_r. done.
      - destruct (Hall' i t Hi) as (att' & Ha' & He'). exists att'. split.
        + replace (Z.to_nat (attrno - 1) + S i)%nat
            with (Z.to_nat (attrno + 1 - 1) + i)%nat by lia. done.
        + replace (attrno + Z.of_nat (S i)) with (attrno + 1 + Z.of_nat i)
            by lia. done. }
    destruct (merge_matches attrno None ms) as [[t0|]|] eqn:Hmerge; [| |done].
    + eapply Hstep; [|exact H].
      eapply merge_matches_for; [exact Hall| |exact Hmerge]. done.
    + destruct (missing_expr E rel cmd rr att attrno) as [e|e|]; try done.
      eapply Hstep; [|exact H]. done.
Qed.

Lemma attribute_values_Elog todo : forall attrno used e,
  attribute_values E rel ts cmd rr todo attrno used = Elog e ->
  (exists n, e = MultipleAssignmentConflict n) \/
  (exists att a, missing_expr E rel cmd rr att a = Elog e).
Proof.
  induction todo as [|todo IH]; intros attrno used e H; [done|].
  unfold_values H.
  destruct (merge_matches attrno None ms) as [[t0|]|] eqn:Hmerge.
  - destruct (attribute_values E rel ts cmd rr todo (attrno + 1) used1)
      as [[vs1 u1]|e'|] eqn:Hrest; simpl in H; try done.
    injection H as ->. by eapply IH.
  - destruct (missing_expr E rel cmd rr att attrno) as [e0|e0|] eqn:Hmiss;
      try done.
    + destruct (attribute_values E rel ts cmd rr todo (attrno + 1) used1)
        as [[vs1 u1]|e'|] eqn:Hrest; simpl in H; try done.
      injection H as ->. by eapply IH.
    + injection H as ->. right. eauto.
  - injection H as <-. left. eauto.
Qed.

Lemma attribute_values_defined todo : forall attrno used,
  1 <= attrno ->
  (Z.to_nat (attrno - 1) + todo <= length (attrs (rd_att rel)))%nat ->
  attribute_values E rel ts cmd rr todo attrno used <> Undefined.
Proof.
  induction todo as [|todo IH]; intros attrno used Hle Hlen H; [done|].
  cbn [attribute_values] in H.
  destruct (attrs (rd_att rel) !! Z.to_nat (attrno - 1)) as [att|] eqn:Hatt.
  2:{ apply lookup_ge_None in Hatt. lia. }
  destruct (scan (attname att) ts 0 used) as [ms used1].
  assert (Hrest : attribute_values E rel ts cmd rr todo (attrno + 1) used1
                  <> Undefined).
  { apply IH; [lia|]. replace (attrno + 1 - 1) with (attrno - 1 + 1) by lia.
    rewrite Z2Nat.inj_add by lia. simpl. lia. }
  destruct (merge_matches attrno None ms) as [[t0|]|]; [| |done].
  - destruct (attribute_values E rel ts cmd rr todo (attrno + 1) used1)
      as [[vs1 u1]|e'|]; simpl in H; done.
  - pose proof (missing_expr_defined att attrno Hle Hatt) as Hm.
    destruct (missing_expr E rel cmd rr att attrno) as [e0|e0|]; try done.
    destruct (attribute_values E rel ts cmd rr todo (attrno + 1) used1)
      as [[vs1 u1]|e'|]; simpl in H; done.
Qed.

(** With at most one candidate per name, no conflict is raised. *)
Lemma attribute_values_no_conflict todo : forall attrno used n,
  (forall m, (length (List.filter (assigns m) ts) <= 1)%nat) ->
  attribute_values E rel ts cmd rr todo attrno used
    <> Elog (MultipleAssignmentConflict n).
Proof.
  induction todo as [|todo IH]; intros attrno used n Huniq H; [done|].
  unfold_values H.
  destruct (merge_matches attrno None ms) as [[t0|]|] eqn:Hmerge.
  - destruct (attribute_values E rel ts cmd rr todo (attrno + 1) used1)
      as [[vs1 u1]|e'|] eqn:Hrest; simpl in H; try done.
    injection H as ->. by eapply IH.
  - destruct (missing_expr E rel cmd rr att attrno) as [e0|e0|] eqn:Hmiss;
      try done.
    + destruct (attribute_values E rel ts cmd rr todo (attrno + 1) used1)
        as [[vs1 u1]|e'|] eqn:Hrest; simpl in H; try done.
      injection H as ->. by eapply IH.
    + injection H as ->.
      apply missing_expr_Elog in Hmiss as [(_ & c & t1 & t2 & ?)|(_ & _ & ?)];
        done.
  - eapply merge_matches_short; [|exact Hmerge].
    apply sublist_length in Hsub. specialize (Huniq (attname att)). lia.
Qed.

(** An attribute without candidates takes the [missing_expr] branch. *)
Lemma attribute_values_unmatched todo : forall attrno used vs used' (i : nat) att,
  1 <= attrno -> (i < todo)%nat ->
  attrs (rd_att rel) !! (Z.to_nat (attrno - 1) + i)%nat = Some att ->
  List.filter (assigns (attname att)) ts = [] ->
  attribute_values E rel ts cmd rr todo attrno used = Done (vs, used') ->
  exists e, missing_expr E rel cmd rr att (attrno + Z.of_nat i) = Done e.
Proof.
  induction todo as [|todo IH]; intros attrno used vs used' i att Hle Hi Hatt
    Hnone H; [lia|].
  unfold_values H.
  destruct i as [|i].
  - rewrite Nat.add_0_r in Hatt. rewrite Hatt0 in Hatt. injection Hatt as ->.
    rewrite Hnone in Hsub. apply sublist_nil_r in Hsub. subst ms.
    simpl in H. rewrite Z.add_0_r.
    destruct (missing_expr E rel cmd rr att attrno) as [e0|e0|]; try done.
    eauto.
  - assert (Hrest : exists vs1 u1,
      attribute_values E rel ts cmd rr todo (attrno + 1) used1
      = Done (vs1, u1)).
    { destruct (merge_matches attrno None ms) as [[t0|]|]; try done.
      - destruct (attribute_values E rel ts cmd rr todo (attrno + 1) used1)
          as [[vs1 u1]|e'|]; simpl in H; try done. eauto.
      - destruct (missing_expr E rel cmd rr att0 attrno); try done.
        destruct (attribute_values E rel ts cmd rr todo (attrno + 1) used1)
          as [[vs1 u1]|e'|]; simpl in H; try done. eauto. }
    destruct Hrest as (vs1 & u1 & Hrest).
    replace (attrno + Z.of_nat (S i)) with (attrno + 1 + Z.of_nat i) by lia.
    eapply IH; [| | |exact Hnone|exact Hrest]; [lia|lia|].
    replace (Z.to_nat (attrno + 1 - 1) + i)%nat
      with (Z.to_nat (attrno - 1) + S i)%nat by lia. done.
Qed.

End ValuesFacts.

Section ValuesNth.
Variable E : Collaborators.
Variable rel : Relation.
Variable ts : list TargetEntry.
Variable cmd : Z.
Variable rr : Index.

Lemma used_inv_nil k n : used_inv rel ts k (replicate n false).
Proof.
  intros j Hj. destruct (replicate n false !! j) as [b|] eqn:Hb; [|done].
  apply lookup_replicate in Hb as [-> _]. done.
Qed.

Lemma scan_first n k used :
  used_inv rel ts k used -> first_named rel n k ->
  fst (scan n ts 0 used) = List.filter (assigns n) ts.
Proof.
  intros Hinv Hfirst. apply scan_filter. intros j t Hj Ha. simpl.
  destruct (default false (used !! j)) eqn:Hu; [|done].
  destruct (Hinv j Hu) as (t' & k' & att' & Ht' & Hk' & Hatt' & Hn).
  rewrite Hj in Ht'. injection Ht' as <-.
  apply assigns_spec in Ha as [_ Ha]. exfalso.
  eapply Hfirst; [exact Hk'|exact Hatt'|]. congruence.
Qed.

Lemma used_inv_step (k : nat) att used :
  attrs (rd_att rel) !! k = Some att ->
  used_inv rel ts k used ->
  used_inv rel ts (S k) (snd (scan (attname att) ts 0 used)).
Proof.
  intros Hatt Hinv j Hj.
  apply scan_marks in Hj as [Hu|(t & _ & Ht & Ha)].
  - destruct (Hinv j Hu) as (t' & k' & att' & Ht' & Hk' & Hatt' & Hn).
    exists t', k', att'. repeat split; auto.
  - rewrite Nat.sub_0_r in Ht. apply assigns_spec in Ha as [_ Ha].
    exists t, k, att. repeat split; auto.
Qed.

(** The entry of the attribute at offset [i], when its name occurs
    there for the first time: the merge of all its candidates, or the
    synthesized entry when it has none. *)
Lemma attribute_values_nth todo : forall attrno used (i : nat) att vs used',
  1 <= attrno -> (i < todo)%nat ->
  used_inv rel ts (Z.to_nat (attrno - 1)) used ->
  attrs (rd_att rel) !! (Z.to_nat (attrno - 1) + i)%nat = Some att ->
  first_named rel (attname att) (Z.to_nat (attrno - 1) + i) ->
  attribute_values E rel ts cmd rr todo attrno used = Done (vs, used') ->
  match merge_matches (attrno + Z.of_nat i) None
          (List.filter (assigns (attname att)) ts) with
  | Some (Some t) => vs !! i = Some t
  | Some None =>
      exists e,
        missing_expr E rel cmd rr att (attrno + Z.of_nat i) = Done e /\
        vs !! i = Some (mkTargetEntry
                          (makeResdom (attrno + Z.of_nat i) (atttypid att)
                             (atttypmod att) (attname att) false) e)
  | None => False
  end.
Proof.
  induction todo as [|todo IH];
    intros attrno used i att vs used' Hle Hi Hinv Hatt Hfirst H; [lia|].
  cbn [attribute_values] in H.
  destruct (attrs (rd_att rel) !! Z.to_nat (attrno - 1)) as [att0|] eqn:Hatt0;
    [|done].
  pose proof (used_inv_step _ _ _ Hatt0 Hinv) as Hinv'.
  destruct i as [|i].
  - rewrite Nat.add_0_r in Hatt, Hfirst. rewrite Hatt0 in Hatt.
    injection Hatt as ->. rewrite Z.add_0_r.
    pose proof (scan_first _ _ _ Hinv Hfirst) as Hscan.
    destruct (scan (attname att) ts 0 used) as [ms used1]. simpl in Hscan.
    subst ms.
    destruct (merge_matches attrno None _) as [[t0|]|]; [| |done].
    + destruct (attribute_values E rel ts cmd rr todo (attrno + 1) used1)
        as [[vs1 u1]|e'|]; simpl in H; try done. by injection H as <- <-.
    + destruct (missing_expr E rel cmd rr att attrno) as [e|e|]; try done.
      destruct (attribute_values E rel ts cmd rr todo (attrno + 1) used1)
        as [[vs1 u1]|e'|]; simpl in H; try done. injection H as <- <-. eauto.
  - destruct (scan (attname att0) ts 0 used) as [ms used1]. simpl in Hinv'.
    assert (Hrest : exists vs1 t0,
      attribute_values E rel ts cmd rr todo (attrno + 1) used1
        = Done (vs1, used') /\ vs = t0 :: vs1).
    { destruct (merge_matches attrno None ms) as [[t0|]|]; try done.
      - destruct (attribute_values E rel ts cmd rr todo (attrno + 1) used1)
          as [[vs1 u1]|e'|]; simpl in H; try done.
        injection H as <- <-. eauto.
      - destruct (missing_expr E rel cmd rr att0 attrno); try done.
        destruct (attribute_values E rel ts cmd rr todo (attrno + 1) used1)
          as [[vs1 u1]|e'|]; simpl in H; try done.
        injection H as <- <-. eauto. }
    destruct Hrest as (vs1 & t0 & Hrest & ->).
    assert (Hk : (Z.to_nat (attrno + 1 - 1) = S (Z.to_nat (attrno - 1)))%nat)
      by lia.
    replace (attrno + Z.of_nat (S i)) with (attrno + 1 + Z.of_nat i) by lia.
    change ((t0 :: vs1) !! S i) with (vs1 !! i).
    eapply IH; [| | | | |exact Hrest]; [lia|lia|..].
    + by rewrite Hk.
    + rewrite Hk. rewrite <- Hatt. f_equal. lia.
    + rewrite Hk. intros k' att' Hk'. apply Hfirst. lia.
Qed.

End ValuesNth.

(* ================================================================== *)
(** ** The copy of the unprocessed entries *)
(* ================================================================== *)

Lemma renumbered_same t : renumbered t (resno (resdom t)) = t.
Proof. destruct t as [r e]. unfold renumbered. simpl. by rewrite Resdom_with_resno_same. Qed.

Lemma forwarded_grows n0 s s' un : forall attrno ps,
  grows s s' -> forwarded n0 s attrno un ps -> forwarded n0 s' attrno un ps.
Proof.
  induction un as [|[p t] un IH]; intros attrno [|p' ps] Hg; simpl; try done.
  intros (H1 & H2 & H3 & H4). repeat split; auto.
  by eapply points_to_grows.
Qed.

Lemma forwarded_same_tles n0 s s' un : forall attrno ps,
  tles s' = tles s -> forwarded n0 s attrno un ps ->
  forwarded n0 s' attrno un ps.
Proof.
  induction un as [|[p t] un IH]; intros attrno [|p' ps] Hg; simpl; try done.
  intros (H1 & H2 & H3 & H4). repeat split; auto.
  unfold points_to in *. by rewrite Hg.
Qed.

Lemma forwarded_weaken n0 n1 s un : forall attrno ps,
  (n0 <= n1)%nat -> forwarded n1 s attrno un ps -> forwarded n0 s attrno un ps.
Proof.
  induction un as [|[p t] un IH]; intros attrno [|p' ps] Hg; simpl; try done.
  intros (H1 & H2 & H3 & H4). repeat split; eauto.
  intros Hne. specialize (H3 Hne). lia.
Qed.

Lemma grows_length s s' : grows s s' -> (length (tles s) <= length (tles s'))%nat.
Proof. intros (H & _). by apply prefix_length. Qed.

Lemma copy_unprocessed_run temp : forall ts idx used attrno acc s,
  Forall2 (points_to s) temp ts ->
  exists r s',
    copy_unprocessed temp idx used attrno acc s = (r, s') /\
    grows s s' /\
    match first_visible (unprocessed (zip temp ts) idx used) with
    | Some pt =>
        r = Elog (UnexpectedJunkAssignment (resname (resdom (snd pt))))
    | None =>
        exists ps, r = Done (acc ++ ps) /\
          forwarded (length (tles s)) s' attrno
                    (unprocessed (zip temp ts) idx used) ps
    end.
Proof.
  induction temp as [|p temp IH]; intros ts idx used attrno acc s Hts.
  - apply Forall2_nil_inv_l in Hts as ->. simpl.
    eexists _, _. split; [reflexivity|]. split; [reflexivity|].
    exists []. by rewrite app_nil_r.
  - apply Forall2_cons_inv_l in Hts as (t & ts' & Hp & Hts' & ->).
    cbn [copy_unprocessed zip zip_with unprocessed].
    destruct (negb (default false (used !! idx))) eqn:Hu.
    + rewrite run_bind, (deref_run _ _ _ Hp).
      unfold first_visible. cbn [List.find snd].
      destruct (negb (resjunk (resdom t))) eqn:Hj.
      * eexists _, _. split; [reflexivity|]. split; reflexivity.
      * rewrite run_bind.
        destruct (negb (resno (resdom t) =? attrno)) eqn:Hno.
        -- rewrite makeTargetEntry_run.
           destruct (makeTargetEntry_grows (Resdom_with_resno (resdom t) attrno)
                       (expr t) s) as [Hg1 Hp1].
           set (s1 := mkState _ _ _) in *.
           destruct (IH ts' (S idx) used (attrno + 1)
                       (acc ++ [length (tles s)]) s1)
             as (r & s' & Hrun & Hg & Hres).
           { by eapply points_to_all_grows. }
           eexists _, _. split; [exact Hrun|]. split; [by etrans|].
           fold (first_visible (unprocessed (zip temp ts') (S idx) used)).
           destruct (first_visible _); [done|].
           destruct Hres as (ps & -> & Hf). exists (length (tles s) :: ps).
           rewrite <- app_assoc. split; [done|]. simpl.
           split; [by eapply points_to_grows|].
           apply negb_true_iff, Z.eqb_neq in Hno.
           split; [done|]. split; [lia|].
           eapply forwarded_weaken; [|exact Hf]. by apply grows_length.
        -- rewrite run_ret.
           destruct (IH ts' (S idx) used (attrno + 1) (acc ++ [p]) s Hts')
             as (r & s' & Hrun & Hg & Hres).
           eexists _, _. split; [exact Hrun|]. split; [done|].
           fold (first_visible (unprocessed (zip temp ts') (S idx) used)).
           destruct (first_visible _); [done|].
           destruct Hres as (ps & -> & Hf). exists (p :: ps).
           rewrite <- app_assoc. split; [done|]. simpl.
           apply negb_false_iff, Z.eqb_eq in Hno.
           split; [|split; [done|split; [done|done]]].
           eapply points_to_grows; [exact Hg|].
           by rewrite <- Hno, renumbered_same.
    + destruct (IH ts' (S idx) used attrno acc s Hts')
        as (r & s' & Hrun & Hg & Hres).
      eexists _, _. split; [exact Hrun|]. split; [done|]. exact Hres.
Qed.

(* ================================================================== *)
(** ** expand_targetlist as a whole *)
(* ================================================================== *)

Section ExpandRun.
Variable E : Collaborators.

Lemma getrelid_run rt rr rte s :
  1 <= rr -> rt !! Z.to_nat (rr - 1) = Some rte ->
  getrelid rr rt s = (Done (relid rte), s).
Proof.
  intros Hle Hrte. unfold getrelid, rt_fetch. rewrite run_bind.
  destruct (rr <? 1) eqn:Hlt; [lia|]. by rewrite Hrte.
Qed.

Lemma remove_first_head x l : remove_first x (x :: l) = l.
Proof. simpl. by rewrite decide_True. Qed.

Lemma expand_targetlist_run tlist ts cmd rr rt rel s :
  resolves E rt rr rel ->
  Forall2 (points_to s) tlist ts ->
  exists r s',
    expand_targetlist E tlist cmd rr rt s = (r, s') /\
    tles s `prefix_of` tles s' /\ cells s' = cells s /\
    match attribute_values E rel ts cmd rr (length (attrs (rd_att rel))) 1
            (replicate (length tlist + 1) false) with
    | Done (vs, used) =>
        match first_visible (unprocessed (zip tlist ts) 0 used) with
        | Some pt =>
            r = Elog (UnexpectedJunkAssignment (resname (resdom (snd pt)))) /\
            locks s' = lock_of rel :: locks s
        | None =>
            exists ps qs,
              r = Done (ps ++ qs) /\
              Forall2 (points_to s') ps vs /\
              forwarded (length (tles s)) s'
                (Z.of_nat (length (attrs (rd_att rel))) + 1)
                (unprocessed (zip tlist ts) 0 used) qs /\
              locks s' = locks s
        end
    | Elog e => r = Elog e /\ locks s' = lock_of rel :: locks s
    | Undefined => r = Undefined
    end.
Proof.
  intros (Hle & rte & Hrte & Hrel) Hts. unfold expand_targetlist.
  rewrite run_bind, (getrelid_run _ _ _ _ Hle Hrte).
  rewrite run_bind. unfold heap_open at 1. rewrite Hrel.
  set (s1 := mkState (tles s) (cells s) ((rd_id rel, AccessShareLock) :: locks s)).
  assert (Hts1 : Forall2 (points_to s1) tlist ts) by exact Hts.
  rewrite run_bind. unfold RelationGetNumberOfAttributes. rewrite Nat2Z.id.
  destruct (attribute_loop_run E rel tlist cmd rr ts
              (length (attrs (rd_att rel))) 1
              (replicate (length tlist + 1) false) [] s1 Hts1)
    as (r1 & s2 & Hrun1 & Hg1 & Hres1).
  rewrite Hrun1. clear Hrun1.
  destruct Hg1 as (Hp1 & Hc1 & Hl1).
  destruct (attribute_values E rel ts cmd rr (length (attrs (rd_att rel))) 1
              (replicate (length tlist + 1) false)) as [[vs used]|e|].
  - destruct Hres1 as (ps & -> & Hps). simpl app.
    rewrite run_bind.
    destruct (copy_unprocessed_run tlist ts 0%nat used
                (1 + Z.of_nat (length (attrs (rd_att rel)))) ps s2)
      as (r2 & s3 & Hrun2 & Hg2 & Hres2).
    { eapply Forall2_impl; [exact Hts1|]. intros p t Hp.
      unfold points_to in *. by eapply prefix_lookup_Some. }
    rewrite Hrun2. clear Hrun2.
    pose proof (grows_length _ _ Hg2) as Hlen2.
    destruct Hg2 as (Hp2 & Hc2 & Hl2).
    destruct (first_visible (unprocessed (zip tlist ts) 0 used)) as [pt|].
    + subst r2. eexists _, _. split; [reflexivity|].
      split; [by etrans|]. split; [by rewrite Hc2, Hc1|]. split; [done|].
      by rewrite Hl2, Hl1.
    + destruct Hres2 as (qs & -> & Hf).
      rewrite run_bind. unfold heap_close at 1. rewrite run_ret.
      eexists _, _. split; [reflexivity|]. simpl.
      split; [by etrans|]. split; [by rewrite Hc2, Hc1|].
      exists ps, qs. split; [done|]. split; [|split].
      * eapply Forall2_impl; [exact Hps|]. intros p t Hp.
        unfold points_to in *. simpl. by eapply prefix_lookup_Some.
      * apply (forwarded_same_tles _ s3); [reflexivity|].
        apply (forwarded_weaken _ (length (tles s2)));
          [apply prefix_length in Hp1; exact Hp1|].
        replace (Z.of_nat (length (attrs (rd_att rel))) + 1)
          with (1 + Z.of_nat (length (attrs (rd_att rel)))) by lia.
        exact Hf.
      * rewrite Hl2, Hl1. simpl. by rewrite decide_True.
  - subst r1. eexists _, _. split; [reflexivity|]. split; [done|].
    split; [done|]. split; [done|]. by rewrite Hl1.
  - subst r1. eexists _, _. split; [reflexivity|]. split; [done|].
    split; [done|]. done.
Qed.

End ExpandRun.

(* ================================================================== *)
(** ** List cells: reading, copying, appending *)
(* ================================================================== *)

Lemma contents_from_NIL n (h : list (tle_ptr * List)) :
  contents_from n h NIL = Some [].
Proof. by destruct n. Qed.

Lemma contents_from_mono n : forall (h h' : list (tle_ptr * List)) l xs m,
  contents_from n h l = Some xs -> (n <= m)%nat -> h `prefix_of` h' ->
  contents_from m h' l = Some xs.
Proof.
  induction n as [|n IH]; intros h h' [a|] xs m H Hle Hpre;
    try (destruct m; simpl in *; done).
  destruct m as [|m]; [lia|]. simpl in *.
  destruct (h !! a) as [[x next]|] eqn:Ha; [|done].
  rewrite (prefix_lookup_Some _ _ _ _ Ha Hpre).
  destruct (contents_from n h next) as [ys|] eqn:Hn; [|done].
  by rewrite (IH h h' next ys m Hn ltac:(lia) Hpre).
Qed.

Lemma list_contents_in_prefix (h h' : list (tle_ptr * List)) l xs :
  list_contents_in h l = Some xs -> h `prefix_of` h' ->
  list_contents_in h' l = Some xs.
Proof.
  intros H Hpre. unfold list_contents_in in *.
  eapply contents_from_mono; [exact H| |exact Hpre]. by apply prefix_length.
Qed.

Lemma last_cell_from_mono n : forall (h h' : list (tle_ptr * List)) a b m,
  last_cell_from n h a = Some b -> (n <= m)%nat -> h `prefix_of` h' ->
  last_cell_from m h' a = Some b.
Proof.
  induction n as [|n IH]; intros h h' a b m H Hle Hpre; [done|].
  destruct m as [|m]; [lia|]. cbn [last_cell_from] in *.
  destruct (h !! a) as [[x [c|]]|] eqn:Ha; [| |done];
    rewrite (prefix_lookup_Some _ _ _ _ Ha Hpre); [|done].
  eapply IH; [exact H|lia|exact Hpre].
Qed.

(** Walking a list that ends finds its last cell, and hanging a new cell
    there appends one element. *)
Lemma contents_last n : forall (h : list (tle_ptr * List)) a xs,
  contents_from n h (Some a) = Some xs ->
  exists ak xk,
    last_cell_from n h a = Some ak /\ h !! ak = Some (xk, None) /\
    forall x m, (n < m)%nat ->
      contents_from m (<[ak := (xk, Some (length h))]> h ++ [(x, None)])
                    (Some a) = Some (xs ++ [x]).
Proof.
  induction n as [|n IH]; intros h a xs H; [done|]. simpl in H.
  destruct (h !! a) as [[x1 [b|]]|] eqn:Ha; [| |done].
  - destruct (contents_from n h (Some b)) as [xs'|] eqn:Hb; [|done].
    injection H as <-.
    destruct (IH h b xs' Hb) as (ak & xk & Hlast & Hak & Happ).
    exists ak, xk. simpl. rewrite Ha. split; [done|]. split; [done|].
    intros x m Hm. destruct m as [|m]; [lia|]. simpl.
    assert (Hne : ak <> a) by (intros ->; congruence).
    rewrite lookup_app_l by (rewrite length_insert; by eapply lookup_lt_Some).
    rewrite list_lookup_insert_ne by done. rewrite Ha.
    by rewrite (Happ x m ltac:(lia)).
  - destruct n; simpl in H; injection H as <-.
    + exists a, x1. simpl. rewrite Ha. split; [done|]. split; [done|].
      intros x m Hm. destruct m as [|[|m]]; [lia|lia|]. simpl.
      pose proof (lookup_lt_Some _ _ _ Ha) as Hlt.
      rewrite lookup_app_l by (by rewrite length_insert).
      rewrite list_lookup_insert_eq by done.
      rewrite lookup_app_r by (by rewrite length_insert).
      rewrite length_insert, Nat.sub_diag. simpl. by destruct m.
    + exists a, x1. simpl. rewrite Ha. split; [done|]. split; [done|].
      intros x m Hm. destruct m as [|[|m]]; [lia|lia|]. simpl.
      pose proof (lookup_lt_Some _ _ _ Ha) as Hlt.
      rewrite lookup_app_l by (by rewrite length_insert).
      rewrite list_lookup_insert_eq by done.
      rewrite lookup_app_r by (by rewrite length_insert).
      rewrite length_insert, Nat.sub_diag. simpl. by destruct m.
Qed.

(** [lappend] on a list that ends: the result holds one more element;
    entries and locks are untouched. *)
Lemma lappend_run l x s xs :
  list_contents_in (cells s) l = Some xs ->
  exists l' s',
    lappend l x s = (Done l', s') /\
    list_contents_in (cells s') l' = Some (xs ++ [x]) /\
    tles s' = tles s /\ locks s' = locks s /\
    match l with
    | None => l' = Some (length (cells s)) /\
              cells s' = cells s ++ [(x, None)]
    | Some a =>
        l' = l /\
        exists ak xk, last_cell_from (length (cells s)) (cells s) a = Some ak /\
          cells s' = <[ak := (xk, Some (length (cells s)))]> (cells s)
                     ++ [(x, None)]
    end.
Proof.
  intros H. unfold lappend. rewrite run_bind. unfold makeList1 at 1.
  destruct l as [a|].
  - unfold list_contents_in in H.
    destruct (contents_last _ _ _ _ H) as (ak & xk & Hlast & Hak & Happ).
    rewrite run_bind. unfold last_cell at 1. cbn [cells].
    rewrite (last_cell_from_mono _ _ (cells s ++ [(x, NIL)]) _ _
               (length (cells s ++ [(x, NIL)])) Hlast);
      [|rewrite length_app; lia|by apply prefix_app_r].
    rewrite run_bind. unfold set_lnext at 1. cbn [cells tles locks].
    pose proof (lookup_lt_Some _ _ _ Hak) as Hlt.
    rewrite lookup_app_l by done. rewrite Hak. rewrite run_ret.
    rewrite insert_app_l by done.
    eexists _, _. split; [reflexivity|]. cbn [cells tles locks].
    split; [|split; [done|split; [done|split; [done|eauto]]]].
    unfold list_contents_in. apply Happ.
    rewrite length_app, length_insert. simpl. lia.
  - rewrite run_ret. eexists _, _. split; [reflexivity|]. cbn [cells tles locks].
    unfold list_contents_in in H. rewrite contents_from_NIL in H.
    injection H as <-. split; [|done].
    unfold list_contents_in. rewrite length_app, Nat.add_1_r.
    cbn [contents_from]. rewrite lookup_app_r by done.
    rewrite Nat.sub_diag. simpl. by rewrite contents_from_NIL.
Qed.

Lemma lappend_all_run xs : forall l s ys,
  list_contents_in (cells s) l = Some ys ->
  exists l' s',
    lappend_all l xs s = (Done l', s') /\
    list_contents_in (cells s') l' = Some (ys ++ xs) /\
    tles s' = tles s /\ locks s' = locks s.
Proof.
  induction xs as [|x xs IH]; intros l s ys H; simpl.
  - rewrite run_ret. eexists _, _. split; [reflexivity|].
    by rewrite app_nil_r.
  - rewrite run_bind.
    destruct (lappend_run l x s ys H) as (l1 & s1 & Hrun & Hc & Ht & Hl & _).
    rewrite Hrun.
    destruct (IH l1 s1 _ Hc) as (l' & s' & Hrun' & Hc' & Ht' & Hl').
    eexists _, _. split; [exact Hrun'|]. rewrite <- app_assoc in Hc'.
    split; [exact Hc'|]. split; congruence.
Qed.

Lemma fresh_chain_length xs : forall base,
  length (fresh_chain base xs) = length xs.
Proof. induction xs as [|x xs IH]; intros base; simpl; [done|]. by rewrite IH. Qed.

Lemma fresh_chain_contents xs : forall (pre post : list (tle_ptr * List)) fuel,
  xs <> [] -> (length xs <= fuel)%nat ->
  contents_from fuel (pre ++ fresh_chain (length pre) xs ++ post)
                (Some (length pre)) = Some xs.
Proof.
  induction xs as [|x xs IH]; intros pre post fuel Hne Hlen; [done|].
  destruct fuel as [|fuel]; [simpl in Hlen; lia|].
  cbn [fresh_chain contents_from].
  rewrite lookup_app_r by done. rewrite Nat.sub_diag. cbn [app lookup list_lookup].
  destruct xs as [|y ys].
  - simpl. by rewrite contents_from_NIL.
  - specialize (IH (pre ++ [(x, Some (S (length pre)))]) post fuel).
    rewrite length_app, Nat.add_1_r in IH. rewrite <- app_assoc in IH.
    simpl in IH. simpl in Hlen. simpl. rewrite IH; [done|done|lia].
Qed.

Lemma fresh_chain_last xs : forall (pre post : list (tle_ptr * List)) fuel,
  xs <> [] -> (length xs <= fuel)%nat ->
  last_cell_from fuel (pre ++ fresh_chain (length pre) xs ++ post)
                 (length pre) = Some (length pre + length xs - 1)%nat.
Proof.
  induction xs as [|x xs IH]; intros pre post fuel Hne Hlen; [done|].
  destruct fuel as [|fuel]; [simpl in Hlen; lia|].
  cbn [fresh_chain last_cell_from].
  rewrite lookup_app_r by done. rewrite Nat.sub_diag. cbn [app lookup list_lookup].
  destruct xs as [|y ys].
  - simpl. f_equal. lia.
  - specialize (IH (pre ++ [(x, Some (S (length pre)))]) post fuel).
    rewrite length_app, Nat.add_1_r in IH. rewrite <- app_assoc in IH.
    simpl in IH. simpl in Hlen. simpl. rewrite IH; [|done|lia].
    f_equal. lia.
Qed.

Lemma list_contents_run l s xs :
  list_contents_in (cells s) l = Some xs -> list_contents l s = (Done xs, s).
Proof. unfold list_contents. by intros ->. Qed.

Lemma listCopy_run l s xs :
  list_contents_in (cells s) l = Some xs ->
  exists l' s',
    listCopy l s = (Done l', s') /\
    list_contents_in (cells s') l' = Some xs /\
    tles s' = tles s /\ locks s' = locks s /\
    cells s' = cells s ++ fresh_chain (length (cells s)) xs /\
    l' = match xs with [] => NIL | _ => Some (length (cells s)) end.
Proof.
  intros H. unfold listCopy. rewrite run_bind, (list_contents_run _ _ _ H).
  unfold fresh_copy. destruct xs as [|x xs].
  - eexists _, _. split; [reflexivity|]. simpl. rewrite app_nil_r.
    repeat split; try done. unfold list_contents_in. apply contents_from_NIL.
  - eexists _, _. split; [reflexivity|]. cbn [cells tles locks].
    repeat split; try done. unfold list_contents_in.
    pose proof (fresh_chain_contents (x :: xs) (cells s) []
                  (length (cells s ++ fresh_chain (length (cells s)) (x :: xs))))
      as Hc.
    rewrite app_nil_r in Hc. apply Hc; [done|].
    rewrite length_app, fresh_chain_length. lia.
Qed.

Lemma add_ctid_run cmd rr tl s base :
  list_contents_in (cells s) tl = Some base ->
  exists out s',
    add_ctid cmd rr tl s = (Done out, s') /\
    list_contents_in (cells s') out = Some (base ++ [length (tles s)]) /\
    tles s' = tles s ++ [ctid_entry rr (length base)] /\
    locks s' = locks s /\
    (cmd = CMD_DELETE ->
       cells s `prefix_of` cells s' /\
       list_contents_in (cells s') tl = Some base).
Proof.
  intros H. unfold add_ctid, length_List.
  rewrite !run_bind, (list_contents_run _ _ _ H), run_ret.
  destruct (cmd =? CMD_DELETE) eqn:Hd.
  - destruct (listCopy_run tl s base H)
      as (l1 & s1 & Hrun & Hc1 & Ht1 & Hl1 & Hcells1 & Hl1').
    rewrite run_bind, Hrun. rewrite run_bind, makeTargetEntry_run.
    destruct (lappend_run l1 (length (tles s1))
                (mkState (tles s1 ++ [ctid_entry rr (length base)])
                         (cells s1) (locks s1)) base Hc1)
      as (out & s3 & Hrun3 & Hc3 & Ht3 & Hl3 & Hshape).
    cbn [cells tles locks] in *.
    eexists _, _. split; [exact Hrun3|]. rewrite Ht1 in *.
    split; [exact Hc3|]. split; [exact Ht3|]. split; [congruence|].
    intros _.
    assert (Hpre : cells s `prefix_of` cells s3).
    { destruct base as [|x xs]; subst l1.
      - destruct Hshape as [_ ->]. rewrite Hcells1. simpl.
        rewrite app_nil_r. by apply prefix_app_r.
      - destruct Hshape as (_ & ak & xk & Hlast & ->).
        pose proof (fresh_chain_last (x :: xs) (cells s) []
                      (length (cells s1))) as Hfl.
        rewrite app_nil_r, <- Hcells1 in Hfl.
        rewrite Hfl in Hlast; [|done|].
        2:{ rewrite Hcells1, length_app, fresh_chain_length. lia. }
        injection Hlast as <-. rewrite Hcells1 at 2.
        rewrite insert_app_r_alt by lia. rewrite <- app_assoc.
        by apply prefix_app_r. }
    split; [exact Hpre|]. by eapply list_contents_in_prefix.
  - rewrite run_bind, run_ret, run_bind, makeTargetEntry_run.
    destruct (lappend_run tl (length (tles s))
                (mkState (tles s ++ [ctid_entry rr (length base)])
                         (cells s) (locks s)) base H)
      as (out & s3 & Hrun3 & Hc3 & Ht3 & Hl3 & _).
    cbn [cells tles locks] in *.
    eexists _, _. split; [exact Hrun3|].
    split; [exact Hc3|]. split; [exact Ht3|]. split; [exact Hl3|].
    intros ->. done.
Qed.

(* ================================================================== *)
(** ** The merge of array-element assignments, in the words of the
       specification *)
(* ================================================================== *)

(** The peeling loop of the source and the innermost base of the
    specification are the same function. *)
Lemma innermost_base_strip n : innermost_base n = strip_ArrayRefs n.
Proof. reflexivity. Qed.

Lemma merge_ok_spec src prior :
  merge_ok src prior = true <-> mergeable src prior.
Proof.
  unfold merge_ok, mergeable, array_assignment. split.
  - intros [Hc Heq]%andb_true_iff. apply negb_true_iff in Hc.
    repeat (apply orb_false_iff in Hc as [Hc ?]).
    destruct src as [[| |s1 s2 s3 s4 s5 s6 s7 [sv|]|]|]; try done.
    destruct prior as [[| |p1 p2 p3 p4 p5 p6 p7 [pv|]|]|]; try done.
    simpl in *. apply equal_spec in Heq.
    split; [by eauto 10|]. split; [by eauto 10|]. split; [lia|].
    rewrite <- Heq. unfold priorbottom_of. simpl.
    destruct p7; [apply innermost_base_strip|done].
  - intros ((s1 & s2 & s3 & s4 & s5 & s6 & s7 & sv & ->) &
            (p1 & p2 & p3 & p4 & p5 & p6 & p7 & pv & ->) & Ht & Hb).
    simpl in Ht, Hb |- *. rewrite Ht, Z.eqb_refl. simpl. apply equal_spec.
    rewrite <- Hb. unfold priorbottom_of. simpl.
    destruct p7; [symmetry; apply innermost_base_strip|done].
Qed.

(** C3.  When a second source entry matches an attribute that already has
    a merged result, [process_matched_tle] raises
    MultipleAssignmentConflict unless both expressions are
    array-element-assignment nodes with an assigned value and the same
    element type, and the innermost base of the prior result is
    structurally equal to the base of the new entry; when the condition
    holds the merge returns an entry. *)
Theorem C3_conflict_unless_mergeable src_ptr prior_ptr attrno s src prior :
  points_to s src_ptr src ->
  points_to s prior_ptr prior ->
  (~ mergeable (expr src) (expr prior) ->
     process_matched_tle src_ptr (Some prior_ptr) attrno s =
       (Elog (MultipleAssignmentConflict (resname (resdom src))), s)) /\
  (mergeable (expr src) (expr prior) ->
     exists p s',
       process_matched_tle src_ptr (Some prior_ptr) attrno s = (Done p, s')).
Proof.
  intros Hsrc Hprior. unfold process_matched_tle.
  rewrite run_bind, (deref_run _ _ _ Hsrc).
  rewrite run_bind, (deref_run _ _ _ Hprior).
  rewrite <- (merge_ok_spec (expr src) (expr prior)). unfold merge_ok.
  destruct (is_NULL (expr src) || _ || _ || _ || _ || _ || _) eqn:Hc; simpl.
  - split; [done|]. intros [=].
  - destruct (equal _ _) eqn:Heq; simpl.
    + split; [done|]. intros _. rewrite makeTargetEntry_run. eauto.
    + split; [done|]. intros [=].
Qed.

Section DefaultFacts.
Variable E : Collaborators.

(** C4.  The constant [build_column_default] makes for a column with no
    per-column default, that is not a set and whose type has no default:
    a NULL constant of the column's type, whose length and by-value flag
    are the indeterminate contents of [typlen] and [typbyval]
    ([get_typlenbyval] is called only after the constant is built), passed
    through [coerce_type_typmod]. *)
Theorem C4_null_constant_uninitialised rel attrno att :
  1 <= attrno ->
  attrs (rd_att rel) !! Z.to_nat (attrno - 1) = Some att ->
  match constr (rd_att rel) with
  | Some c => scan_defval (defval c) (Z.to_nat (num_defval c)) attrno = None
  | None => True
  end ->
  attisset att = false ->
  DROP_COLUMN_HACK E && COLUMN_IS_DROPPED att = false ->
  get_typdefault E (atttypid att) (atttypmod att) = None ->
  build_column_default E rel attrno =
    Done (coerce_type_typmod E
            (Some (T_Const (atttypid att)
                     (fst (uninit_typlen_typbyval E attrno)) 0 true
                     (snd (uninit_typlen_typbyval E attrno)) false false))
            (atttypid att) (atttypmod att)).
Proof.
  intros Hle Hatt Hdef Hset Hdrop Htd. unfold build_column_default.
  destruct (attrno <? 1) eqn:Hlt; [lia|]. rewrite Hatt.
  assert (Hfound :
    match constr (rd_att rel) with
    | Some c => if 0 <? num_defval c
                then scan_defval (defval c) (Z.to_nat (num_defval c)) attrno
                else None
    | None => None
    end = None).
  { destruct (constr (rd_att rel)) as [c|]; [|done]. rewrite Hdef.
    by destruct (0 <? num_defval c). }
  rewrite Hfound, Hset, Hdrop, Htd. reflexivity.
Qed.

End DefaultFacts.

(* ================================================================== *)
(** ** Properties of the expansion *)
(* ================================================================== *)

Lemma entries_of_points_to s ps es :
  Forall2 (points_to s) ps es -> entries_of s ps = es.
Proof.
  induction 1 as [|p t ps es Hp _ IH]; [done|].
  simpl. unfold points_to in Hp. by rewrite Hp, IH.
Qed.

Lemma map_eq_by_lookup {A B C} (f : A -> C) (g : B -> C) (l : list A)
    (k : list B) :
  length l = length k ->
  (forall (i : nat) a b, l !! i = Some a -> k !! i = Some b -> f a = g b) ->
  map f l = map g k.
Proof.
  revert k. induction l as [|a l IH]; intros [|b k] Hlen H; try done.
  simpl. f_equal.
  - by apply (H 0%nat).
  - apply IH; [by injection Hlen|]. intros i a' b'. apply (H (S i)).
Qed.

Lemma first_visible_None un :
  first_visible un = None ->
  Forall (fun pt : tle_ptr * TargetEntry => resjunk (resdom (snd pt)) = true) un.
Proof.
  unfold first_visible. induction un as [|pt un IH]; [constructor|]. simpl.
  destruct (negb (resjunk (resdom (snd pt)))) eqn:Hj; [done|].
  intros H. constructor; [by apply negb_false_iff|by apply IH].
Qed.

Lemma forwarded_lookup n0 s' un : forall attrno qs,
  forwarded n0 s' attrno un qs ->
  length qs = length un /\
  forall (k : nat) p t, un !! k = Some (p, t) ->
    exists q, qs !! k = Some q /\
      points_to s' q (renumbered t (attrno + Z.of_nat k)) /\
      (resno (resdom t) = attrno + Z.of_nat k -> q = p) /\
      (resno (resdom t) <> attrno + Z.of_nat k -> (n0 <= q)%nat).
Proof.
  induction un as [|[p t] un IH]; intros attrno [|q qs]; simpl; try done.
  intros (H1 & H2 & H3 & H4). destruct (IH _ _ H4) as [Hlen Hall].
  split; [by rewrite Hlen|]. intros [|k] p' t' Hk; simpl in Hk.
  - injection Hk as <- <-. exists q. rewrite Z.add_0_r. by repeat split.
  - destruct (Hall k p' t' Hk) as (q' & Hq' & Hp' & Hs' & Hf').
    exists q'. replace (attrno + Z.of_nat (S k)) with (attrno + 1 + Z.of_nat k)
      by lia. by repeat split.
Qed.

Lemma forwarded_values n0 s' un : forall attrno qs,
  forwarded n0 s' attrno un qs ->
  Forall (fun pt : tle_ptr * TargetEntry => resjunk (resdom (snd pt)) = true) un ->
  exists es, Forall2 (points_to s') qs es /\
             Forall (fun t => resjunk (resdom t) = true) es.
Proof.
  induction un as [|[p t] un IH]; intros attrno [|q qs]; simpl; try done.
  - intros _ _. exists []. split; constructor.
  - intros (H1 & _ & _ & H4) [Hj Hun]%Forall_cons.
    destruct (IH _ _ H4 Hun) as (es & Hes & Hjs).
    exists (renumbered t attrno :: es). split; constructor; auto.
Qed.

Section ExpandOutcomes.
Variable E : Collaborators.

(** What a normal return of [expand_targetlist] consists of. *)
Lemma expand_targetlist_Done tlist ts cmd rr rt rel s out s' :
  resolves E rt rr rel ->
  Forall2 (points_to s) tlist ts ->
  expand_targetlist E tlist cmd rr rt s = (Done out, s') ->
  exists vs used ps qs,
    attribute_values E rel ts cmd rr (length (attrs (rd_att rel))) 1
      (replicate (length tlist + 1) false) = Done (vs, used) /\
    first_visible (unprocessed (zip tlist ts) 0 used) = None /\
    out = ps ++ qs /\
    Forall2 (points_to s') ps vs /\
    forwarded (length (tles s)) s'
      (Z.of_nat (length (attrs (rd_att rel))) + 1)
      (unprocessed (zip tlist ts) 0 used) qs /\
    locks s' = locks s.
Proof.
  intros Hres Hts Hrun.
  destruct (expand_targetlist_run E tlist ts cmd rr rt rel s Hres Hts)
    as (r & s1 & Hrun' & _ & _ & H).
  rewrite Hrun in Hrun'. injection Hrun' as <- <-.
  destruct (attribute_values E rel ts cmd rr _ 1 _) as [[vs used]|e|];
    [|by destruct H|done].
  destruct (first_visible _) eqn:Hfv; [by destruct H|].
  destruct H as (ps & qs & [= ->] & Hps & Hf & Hl).
  exists vs, used, ps, qs. by repeat split.
Qed.

(** Every failure of [expand_targetlist] comes from an [elog]: with a
    resolvable relation and valid entry pointers nothing is undefined. *)
Lemma expand_targetlist_defined tlist ts cmd rr rt rel s :
  resolves E rt rr rel ->
  Forall2 (points_to s) tlist ts ->
  fst (expand_targetlist E tlist cmd rr rt s) <> Undefined.
Proof.
  intros Hres Hts Hun.
  destruct (expand_targetlist_run E tlist ts cmd rr rt rel s Hres Hts)
    as (r & s1 & Hrun' & _ & _ & H).
  rewrite Hrun' in Hun. simpl in Hun. subst r.
  pose proof (attribute_values_defined E rel ts cmd rr
                (length (attrs (rd_att rel))) 1
                (replicate (length tlist + 1) false) ltac:(lia)) as Hd.
  simpl in Hd. specialize (Hd ltac:(lia)).
  destruct (attribute_values E rel ts cmd rr _ 1 _) as [[vs used]|e|];
    [|by destruct H|done].
  destruct (first_visible _); [by destruct H|].
  by destruct H as (ps & qs & [=] & _).
Qed.

(** C1 (amended).  The visible entries of the expanded list, in list
    order, are its first N entries, where N is the number of attributes
    of the relation, dropped or not; their positions are 1..N in
    ascending order and each carries the name of the attribute at its
    position. *)
Theorem C1_visible_entries tlist ts cmd rr rt rel s out s' :
  resolves E rt rr rel ->
  Forall2 (points_to s) tlist ts ->
  expand_targetlist E tlist cmd rr rt s = (Done out, s') ->
  let es := entries_of s' out in
  let vis := List.filter visible es in
  let numattrs := length (attrs (rd_att rel)) in
  length es = length out /\
  vis = take numattrs es /\
  map (fun t => resno (resdom t)) vis = seqZ 1 (Z.of_nat numattrs) /\
  map (fun t => resname (resdom t)) vis = map attname (attrs (rd_att rel)).
Proof.
  intros Hres Hts Hrun.
  destruct (expand_targetlist_Done _ _ _ _ _ _ _ _ _ Hres Hts Hrun)
    as (vs & used & ps & qs & Hvals & Hfv & -> & Hps & Hf & _).
  destruct (forwarded_values _ _ _ _ _ Hf (first_visible_None _ Hfv))
    as (eq & Hqs & Hjunk).
  assert (Hes : entries_of s' (ps ++ qs) = vs ++ eq).
  { apply entries_of_points_to. by apply Forall2_app. }
  destruct (attribute_values_shape E rel ts cmd rr _ 1 _ _ _ ltac:(lia) Hvals)
    as [Hlen Hshape].
  assert (Hvis : List.filter visible (vs ++ eq) = vs).
  { rewrite List.filter_app.
    assert (List.filter visible vs = vs) as ->.
    { apply List.forallb_filter_id, forallb_forall. intros t Ht.
      apply list_elem_of_In, list_elem_of_lookup in Ht as [i Hi].
      destruct (Hshape i t Hi) as (att & _ & _ & Hj & _).
      unfold visible. by rewrite Hj. }
    assert (List.filter visible eq = []) as ->; [|by rewrite app_nil_r].
    clear -Hjunk. induction Hjunk as [|t eq Ht _ IH]; [done|].
    simpl. unfold visible at 1. by rewrite Ht. }
  cbv zeta. rewrite Hes, Hvis.
  split; [|split; [|split]].
  - rewrite !length_app. apply Forall2_length in Hps, Hqs. lia.
  - rewrite <- Hlen. by rewrite take_app_length.
  - rewrite <- (map_id (seqZ 1 _)).
    apply map_eq_by_lookup; [rewrite length_seqZ; lia|].
    intros i t z Hi Hz. apply lookup_seqZ in Hz as [-> _].
    destruct (Hshape i t Hi) as (att & _ & Hno & _). exact Hno.
  - apply map_eq_by_lookup; [done|].
    intros i t att Hi Hatt.
    destruct (Hshape i t Hi) as (att' & Hatt' & _ & _ & Hn).
    simpl in Hatt'. rewrite Hatt in Hatt'. by injection Hatt' as <-.
Qed.

(** C8 (amended).  The lock taken by [heap_open] is given back by
    [heap_close] on the normal return of the expansion only; every
    [elog(ERROR)] raised after the relation is opened leaves the function
    with the lock still held. *)
Theorem C8_lock_release tlist ts cmd rr rt rel s r s' :
  resolves E rt rr rel ->
  Forall2 (points_to s) tlist ts ->
  expand_targetlist E tlist cmd rr rt s = (r, s') ->
  (forall out, r = Done out -> locks s' = locks s) /\
  (forall e, r = Elog e -> locks s' = lock_of rel :: locks s).
Proof.
  intros Hres Hts Hrun.
  destruct (expand_targetlist_run E tlist ts cmd rr rt rel s Hres Hts)
    as (r1 & s1 & Hrun' & _ & _ & H).
  rewrite Hrun in Hrun'. injection Hrun' as <- <-.
  destruct (attribute_values E rel ts cmd rr _ 1 _) as [[vs used]|e|].
  - destruct (first_visible _).
    + destruct H as [-> Hl]. split; [done|]. by intros e _.
    + destruct H as (ps & qs & -> & _ & _ & Hl). split; [by intros|done].
  - destruct H as [-> Hl]. split; [done|]. by intros e' _.
  - subst r. split; done.
Qed.

(** C9 (amended).  For a command kind other than INSERT and UPDATE the
    expansion fails when some attribute is assigned by no visible source
    entry: with UnsupportedCommandKind, unless the conflicting assignments
    of another attribute raise MultipleAssignmentConflict before; when no
    name is assigned twice the failure is UnsupportedCommandKind. *)
Theorem C9_unsupported_command tlist ts cmd rr rt rel s att :
  resolves E rt rr rel ->
  Forall2 (points_to s) tlist ts ->
  cmd <> CMD_INSERT -> cmd <> CMD_UPDATE ->
  att ∈ attrs (rd_att rel) ->
  List.filter (assigns (attname att)) ts = [] ->
  let r := fst (expand_targetlist E tlist cmd rr rt s) in
  (r = Elog UnsupportedCommandKind \/
   exists n, r = Elog (MultipleAssignmentConflict n)) /\
  ((forall n, (length (List.filter (assigns n) ts) <= 1)%nat) ->
   r = Elog UnsupportedCommandKind).
Proof.
  intros Hres Hts Hi Hu Hatt Hnone.
  destruct (expand_targetlist_run E tlist ts cmd rr rt rel s Hres Hts)
    as (r1 & s1 & Hrun' & _ & _ & H).
  rewrite Hrun'. cbn [fst].
  apply list_elem_of_lookup in Hatt as [i Hatt].
  pose proof (lookup_lt_Some _ _ _ Hatt) as Hilt.
  pose proof (attribute_values_defined E rel ts cmd rr
                (length (attrs (rd_att rel))) 1
                (replicate (length tlist + 1) false) ltac:(lia)) as Hd.
  simpl in Hd. specialize (Hd ltac:(lia)).
  destruct (attribute_values E rel ts cmd rr _ 1 _) as [[vs used]|e|] eqn:Hv;
    [|clear Hd|done].
  - exfalso.
    destruct (attribute_values_unmatched E rel ts cmd rr _ 1 _ vs used i att
                ltac:(lia) Hilt Hatt Hnone Hv) as [e He].
    by rewrite missing_expr_unsupported in He.
  - destruct H as [-> _].
    assert (He : e = UnsupportedCommandKind \/
                 exists n, e = MultipleAssignmentConflict n).
    { destruct (attribute_values_Elog E rel ts cmd rr _ _ _ _ Hv)
        as [Hm|(a & k & Hm)]; [by right|].
      apply missing_expr_Elog in Hm as [[? _]|(_ & _ & ->)]; [done|by left]. }
    split.
    + destruct He as [->|[n ->]]; eauto.
    + intros Huniq. destruct He as [->|[n ->]]; [done|].
      by apply attribute_values_no_conflict in Hv.
Qed.

End ExpandOutcomes.

Lemma merge_matches_app attrno ms1 ms2 : forall prior,
  merge_matches attrno prior (ms1 ++ ms2) =
    match merge_matches attrno prior ms1 with
    | Some p => merge_matches attrno p ms2
    | None => None
    end.
Proof.
  induction ms1 as [|m ms1 IH]; intros prior; [done|].
  cbn [app merge_matches]. destruct (merged_entry attrno prior m); [apply IH|done].
Qed.

Lemma merge_matches_nest attrno ms : forall prior t,
  merge_matches attrno (Some prior) ms = Some (Some t) ->
  expr t = nest_assignments (expr prior) (map expr ms).
Proof.
  induction ms as [|m ms IH]; intros prior t; cbn [merge_matches].
  - by intros [= ->].
  - unfold merged_entry. destruct (merge_ok (expr m) (expr prior)); [|done].
    intros H. by rewrite (IH _ _ H).
Qed.

Lemma merge_matches_merged attrno ms t :
  merge_matches attrno None ms = Some (Some t) ->
  expr t = merged_expr (map expr ms).
Proof.
  destruct ms as [|m ms]; [done|]. cbn [merge_matches].
  destruct (merged_entry attrno None m) as [t0|] eqn:Ht0; [|done].
  intros H. rewrite (merge_matches_nest _ _ _ _ H). simpl. f_equal.
  unfold merged_entry in Ht0.
  by destruct (resno (resdom m) =? attrno); injection Ht0 as <-.
Qed.

Lemma conflicting_merge_matches attrno ms :
  conflicting ms -> merge_matches attrno None ms = None.
Proof.
  intros (pre & m & post & -> & Hne & Hnot).
  rewrite merge_matches_app.
  destruct (merge_matches attrno None pre) as [[t0|]|] eqn:Hpre; [| |done].
  - cbn [merge_matches]. unfold merged_entry.
    rewrite (merge_matches_merged _ _ _ Hpre).
    destruct (merge_ok _ _) eqn:Hok; [|done].
    by apply merge_ok_spec in Hok.
  - by apply merge_matches_none in Hpre.
Qed.

Section ExpandEntries.
Variable E : Collaborators.

(** Every entry of the expanded list is numbered by its place in the
    list. *)
Lemma expand_targetlist_positions tlist ts cmd rr rt rel s out s' :
  resolves E rt rr rel ->
  Forall2 (points_to s) tlist ts ->
  expand_targetlist E tlist cmd rr rt s = (Done out, s') ->
  forall (j : nat) q u,
    out !! j = Some q -> points_to s' q u ->
    resno (resdom u) = Z.of_nat j + 1.
Proof.
  intros Hres Hts Hrun j q u Hj Hq.
  destruct (expand_targetlist_Done _ _ _ _ _ _ _ _ _ _ Hres Hts Hrun)
    as (vs & used & ps & qs & Hvals & Hfv & -> & Hps & Hf & _).
  destruct (attribute_values_shape E rel ts cmd rr _ 1 _ _ _ ltac:(lia) Hvals)
    as [Hlen Hshape].
  pose proof (Forall2_length _ _ _ Hps) as Hlps.
  destruct (decide (j < length ps)%nat) as [Hlt|Hge].
  - rewrite lookup_app_l in Hj by done.
    destruct (Forall2_lookup_l _ _ _ _ _ Hps Hj) as (t & Ht & Hqt).
    unfold points_to in *. rewrite Hq in Hqt. injection Hqt as ->.
    destruct (Hshape j t Ht) as (att & _ & Hno & _). lia.
  - rewrite lookup_app_r in Hj by lia.
    destruct (forwarded_lookup _ _ _ _ _ Hf) as [Hlq Hall].
    pose proof (lookup_lt_Some _ _ _ Hj) as Hk. rewrite Hlq in Hk.
    apply lookup_lt_is_Some_2 in Hk as [[p t] Hun].
    destruct (Hall _ _ _ Hun) as (q' & Hq' & Hp' & _).
    rewrite Hj in Hq'. injection Hq' as <-.
    unfold points_to in *. rewrite Hq in Hp'. injection Hp' as ->.
    simpl. lia.
Qed.


(** C7.  Once the attribute loop is through, an unused source entry that
    is not hidden makes the expansion fail with UnexpectedJunkAssignment;
    otherwise the unused entries are appended after the attributes'
    entries in their original order.  The [k]-th of them gets the
    position number (number of attributes) + 1 + [k], so the numbers
    increase strictly from the number after the last attribute; every
    other field of its descriptor and its expression are the source
    entry's; and it is the source entry itself when its number was that
    already, a new entry otherwise.  The numbers given are within the
    range of the position field. *)
Theorem C7_unprocessed_entries tlist ts cmd rr rt rel s new_tlist used
    attrno s2 :
  resolves E rt rr rel ->
  Forall2 (points_to s) tlist ts ->
  attribute_loop E rel tlist cmd rr (length (attrs (rd_att rel))) 1
    (replicate (length tlist + 1) false) []
    (mkState (tles s) (cells s) (lock_of rel :: locks s))
    = (Done (new_tlist, used, attrno), s2) ->
  fits_AttrNumber
    (Z.of_nat (length (attrs (rd_att rel)))
     + Z.of_nat (length (unprocessed (zip tlist ts) 0 used))) ->
  let un := unprocessed (zip tlist ts) 0 used in
  attrno = Z.of_nat (length (attrs (rd_att rel))) + 1 /\
  exists r s',
    expand_targetlist E tlist cmd rr rt s = (r, s') /\
    match first_visible un with
    | Some pt =>
        r = Elog (UnexpectedJunkAssignment (resname (resdom (snd pt))))
    | None =>
        exists qs,
          r = Done (new_tlist ++ qs) /\ length qs = length un /\
          forall (k : nat) p t, un !! k = Some (p, t) ->
            resjunk (resdom t) = true /\
            exists q u,
              qs !! k = Some q /\ points_to s' q u /\
              resno (resdom u)
                = Z.of_nat (length (attrs (rd_att rel))) + 1 + Z.of_nat k /\
              restype (resdom u) = restype (resdom t) /\
              restypmod (resdom u) = restypmod (resdom t) /\
              resname (resdom u) = resname (resdom t) /\
              ressortgroupref (resdom u) = ressortgroupref (resdom t) /\
              reskey (resdom u) = reskey (resdom t) /\
              reskeyop (resdom u) = reskeyop (resdom t) /\
              resjunk (resdom u) = resjunk (resdom t) /\
              expr u = expr t /\
              (resno (resdom t) = attrno + Z.of_nat k -> q = p) /\
              (resno (resdom t) <> attrno + Z.of_nat k ->
                 (length (tles s) <= q)%nat)
    end.
Proof.
  intros (Hle & rte & Hrte & Hrel) Hts Hloop _ un.
  set (s1 := mkState (tles s) (cells s) (lock_of rel :: locks s)) in *.
  assert (Hts1 : Forall2 (points_to s1) tlist ts) by exact Hts.
  destruct (attribute_loop_run E rel tlist cmd rr ts
              (length (attrs (rd_att rel))) 1
              (replicate (length tlist + 1) false) [] s1 Hts1)
    as (r1 & s2' & Hrun1 & Hg1 & Hres1).
  rewrite Hloop in Hrun1. injection Hrun1 as <- <-.
  assert (Hattrno : attrno = Z.of_nat (length (attrs (rd_att rel))) + 1).
  { destruct (attribute_values E rel ts cmd rr _ 1 _) as [[vs u]|e|];
      [|done|done].
    destruct Hres1 as (ps & [= _ _ ->] & _). lia. }
  split; [exact Hattrno|].
  destruct (copy_unprocessed_run tlist ts 0%nat used attrno new_tlist s2)
    as (r2 & s3 & Hrun2 & Hg2 & Hres2).
  { by eapply points_to_all_grows. }
  fold un in Hres2.
  unfold expand_targetlist.
  rewrite run_bind, (getrelid_run _ _ _ _ Hle Hrte).
  rewrite run_bind. unfold heap_open at 1. rewrite Hrel.
  rewrite run_bind. unfold RelationGetNumberOfAttributes. rewrite Nat2Z.id.
  fold (lock_of rel). fold s1. rewrite Hloop.
  rewrite run_bind, Hrun2.
  destruct (first_visible un) as [pt|] eqn:Hfv.
  - subst r2. eauto.
  - destruct Hres2 as (qs & -> & Hf).
    rewrite run_bind. unfold heap_close at 1. rewrite run_ret.
    eexists _, _. split; [reflexivity|]. exists qs. split; [done|].
    pose proof (first_visible_None _ Hfv) as Hjunk.
    assert (Hf' : forwarded (length (tles s)) s3 attrno un qs).
    { eapply forwarded_weaken; [|exact Hf].
      apply grows_length in Hg1. exact Hg1. }
    destruct (forwarded_lookup _ _ _ _ _ Hf') as [Hlen Hall].
    split; [exact Hlen|]. intros k p t Hk. split.
    + rewrite Forall_lookup in Hjunk. exact (Hjunk k (p, t) Hk).
    + destruct (Hall k p t Hk) as (q & Hq & Hp & Hs & Hn).
      exists q, (renumbered t (attrno + Z.of_nat k)).
      split; [exact Hq|]. split; [exact Hp|].
      split; [simpl; lia|].
      simpl. repeat (split; [reflexivity|]). by split.
Qed.

(** C10 (amended).  When the source list of an INSERT or UPDATE holds
    conflicting assignments to some attribute and also a visible entry
    that names no attribute, the expansion fails in the per-attribute
    pass and never with UnexpectedJunkAssignment: with
    MultipleAssignmentConflict, or, for an INSERT, with the
    DefaultTypeMismatch of an omitted column that the same pass reaches
    first. *)
Theorem C10_conflict_before_junk tlist ts cmd rr rt rel s (i : nat) att
    stray :
  resolves E rt rr rel ->
  Forall2 (points_to s) tlist ts ->
  cmd = CMD_INSERT \/ cmd = CMD_UPDATE ->
  attrs (rd_att rel) !! i = Some att ->
  first_named rel (attname att) i ->
  conflicting (List.filter (assigns (attname att)) ts) ->
  stray ∈ ts -> resjunk (resdom stray) = false ->
  (forall a, a ∈ attrs (rd_att rel) -> attname a <> resname (resdom stray)) ->
  exists e s',
    expand_targetlist E tlist cmd rr rt s = (Elog e, s') /\
    (forall n, e <> UnexpectedJunkAssignment n) /\
    ((exists n, e = MultipleAssignmentConflict n) \/
     (cmd = CMD_INSERT /\ exists c t1 t2, e = DefaultTypeMismatch c t1 t2)).
Proof.
  intros Hres Hts Hcmd Hatt Hfirst Hconf _ _ _.
  destruct (expand_targetlist_run E tlist ts cmd rr rt rel s Hres Hts)
    as (r1 & s1 & Hrun' & _ & _ & H).
  pose proof (lookup_lt_Some _ _ _ Hatt) as Hilt.
  pose proof (attribute_values_defined E rel ts cmd rr
                (length (attrs (rd_att rel))) 1
                (replicate (length tlist + 1) false) ltac:(lia)) as Hd.
  simpl in Hd. specialize (Hd ltac:(lia)).
  destruct (attribute_values E rel ts cmd rr _ 1 _) as [[vs used]|e|] eqn:Hv;
    [|clear Hd|done].
  - exfalso.
    pose proof (attribute_values_nth E rel ts cmd rr _ 1 _ i att vs used
                  ltac:(lia) Hilt (used_inv_nil rel ts _ _) Hatt Hfirst Hv)
      as Hnth.
    by rewrite (conflicting_merge_matches _ _ Hconf) in Hnth.
  - destruct H as [-> _]. exists e, s1. split; [exact Hrun'|].
    destruct (attribute_values_Elog E rel ts cmd rr _ _ _ _ Hv)
      as [[n ->]|(a & k & Hm)].
    + split; [done|]. left. eauto.
    + apply missing_expr_Elog in Hm
        as [(-> & c & t1 & t2 & ->)|(Hi & Hu & _)].
      * split; [done|]. right. eauto.
      * destruct Hcmd; done.
Qed.

End ExpandEntries.

(* ================================================================== *)
(** ** Properties of the driver *)
(* ================================================================== *)

Lemma check_result_relation_state rr rt s r s' :
  check_result_relation rr rt s = (r, s') -> s' = s.
Proof.
  unfold check_result_relation, rt_fetch.
  destruct (negb (rr =? 0)); [|by intros [= _ <-]].
  rewrite run_bind. destruct (rr <? 1); [by intros [= _ <-]|].
  destruct (rt !! Z.to_nat (rr - 1)) as [rte|]; [|by intros [= _ <-]].
  rewrite run_ret. by destruct (_ || _); intros [= _ <-].
Qed.

Lemma list_contents_inv l s r s' :
  list_contents l s = (r, s') ->
  s' = s /\ forall xs, r = Done xs -> list_contents_in (cells s) l = Some xs.
Proof.
  unfold list_contents. destruct (list_contents_in (cells s) l) as [ys|].
  - intros [= <- <-]. split; [done|]. by intros xs [= ->].
  - intros [= <- <-]. split; [done|]. by intros xs [=].
Qed.

(** In-place append: the pointer handed to [lappend] afterwards holds the
    longer list. *)
Lemma lappend_in_place a x s xs :
  list_contents_in (cells s) (Some a) = Some xs ->
  exists s', lappend (Some a) x s = (Done (Some a), s') /\
             list_contents_in (cells s') (Some a) = Some (xs ++ [x]).
Proof.
  intros H. destruct (lappend_run (Some a) x s xs H)
    as (l' & s' & Hrun & Hc & _ & _ & -> & _). eauto.
Qed.

Section DriverFacts.
Variable E : Collaborators.

Lemma preprocess_targetlist_unfold tlist cmd rr rt :
  preprocess_targetlist E tlist cmd rr rt =
    (_ ← check_result_relation rr rt;
     tlist ← (if (cmd =? CMD_INSERT) || (cmd =? CMD_UPDATE)
              then
                old_tlist ← list_contents tlist;
                new_tlist ← expand_targetlist E old_tlist cmd rr rt;
                lappend_all NIL new_tlist
              else mret tlist);
     if (cmd =? CMD_UPDATE) || (cmd =? CMD_DELETE)
     then add_ctid cmd rr tlist
     else mret tlist).
Proof. reflexivity. Qed.

Lemma check_result_relation_ok rr rt s :
  result_relation_ok rr rt -> check_result_relation rr rt s = (Done tt, s).
Proof.
  unfold check_result_relation, rt_fetch.
  intros [->|(Hle & rte & Hrte & Hsub & Hrel)]; [reflexivity|].
  destruct (rr =? 0) eqn:H0; [lia|]. simpl. rewrite run_bind.
  destruct (rr <? 1) eqn:H1; [lia|]. rewrite Hrte, run_ret, Hsub.
  destruct (relid rte =? InvalidOid) eqn:Hr; [lia|]. reflexivity.
Qed.

(** C5.  For UPDATE and DELETE, when the sanity check passes and the list
    to append to is there (the expansion's result for UPDATE, the caller's
    list for DELETE), [preprocess_targetlist] returns that list followed
    by exactly one more entry: hidden, named "ctid", of type TID, numbered
    with the length of the list plus one, whose expression is the Var for
    the result relation's self item pointer.  The list is short enough
    for that number to be within the range of the position field. *)
Theorem C5_ctid_entry tlist cmd rr rt s old base s1 :
  result_relation_ok rr rt ->
  list_contents_in (cells s) tlist = Some old ->
  (cmd = CMD_DELETE /\ base = old /\ s1 = s) \/
  (cmd = CMD_UPDATE /\
   expand_targetlist E old cmd rr rt s = (Done base, s1)) ->
  fits_AttrNumber (Z.of_nat (length base) + 1) ->
  exists out s' p,
    preprocess_targetlist E tlist cmd rr rt s = (Done out, s') /\
    list_contents_in (cells s') out = Some (base ++ [p]) /\
    points_to s' p
      (mkTargetEntry
         (makeResdom (Z.of_nat (length base) + 1) TIDOID (-1) "ctid" true)
         (Some (makeVar rr SelfItemPointerAttributeNumber TIDOID (-1) 0))) /\
    tles s' = tles s1 ++ [ctid_entry rr (length base)].
Proof.
  intros Hok Hold Hbase _. rewrite preprocess_targetlist_unfold.
  rewrite run_bind, (check_result_relation_ok _ _ _ Hok).
  destruct Hbase as [(-> & -> & ->)|[-> Hexp]].
  - change ((CMD_DELETE =? CMD_INSERT) || (CMD_DELETE =? CMD_UPDATE))
      with false.
    change ((CMD_DELETE =? CMD_UPDATE) || (CMD_DELETE =? CMD_DELETE))
      with true.
    rewrite run_bind, run_ret.
    destruct (add_ctid_run CMD_DELETE rr tlist s old Hold)
      as (out & s' & Hrun & Hc & Ht & _).
    exists out, s', (length (tles s)). split; [exact Hrun|].
    split; [exact Hc|]. split; [|exact Ht].
    unfold points_to. rewrite Ht, lookup_app_r by done.
    by rewrite Nat.sub_diag.
  - change ((CMD_UPDATE =? CMD_INSERT) || (CMD_UPDATE =? CMD_UPDATE))
      with true.
    change ((CMD_UPDATE =? CMD_UPDATE) || (CMD_UPDATE =? CMD_DELETE))
      with true.
    rewrite run_bind, run_bind, (list_contents_run _ _ _ Hold).
    rewrite run_bind, Hexp.
    destruct (lappend_all_run base NIL s1 [])
      as (l1 & s2 & Hrun2 & Hc2 & Ht2 & _);
      [unfold list_contents_in; apply contents_from_NIL|].
    rewrite Hrun2. simpl in Hc2.
    destruct (add_ctid_run CMD_UPDATE rr l1 s2 base Hc2)
      as (out & s' & Hrun & Hc & Ht & _).
    exists out, s', (length (tles s2)). split; [exact Hrun|].
    split; [exact Hc|]. rewrite Ht2 in Ht. split; [|exact Ht].
    unfold points_to. rewrite Ht, Ht2, lookup_app_r by done.
    by rewrite Nat.sub_diag.
Qed.

(** C6.  For DELETE, whatever the outcome, the cells and entries of the
    store the caller handed in are as before, so the caller's list holds
    what it held.  When the sanity check passes the call returns a list,
    and the list returned is another list, which holds the same entries
    followed by the row-identifier entry. *)
Theorem C6_delete_preserves_original tlist rr rt s l r s' :
  list_contents_in (cells s) tlist = Some l ->
  preprocess_targetlist E tlist CMD_DELETE rr rt s = (r, s') ->
  cells s `prefix_of` cells s' /\
  tles s `prefix_of` tles s' /\
  list_contents_in (cells s') tlist = Some l /\
  (result_relation_ok rr rt -> exists out, r = Done out) /\
  (forall out, r = Done out ->
     exists p, list_contents_in (cells s') out = Some (l ++ [p])).
Proof.
  intros Hl Hrun. rewrite preprocess_targetlist_unfold in Hrun.
  apply bind_inv in Hrun
    as [(u & s0 & Hchk & Hrun)|[(e & Hchk & ->)|(Hchk & ->)]].
  - apply check_result_relation_state in Hchk as ->.
    change ((CMD_DELETE =? CMD_INSERT) || (CMD_DELETE =? CMD_UPDATE))
      with false in Hrun.
    change ((CMD_DELETE =? CMD_UPDATE) || (CMD_DELETE =? CMD_DELETE))
      with true in Hrun.
    rewrite run_bind, run_ret in Hrun.
    destruct (add_ctid_run CMD_DELETE rr tlist s l Hl)
      as (out & s1 & Hrun' & Hc & Ht & _ & Hframe).
    rewrite Hrun in Hrun'. injection Hrun' as -> ->.
    destruct (Hframe eq_refl) as [Hpre Hsame].
    split; [exact Hpre|]. split; [rewrite Ht; by apply prefix_app_r|].
    split; [exact Hsame|]. split; [by eauto|].
    intros out' [= <-]. eauto.
  - pose proof Hchk as Hchk'.
    apply check_result_relation_state in Hchk as ->.
    repeat split; try done.
    intros Hok. by rewrite (check_result_relation_ok _ _ _ Hok) in Hchk'.
  - pose proof Hchk as Hchk'.
    apply check_result_relation_state in Hchk as ->.
    repeat split; try done.
    intros Hok. by rewrite (check_result_relation_ok _ _ _ Hok) in Hchk'.
Qed.

End DriverFacts.

(* ================================================================== *)
(** ** The theorems at the sample inputs *)
(* ================================================================== *)

Lemma ex_resolves_1 : resolves ex_E ex_rt 1 ex_rel.
Proof. split; [lia|]. exists (mkRTE 100 None). split; reflexivity. Defined.

Lemma ex_arrays_valid :
  Forall2 (points_to ex_store_arrays) [0; 1; 2]%nat [ex_b1; ex_b3; ex_ord].
Proof. repeat (constructor; [reflexivity|]). constructor. Defined.

Lemma ex_conflict_valid :
  Forall2 (points_to ex_store_conflict) [0; 1; 2]%nat
          [ex_bx; ex_by; ex_stray].
Proof. repeat (constructor; [reflexivity|]). constructor. Defined.

Lemma ex_first_named_b : first_named ex_rel "b" 1.
Proof.
  intros k' att' Hk Hatt. destruct k' as [|k']; [|lia].
  injection Hatt as <-. discriminate.
Defined.

Lemma ex_conflicting_b : conflicting [ex_bx; ex_by].
Proof.
  exists [ex_bx], ex_by, []. split; [reflexivity|]. split; [discriminate|].
  intros ((al & el & et & eb & up & lo & base & v & H) & _). discriminate H.
Defined.

Lemma C1_witness :
  let es := entries_of ex_arrays_expanded [3; 5; 6; 7]%nat in
  let vis := List.filter visible es in
  length es = 4%nat /\
  vis = take 3 es /\
  map (fun t => resno (resdom t)) vis = [1; 2; 3] /\
  map (fun t => resname (resdom t)) vis = ["a"; "b"; "c"]%string.
Proof.
  exact (C1_visible_entries ex_E [0; 1; 2]%nat [ex_b1; ex_b3; ex_ord]
           CMD_UPDATE 1 ex_rt ex_rel ex_store_arrays [3; 5; 6; 7]%nat
           ex_arrays_expanded ex_resolves_1 ex_arrays_valid eq_refl).
Defined.

(** With a dropped column the expansion still emits an entry for it, in
    either build: two visible entries where one attribute is live. *)
Lemma C1_counterexample :
  ~ C1_as_stated ex_E_hack [] CMD_UPDATE 2 ex_rt ex_rel_dropped
                 ex_store_empty /\
  ~ C1_as_stated ex_E [] CMD_UPDATE 2 ex_rt ex_rel_dropped ex_store_empty.
Proof.
  split; intros H; destruct (H _ _ eq_refl) as [H1 _]; discriminate H1.
Qed.


Lemma C3_witness :
  process_matched_tle 1%nat (Some 0%nat) 2 ex_store_conflict =
    (Elog (MultipleAssignmentConflict "b"), ex_store_conflict) /\
  exists p s',
    process_matched_tle 1%nat (Some 0%nat) 2 ex_store_arrays = (Done p, s').
Proof.
  split.
  - apply (C3_conflict_unless_mergeable 1%nat 0%nat 2 ex_store_conflict
             ex_by ex_bx eq_refl eq_refl).
    intros ((al & el & et & eb & up & lo & base & v & H) & _). discriminate H.
  - apply (C3_conflict_unless_mergeable 1%nat 0%nat 2 ex_store_arrays
             ex_b3 ex_b1 eq_refl eq_refl).
    split; [by repeat eexists|]. split; [by repeat eexists|].
    split; reflexivity.
Defined.

(** INSERT that omits the int4 column "a": the catalog says length 4,
    by value; the constant carries what the stack held. *)
Lemma C4_witness :
  build_column_default ex_E ex_rel 1 =
    Done (Some (T_Const 23 0 0 true false false false)) /\
  get_typlenbyval ex_E 23 = (4, true).
Proof.
  split; [|reflexivity].
  exact (C4_null_constant_uninitialised ex_E ex_rel 1
           (mkAttr "a" 23 (-1) false false)
           ltac:(lia) eq_refl I eq_refl eq_refl eq_refl).
Defined.

(** The same constant reaches the expanded list: INSERT ... (b, c) into
    the sample relation fills "a" with it. *)
Example ex_insert_omitted_column :
  let run := expand_targetlist ex_E [0; 1]%nat CMD_INSERT 1 ex_rt
               (mkState [ex_bx;
                         mkTargetEntry (makeResdom 3 25 (-1) "c" false)
                           (Some (T_Const 25 (-1) 7 false false false false))]
                        [] []) in
  fst run = Done [2; 0; 1]%nat /\
  expr <$> tles (snd run) !! 2%nat
    = Some (Some (T_Const 23 0 0 true false false false)).
Proof. split; reflexivity. Qed.

Lemma ex_result_relation_ok : result_relation_ok 1 ex_rt.
Proof.
  right. split; [lia|]. exists (mkRTE 100 None).
  split; [reflexivity|]. split; [reflexivity|]. discriminate.
Defined.

Lemma C5_witness :
  (exists out s' p,
     preprocess_targetlist ex_E (Some 0%nat) CMD_DELETE 1 ex_rt
                           ex_store_arrays = (Done out, s') /\
     list_contents_in (cells s') out = Some ([0; 1; 2]%nat ++ [p]) /\
     points_to s' p
       (mkTargetEntry (makeResdom 4 TIDOID (-1) "ctid" true)
          (Some (makeVar 1 SelfItemPointerAttributeNumber TIDOID (-1) 0))) /\
     tles s' = tles ex_store_arrays ++ [ctid_entry 1 3]) /\
  (exists out s' p,
     preprocess_targetlist ex_E (Some 0%nat) CMD_UPDATE 1 ex_rt
                           ex_store_arrays = (Done out, s') /\
     list_contents_in (cells s') out = Some ([3; 5; 6; 7]%nat ++ [p]) /\
     points_to s' p
       (mkTargetEntry (makeResdom 5 TIDOID (-1) "ctid" true)
          (Some (makeVar 1 SelfItemPointerAttributeNumber TIDOID (-1) 0))) /\
     tles s' = tles ex_arrays_expanded ++ [ctid_entry 1 4]).
Proof.
  split.
  - exact (C5_ctid_entry ex_E (Some 0%nat) CMD_DELETE 1 ex_rt ex_store_arrays
             [0; 1; 2]%nat [0; 1; 2]%nat ex_store_arrays
             ex_result_relation_ok eq_refl
             (or_introl (conj eq_refl (conj eq_refl eq_refl)))
             ltac:(split; simpl; lia)).
  - exact (C5_ctid_entry ex_E (Some 0%nat) CMD_UPDATE 1 ex_rt ex_store_arrays
             [0; 1; 2]%nat [3; 5; 6; 7]%nat ex_arrays_expanded
             ex_result_relation_ok eq_refl
             (or_intror (conj eq_refl eq_refl))
             ltac:(split; simpl; lia)).
Defined.

Lemma C6_witness :
  cells ex_store_arrays `prefix_of` cells ex_arrays_deleted /\
  tles ex_store_arrays `prefix_of` tles ex_arrays_deleted /\
  list_contents_in (cells ex_arrays_deleted) (Some 0%nat)
    = Some [0; 1; 2]%nat /\
  (result_relation_ok 1 ex_rt -> exists out, Done (Some 3%nat) = Done out) /\
  (forall out, Done (Some 3%nat) = Done out ->
     exists p, list_contents_in (cells ex_arrays_deleted) out
               = Some ([0; 1; 2]%nat ++ [p])).
Proof.
  exact (C6_delete_preserves_original ex_E (Some 0%nat) 1 ex_rt
           ex_store_arrays [0; 1; 2]%nat (Done (Some 3%nat))
           ex_arrays_deleted eq_refl eq_refl).
Defined.

Lemma C7_witness :
  let un := [(2%nat, ex_ord)] in
  4 = 3 + 1 /\
  exists r s',
    expand_targetlist ex_E [0; 1; 2]%nat CMD_UPDATE 1 ex_rt ex_store_arrays
    = (r, s') /\
    exists qs,
      r = Done ([3; 5; 6]%nat ++ qs) /\ length qs = 1%nat /\
      forall (k : nat) p t, un !! k = Some (p, t) ->
        resjunk (resdom t) = true /\
        exists q u,
          qs !! k = Some q /\ points_to s' q u /\
          resno (resdom u) = 3 + 1 + Z.of_nat k /\
          restype (resdom u) = restype (resdom t) /\
          restypmod (resdom u) = restypmod (resdom t) /\
          resname (resdom u) = resname (resdom t) /\
          ressortgroupref (resdom u) = ressortgroupref (resdom t) /\
          reskey (resdom u) = reskey (resdom t) /\
          reskeyop (resdom u) = reskeyop (resdom t) /\
          resjunk (resdom u) = resjunk (resdom t) /\
          expr u = expr t /\
          (resno (resdom t) = 4 + Z.of_nat k -> q = p) /\
          (resno (resdom t) <> 4 + Z.of_nat k -> (3 <= q)%nat).
Proof.
  exact (C7_unprocessed_entries ex_E [0; 1; 2]%nat [ex_b1; ex_b3; ex_ord]
           CMD_UPDATE 1 ex_rt ex_rel ex_store_arrays [3; 5; 6]%nat
           [true; true; false; false] 4 ex_arrays_after_loop
           ex_resolves_1 ex_arrays_valid eq_refl ltac:(split; simpl; lia)).
Defined.

Lemma C8_witness :
  (forall out : list tle_ptr,
     Elog (MultipleAssignmentConflict "b") = Done out ->
     [(100, 1)] = locks ex_store_conflict) /\
  (forall e,
     @Elog (list tle_ptr) (MultipleAssignmentConflict "b") = Elog e ->
     [(100, 1)] = lock_of ex_rel :: locks ex_store_conflict).
Proof.
  exact (C8_lock_release ex_E [0; 1; 2]%nat [ex_bx; ex_by; ex_stray]
           CMD_UPDATE 1 ex_rt ex_rel ex_store_conflict
           (Elog (MultipleAssignmentConflict "b"))
           ex_conflict_left ex_resolves_1 ex_conflict_valid eq_refl).
Defined.

(** UPDATE ... SET b = 1, b = 2: the conflict is raised and the lock on
    relation 100 is still held when the expansion is left. *)
Lemma C8_counterexample :
  ~ C8_as_stated ex_E [0; 1; 2]%nat CMD_UPDATE 1 ex_rt ex_store_conflict.
Proof. intros H. specialize (H _ _ eq_refl). discriminate H. Qed.

Lemma C9_witness :
  let r := fst (expand_targetlist ex_E [] CMD_DELETE 1 ex_rt ex_store_empty) in
  (r = Elog UnsupportedCommandKind \/
   exists n, r = Elog (MultipleAssignmentConflict n)) /\
  ((forall n : string, (0 <= 1)%nat) -> r = Elog UnsupportedCommandKind).
Proof.
  exact (C9_unsupported_command ex_E [] [] CMD_DELETE 1 ex_rt ex_rel
           ex_store_empty (mkAttr "a" 23 (-1) false false)
           ex_resolves_1 (List.Forall2_nil _) ltac:(discriminate)
           ltac:(discriminate) (list_elem_of_here _ _) eq_refl).
Defined.

(** A DELETE-kind expansion of a list that assigns the relation's only
    column returns normally. *)
Lemma C9_counterexample :
  ~ C9_as_stated ex_E [0]%nat CMD_DELETE 4 ex_rt ex_store_a.
Proof.
  intros H. specialize (H ltac:(discriminate) ltac:(discriminate)).
  discriminate H.
Qed.

Lemma C10_witness :
  exists e s',
    expand_targetlist ex_E [0; 1; 2]%nat CMD_UPDATE 1 ex_rt ex_store_conflict
    = (Elog e, s') /\
    (forall n, e <> UnexpectedJunkAssignment n) /\
    ((exists n, e = MultipleAssignmentConflict n) \/
     (CMD_UPDATE = CMD_INSERT /\
      exists c t1 t2, e = DefaultTypeMismatch c t1 t2)).
Proof.
  refine (C10_conflict_before_junk ex_E [0; 1; 2]%nat
            [ex_bx; ex_by; ex_stray] CMD_UPDATE 1 ex_rt ex_rel
            ex_store_conflict 1%nat (mkAttr "b" 1007 (-1) false false)
            ex_stray ex_resolves_1 ex_conflict_valid (or_intror eq_refl)
            eq_refl ex_first_named_b ex_conflicting_b _ eq_refl _).
  - apply (list_elem_of_lookup_2 _ 2%nat). reflexivity.
  - intros a Ha. apply list_elem_of_lookup_1 in Ha as [k Hk].
    destruct k as [|[|[|k]]]; simpl in Hk; try discriminate Hk;
      injection Hk as <-; discriminate.
Defined.

(** INSERT into a relation whose first, omitted column has a default that
    cannot be coerced, with SET b = 1, b = 2, zzz = 3: the default's
    failure is raised before the conflict on "b" is reached. *)
Lemma C10_counterexample :
  ~ C10_as_stated ex_E [0; 1; 2]%nat [ex_bx; ex_by; ex_stray] CMD_INSERT 3
                  ex_rt ex_rel_baddefault ex_store_conflict.
Proof.
  intros H. destruct H as [n Hn].
  - by left.
  - exists 1%nat, (mkAttr "b" 1007 (-1) false false).
    split; [reflexivity|]. split; [|exact ex_conflicting_b].
    intros k' att' Hk Hatt. destruct k' as [|k']; [|lia].
    injection Hatt as <-. discriminate.
  - exists ex_stray. split; [apply (list_elem_of_lookup_2 _ 2%nat); reflexivity|].
    split; [reflexivity|].
    intros a Ha. apply list_elem_of_lookup_1 in Ha as [k Hk].
    destruct k as [|[|k]]; simpl in Hk; try discriminate Hk;
      injection Hk as <-; discriminate.
  - discriminate Hn.
Qed.

(* ================================================================== *)
(** ** The used map: what the scans mark and what they leave *)
(* ================================================================== *)

Lemma scan_length n ts : forall idx used,
  length (snd (scan n ts idx used)) = length used.
Proof.
  induction ts as [|t ts IH]; intros idx used; simpl; [done|].
  destruct (_ && _ && _).
  - specialize (IH (S idx) (<[idx:=true]> used)).
    destruct (scan n ts (S idx) (<[idx:=true]> used)) as [ms u']. simpl in *.
    by rewrite IH, length_insert.
  - apply IH.
Qed.

(** A mark is never cleared. *)
Lemma scan_mono n ts : forall idx used (j : nat),
  default false (used !! j) = true ->
  default false (snd (scan n ts idx used) !! j) = true.
Proof.
  induction ts as [|t ts IH]; intros idx used j Hj; simpl; [done|].
  destruct (_ && _ && _).
  - specialize (IH (S idx) (<[idx:=true]> used) j).
    destruct (scan n ts (S idx) (<[idx:=true]> used)) as [ms u']. simpl in *.
    apply IH. destruct (decide (idx = j)) as [->|Hne].
    + destruct (used !! j) as [b|] eqn:Hb; [|done].
      apply lookup_lt_Some in Hb. by rewrite list_lookup_insert_eq.
    + by rewrite list_lookup_insert_ne.
  - by apply IH.
Qed.

(** After a scan for [n], every candidate of [n] is marked, provided the
    map has a flag for every entry. *)
Lemma scan_marks_all n ts : forall idx used (j : nat) t,
  (idx + length ts <= length used)%nat ->
  ts !! j = Some t -> assigns n t = true ->
  default false (snd (scan n ts idx used) !! (idx + j)%nat) = true.
Proof.
  induction ts as [|t0 ts IH]; intros idx used j t Hlen Hj Ha; [done|].
  simpl in Hlen. cbn [scan]. rewrite scan_cond.
  destruct j as [|j]; simpl in Hj.
  - injection Hj as ->. rewrite Ha, andb_true_r, Nat.add_0_r.
    destruct (default false (used !! idx)) eqn:Hu; simpl.
    + by apply scan_mono.
    + pose proof (scan_mono n ts (S idx) (<[idx:=true]> used) idx) as Hm.
      destruct (scan n ts (S idx) (<[idx:=true]> used)) as [ms u']. simpl in *.
      apply Hm. rewrite list_lookup_insert_eq by lia. done.
  - replace (idx + S j)%nat with (S idx + j)%nat by lia.
    destruct (negb (default false (used !! idx)) && assigns n t0).
    + specialize (IH (S idx) (<[idx:=true]> used) j t).
      destruct (scan n ts (S idx) (<[idx:=true]> used)) as [ms u']. simpl in *.
      apply IH; [rewrite length_insert; lia|done|done].
    + apply (IH (S idx) used j t); [lia|done|done].
Qed.

Section ValuesSteps.
Variable E : Collaborators.
Variable rel : Relation.
Variable ts : list TargetEntry.
Variable cmd : Z.
Variable rr : Index.

(** One iteration of the attribute loop that went through. *)
Lemma attribute_values_step todo attrno used vs used' :
  attribute_values E rel ts cmd rr (S todo) attrno used = Done (vs, used') ->
  exists att t0 vs1,
    attrs (rd_att rel) !! Z.to_nat (attrno - 1) = Some att /\
    vs = t0 :: vs1 /\
    attribute_values E rel ts cmd rr todo (attrno + 1)
      (snd (scan (attname att) ts 0 used)) = Done (vs1, used') /\
    match merge_matches attrno None (fst (scan (attname att) ts 0 used)) with
    | Some (Some t) => t0 = t
    | Some None =>
        exists e, missing_expr E rel cmd rr att attrno = Done e /\
          t0 = mkTargetEntry (makeResdom attrno (atttypid att) (atttypmod att)
                                (attname att) false) e
    | None => False
    end.
Proof.
  intros H. cbn [attribute_values] in H.
  destruct (attrs (rd_att rel) !! Z.to_nat (attrno - 1)) as [att|]; [|done].
  exists att.
  destruct (scan (attname att) ts 0 used) as [ms used1]. cbn [fst snd].
  destruct (merge_matches attrno None ms) as [[t0|]|]; [| |done].
  - destruct (attribute_values E rel ts cmd rr todo (attrno + 1) used1)
      as [[vs1 u1]|e'|]; simpl in H; try done.
    injection H as <- <-. by exists t0, vs1.
  - destruct (missing_expr E rel cmd rr att attrno) as [e|e|]; try done.
    destruct (attribute_values E rel ts cmd rr todo (attrno + 1) used1)
      as [[vs1 u1]|e'|]; simpl in H; try done.
    injection H as <- <-. eexists _, vs1. repeat split; eauto.
Qed.

(** One iteration of the attribute loop in a run that raised [e]: the
    error is this attribute's conflict, this attribute's missing
    expression, or a later iteration's. *)
Lemma attribute_values_step_Elog todo attrno used e :
  attribute_values E rel ts cmd rr (S todo) attrno used = Elog e ->
  exists att,
    attrs (rd_att rel) !! Z.to_nat (attrno - 1) = Some att /\
    ((merge_matches attrno None (fst (scan (attname att) ts 0 used)) = None /\
      e = MultipleAssignmentConflict (attname att)) \/
     (merge_matches attrno None (fst (scan (attname att) ts 0 used))
        = Some None /\
      missing_expr E rel cmd rr att attrno = Elog e) \/
     attribute_values E rel ts cmd rr todo (attrno + 1)
       (snd (scan (attname att) ts 0 used)) = Elog e).
Proof.
  intros H. cbn [attribute_values] in H.
  destruct (attrs (rd_att rel) !! Z.to_nat (attrno - 1)) as [att|]; [|done].
  exists att. split; [done|].
  destruct (scan (attname att) ts 0 used) as [ms used1]. cbn [fst snd].
  destruct (merge_matches attrno None ms) as [[t0|]|].
  - destruct (attribute_values E rel ts cmd rr todo (attrno + 1) used1)
      as [[vs1 u1]|e'|]; simpl in H; try done.
    injection H as ->. by right; right.
  - destruct (missing_expr E rel cmd rr att attrno) as [e0|e0|]; try done.
    + destruct (attribute_values E rel ts cmd rr todo (attrno + 1) used1)
        as [[vs1 u1]|e'|]; simpl in H; try done.
      injection H as ->. by right; right.
    + injection H as ->. right; left. done.
  - injection H as <-. by left.
Qed.

(** The used map a successful attribute loop leaves: as long as the one
    it started from, with every earlier mark kept, and every new mark on
    a visible entry. *)
Lemma attribute_values_used todo : forall attrno used vs used',
  attribute_values E rel ts cmd rr todo attrno used = Done (vs, used') ->
  length used' = length used /\
  (forall j : nat, default false (used !! j) = true ->
                   default false (used' !! j) = true) /\
  (forall j : nat, default false (used' !! j) = true ->
     default false (used !! j) = true \/
     exists t, ts !! j = Some t /\ resjunk (resdom t) = false).
Proof.
  induction todo as [|todo IH]; intros attrno used vs used' H.
  - simpl in H. injection H as <- <-. auto.
  - apply attribute_values_step in H
      as (att & t0 & vs1 & Hatt & -> & Hrest & _).
    destruct (IH _ _ _ _ Hrest) as (Hlen & Hmono & Hnew).
    split; [by rewrite Hlen, scan_length|].
    split.
    + intros j Hj. apply Hmono. by apply scan_mono.
    + intros j Hj. destruct (Hnew j Hj) as [Hu|Hv]; [|by right].
      apply scan_marks in Hu as [Hu|(t & _ & Ht & Ha)]; [by left|].
      right. rewrite Nat.sub_0_r in Ht. exists t. split; [done|].
      by apply assigns_spec in Ha as [Ha _].
Qed.

(** After a successful attribute loop every candidate of every attribute
    the loop visited is marked. *)
Lemma attribute_values_marks todo : forall attrno used vs used' (i : nat) att
    (j : nat) t,
  1 <= attrno -> (i < todo)%nat ->
  (length ts <= length used)%nat ->
  attrs (rd_att rel) !! (Z.to_nat (attrno - 1) + i)%nat = Some att ->
  ts !! j = Some t -> assigns (attname att) t = true ->
  attribute_values E rel ts cmd rr todo attrno used = Done (vs, used') ->
  default false (used' !! j) = true.
Proof.
  induction todo as [|todo IH];
    intros attrno used vs used' i att j t Hle Hi Hlen Hatt Hj Ha H; [lia|].
  apply attribute_values_step in H
    as (att0 & t0 & vs1 & Hatt0 & -> & Hrest & _).
  destruct i as [|i].
  - rewrite Nat.add_0_r, Hatt0 in Hatt. injection Hatt as ->.
    destruct (attribute_values_used _ _ _ _ _ Hrest) as (_ & Hmono & _).
    apply Hmono.
    apply (scan_marks_all (attname att) ts 0 used j t); [simpl; lia|done|done].
  - eapply (IH (attrno + 1) _ vs1 used' i att j t); [lia|lia| | |done|done|done].
    + rewrite scan_length. done.
    + replace (Z.to_nat (attrno + 1 - 1) + i)%nat
        with (Z.to_nat (attrno - 1) + S i)%nat by lia. done.
Qed.

(** The used map after a successful attribute loop that started with
    the invariant still has it, for all the attributes visited. *)
Lemma attribute_values_used_inv todo : forall attrno used vs used',
  1 <= attrno ->
  used_inv rel ts (Z.to_nat (attrno - 1)) used ->
  attribute_values E rel ts cmd rr todo attrno used = Done (vs, used') ->
  used_inv rel ts (Z.to_nat (attrno - 1) + todo) used'.
Proof.
  induction todo as [|todo IH]; intros attrno used vs used' Hle Hinv H.
  - simpl in H. injection H as <- <-. by rewrite Nat.add_0_r.
  - apply attribute_values_step in H
      as (att0 & t0 & vs1 & Hatt0 & -> & Hrest & _).
    pose proof (used_inv_step rel ts _ _ _ Hatt0 Hinv) as Hinv'.
    replace (Z.to_nat (attrno - 1) + S todo)%nat
      with (Z.to_nat (attrno + 1 - 1) + todo)%nat by lia.
    eapply IH; [lia| |exact Hrest].
    replace (Z.to_nat (attrno + 1 - 1)) with (S (Z.to_nat (attrno - 1))) by lia.
    exact Hinv'.
Qed.

End ValuesSteps.

(* ================================================================== *)
(** ** The unprocessed entries *)
(* ================================================================== *)

Lemma unprocessed_elem {A} (xs : list A) : forall idx used x,
  x ∈ unprocessed xs idx used ->
  exists j : nat, xs !! j = Some x /\
                  default false (used !! (idx + j)%nat) = false.
Proof.
  induction xs as [|x0 xs IH]; intros idx used x Hx; simpl in Hx.
  - by apply elem_of_nil in Hx.
  - destruct (default false (used !! idx)) eqn:Hu; simpl in Hx.
    + destruct (IH _ _ _ Hx) as (j & Hj & Huj). exists (S j).
      split; [done|]. by replace (idx + S j)%nat with (S idx + j)%nat by lia.
    + apply elem_of_cons in Hx as [->|Hx].
      * exists 0%nat. by rewrite Nat.add_0_r.
      * destruct (IH _ _ _ Hx) as (j & Hj & Huj). exists (S j).
        split; [done|]. by replace (idx + S j)%nat with (S idx + j)%nat by lia.
Qed.

Lemma elem_unprocessed {A} (xs : list A) : forall idx used (j : nat) x,
  xs !! j = Some x -> default false (used !! (idx + j)%nat) = false ->
  x ∈ unprocessed xs idx used.
Proof.
  induction xs as [|x0 xs IH]; intros idx used j x Hj Hu; [done|].
  simpl. destruct j as [|j]; simpl in Hj.
  - injection Hj as ->. rewrite Nat.add_0_r in Hu. rewrite Hu. simpl.
    apply list_elem_of_here.
  - assert (Hin : x ∈ unprocessed xs (S idx) used).
    { apply (IH (S idx) used j x Hj).
      by replace (S idx + j)%nat with (idx + S j)%nat by lia. }
    destruct (negb _); [by apply list_elem_of_further|done].
Qed.

Lemma unprocessed_snd {A B} (xs : list A) : forall (ys : list B) idx used,
  length xs = length ys ->
  map snd (unprocessed (zip xs ys) idx used) = unprocessed ys idx used.
Proof.
  induction xs as [|x xs IH]; intros [|y ys] idx used Hlen; simpl in *;
    try done.
  destruct (negb _); simpl; [f_equal|]; apply IH; lia.
Qed.

(** When the marked entries are visible and the unmarked ones are junk,
    the unprocessed entries are the junk entries. *)
Lemma unprocessed_filter (ts : list TargetEntry) : forall idx used,
  (forall (j : nat) t, ts !! j = Some t ->
     default false (used !! (idx + j)%nat) = true ->
     resjunk (resdom t) = false) ->
  Forall (fun t => resjunk (resdom t) = true) (unprocessed ts idx used) ->
  unprocessed ts idx used = List.filter (fun t => resjunk (resdom t)) ts.
Proof.
  induction ts as [|t ts IH]; intros idx used Hvis Hjunk; [done|].
  simpl in *.
  assert (Hrest : forall (j : nat) t', ts !! j = Some t' ->
            default false (used !! (S idx + j)%nat) = true ->
            resjunk (resdom t') = false).
  { intros j t' Hj Hu. apply (Hvis (S j) t' Hj).
    by replace (idx + S j)%nat with (S idx + j)%nat by lia. }
  destruct (default false (used !! idx)) eqn:Hu; simpl in *.
  - rewrite (Hvis 0%nat t eq_refl) by by rewrite Nat.add_0_r.
    by apply IH.
  - apply Forall_cons in Hjunk as [Ht Hjunk]. rewrite Ht. f_equal.
    by apply IH.
Qed.

Lemma first_visible_Some un pt :
  first_visible un = Some pt ->
  pt ∈ un /\ resjunk (resdom (snd pt)) = false.
Proof.
  unfold first_visible. intros H. apply find_some in H as [Hin Hv].
  split; [by apply list_elem_of_In|]. by apply negb_true_iff in Hv.
Qed.

Lemma replicate_false_lookup n (j : nat) :
  default false (replicate n false !! j) = false.
Proof.
  destruct (replicate n false !! j) as [b|] eqn:Hb; [|done].
  by apply lookup_replicate in Hb as [-> _].
Qed.

Lemma zip_lookup_snd {A B} (xs : list A) (ys : list B) (j : nat) p :
  zip xs ys !! j = Some p -> ys !! j = Some (snd p).
Proof.
  revert ys j. induction xs as [|x xs IH]; intros [|y ys] [|j] H;
    simpl in *; try done.
  - by injection H as <-.
  - by apply IH.
Qed.

(* ================================================================== *)
(** ** Errors of the attribute loop, and entries it synthesizes *)
(* ================================================================== *)

Section ValuesErrors.
Variable E : Collaborators.
Variable rel : Relation.
Variable ts : list TargetEntry.
Variable cmd : Z.
Variable rr : Index.

(** An error of the attribute loop belongs to one attribute: that
    attribute has two or more candidates and the error is its conflict,
    or the attribute's missing expression raised it. *)
Lemma attribute_values_Elog_at todo : forall attrno used e,
  1 <= attrno ->
  attribute_values E rel ts cmd rr todo attrno used = Elog e ->
  exists (i : nat) att,
    (i < todo)%nat /\
    attrs (rd_att rel) !! (Z.to_nat (attrno - 1) + i)%nat = Some att /\
    ((e = MultipleAssignmentConflict (attname att) /\
      (2 <= length (List.filter (assigns (attname att)) ts))%nat) \/
     missing_expr E rel cmd rr att (attrno + Z.of_nat i) = Elog e).
Proof.
  induction todo as [|todo IH]; intros attrno used e Hle H; [done|].
  apply attribute_values_step_Elog in H
    as (att & Hatt & [(Hm & ->)|[(Hm & Hmiss)|Hrest]]).
  - exists 0%nat, att. rewrite Nat.add_0_r. split; [lia|]. split; [done|].
    left. split; [done|].
    pose proof (scan_sublist (attname att) ts 0 used) as Hsub.
    apply sublist_length in Hsub.
    destruct (Nat.le_gt_cases (length (fst (scan (attname att) ts 0 used))) 1)
      as [Hshort|Hlong]; [|lia].
    by apply (merge_matches_short attrno) in Hshort.
  - exists 0%nat, att. rewrite Nat.add_0_r, Z.add_0_r. split; [lia|]. auto.
  - destruct (IH (attrno + 1) _ _ ltac:(lia) Hrest)
      as (i & att' & Hi & Hatt' & Hcase).
    exists (S i), att'. split; [lia|]. split.
    + replace (Z.to_nat (attrno - 1) + S i)%nat
        with (Z.to_nat (attrno + 1 - 1) + i)%nat by lia. done.
    + replace (attrno + Z.of_nat (S i)) with (attrno + 1 + Z.of_nat i) by lia.
      done.
Qed.

(** An error of the attribute loop other than a conflict is raised by
    the missing expression of an attribute, and that attribute has no
    candidate when its name occurs there for the first time. *)
Lemma attribute_values_Elog_missing todo : forall attrno used e,
  1 <= attrno ->
  used_inv rel ts (Z.to_nat (attrno - 1)) used ->
  attribute_values E rel ts cmd rr todo attrno used = Elog e ->
  (forall n, e <> MultipleAssignmentConflict n) ->
  exists (i : nat) att,
    (i < todo)%nat /\
    attrs (rd_att rel) !! (Z.to_nat (attrno - 1) + i)%nat = Some att /\
    missing_expr E rel cmd rr att (attrno + Z.of_nat i) = Elog e /\
    (first_named rel (attname att) (Z.to_nat (attrno - 1) + i) ->
     List.filter (assigns (attname att)) ts = []).
Proof.
  induction todo as [|todo IH]; intros attrno used e Hle Hinv H Hne; [done|].
  apply attribute_values_step_Elog in H
    as (att & Hatt & [(Hm & ->)|[(Hm & Hmiss)|Hrest]]).
  - by destruct (Hne (attname att)).
  - exists 0%nat, att. rewrite Nat.add_0_r, Z.add_0_r. split; [lia|].
    split; [done|]. split; [done|]. intros Hfirst.
    rewrite <- (scan_first rel ts _ _ _ Hinv Hfirst).
    by apply merge_matches_none in Hm.
  - pose proof (used_inv_step rel ts _ _ _ Hatt Hinv) as Hinv'.
    assert (Hk : Z.to_nat (attrno + 1 - 1) = S (Z.to_nat (attrno - 1)))
      by lia.
    destruct (IH (attrno + 1) _ _ ltac:(lia) ltac:(by rewrite Hk) Hrest Hne)
      as (i & att' & Hi & Hatt' & Hm & Hnone).
    exists (S i), att'. split; [lia|].
    replace (Z.to_nat (attrno - 1) + S i)%nat
      with (Z.to_nat (attrno + 1 - 1) + i)%nat by lia.
    replace (attrno + Z.of_nat (S i)) with (attrno + 1 + Z.of_nat i) by lia.
    done.
Qed.

(** The entry of an attribute without candidates is the synthesized
    one. *)
Lemma attribute_values_unmatched_entry todo :
  forall attrno used vs used' (i : nat) att,
  1 <= attrno -> (i < todo)%nat ->
  attrs (rd_att rel) !! (Z.to_nat (attrno - 1) + i)%nat = Some att ->
  List.filter (assigns (attname att)) ts = [] ->
  attribute_values E rel ts cmd rr todo attrno used = Done (vs, used') ->
  exists e,
    missing_expr E rel cmd rr att (attrno + Z.of_nat i) = Done e /\
    vs !! i = Some (mkTargetEntry
                      (makeResdom (attrno + Z.of_nat i) (atttypid att)
                         (atttypmod att) (attname att) false) e).
Proof.
  induction todo as [|todo IH];
    intros attrno used vs used' i att Hle Hi Hatt Hnone H; [lia|].
  apply attribute_values_step in H
    as (att0 & t0 & vs1 & Hatt0 & -> & Hrest & Hhead).
  destruct i as [|i].
  - rewrite Nat.add_0_r, Hatt0 in Hatt. injection Hatt as ->.
    pose proof (scan_sublist (attname att) ts 0 used) as Hsub.
    rewrite Hnone in Hsub. apply sublist_nil_r in Hsub. rewrite Hsub in Hhead.
    simpl in Hhead. destruct Hhead as (e & He & ->).
    exists e. by rewrite Z.add_0_r.
  - replace (attrno + Z.of_nat (S i)) with (attrno + 1 + Z.of_nat i) by lia.
    change ((t0 :: vs1) !! S i) with (vs1 !! i).
    eapply IH; [| | |exact Hnone|exact Hrest]; [lia|lia|].
    replace (Z.to_nat (attrno + 1 - 1) + i)%nat
      with (Z.to_nat (attrno - 1) + S i)%nat by lia. done.
Qed.

End ValuesErrors.

Section ExpandMore.
Variable E : Collaborators.

(** A successful expansion, by the entries of the attributes: the
    attribute loop went through, and its [i]-th value is what the
    [i]-th entry of the result points to. *)
Lemma expand_targetlist_attr_entries tlist ts cmd rr rt rel s out s' :
  resolves E rt rr rel ->
  Forall2 (points_to s) tlist ts ->
  expand_targetlist E tlist cmd rr rt s = (Done out, s') ->
  exists vs used,
    attribute_values E rel ts cmd rr (length (attrs (rd_att rel))) 1
      (replicate (length tlist + 1) false) = Done (vs, used) /\
    length vs = length (attrs (rd_att rel)) /\
    forall (i : nat) t, vs !! i = Some t ->
      exists p, out !! i = Some p /\ points_to s' p t.
Proof.
  intros Hres Hts Hrun.
  destruct (expand_targetlist_Done E _ _ _ _ _ _ _ _ _ Hres Hts Hrun)
    as (vs & used & ps & qs & Hvals & _ & -> & Hps & _).
  exists vs, used. split; [exact Hvals|].
  destruct (attribute_values_shape E rel ts cmd rr _ 1 _ _ _ ltac:(lia) Hvals)
    as [Hlen _].
  split; [exact Hlen|]. intros i t Hi.
  destruct (Forall2_lookup_r _ _ _ _ _ Hps Hi) as (p & Hp & Hpt).
  exists p. split; [|exact Hpt].
  rewrite lookup_app_l; [done|]. by apply lookup_lt_Some in Hp.
Qed.

(** The run of an expansion whose result is an error, by the value-level
    reading. *)
Lemma expand_targetlist_Elog tlist ts cmd rr rt rel s e s' :
  resolves E rt rr rel ->
  Forall2 (points_to s) tlist ts ->
  expand_targetlist E tlist cmd rr rt s = (Elog e, s') ->
  attribute_values E rel ts cmd rr (length (attrs (rd_att rel))) 1
    (replicate (length tlist + 1) false) = Elog e \/
  exists vs used pt,
    attribute_values E rel ts cmd rr (length (attrs (rd_att rel))) 1
      (replicate (length tlist + 1) false) = Done (vs, used) /\
    first_visible (unprocessed (zip tlist ts) 0 used) = Some pt /\
    e = UnexpectedJunkAssignment (resname (resdom (snd pt))).
Proof.
  intros Hres Hts Hrun.
  destruct (expand_targetlist_run E tlist ts cmd rr rt rel s Hres Hts)
    as (r & s1 & Hrun' & _ & _ & Hcase).
  rewrite Hrun in Hrun'. injection Hrun' as <- <-.
  destruct (attribute_values E rel ts cmd rr _ 1 _) as [[vs used]|e'|].
  - destruct (first_visible _) as [pt|] eqn:Hfv.
    + destruct Hcase as [[= ->] _]. right. by exists vs, used, pt.
    + by destruct Hcase as (ps & qs & ? & _).
  - destruct Hcase as [[= ->] _]. by left.
  - done.
Qed.

End ExpandMore.

Lemma map_lookup_Some {A B} (f : A -> B) (l : list A) (i : nat) y :
  map f l !! i = Some y -> exists x, l !! i = Some x /\ y = f x.
Proof.
  revert i. induction l as [|x l IH]; intros [|i] H; simpl in *; try done.
  - injection H as <-. eauto.
  - by apply IH.
Qed.

(** The merge of an attribute's candidates carries the descriptor of the
    last one, renumbered. *)
Lemma merge_matches_last attrno ms last : forall prior t,
  merge_matches attrno prior (ms ++ [last]) = Some (Some t) ->
  resdom t = Resdom_with_resno (resdom last) attrno.
Proof.
  intros prior t. rewrite merge_matches_app.
  destruct (merge_matches attrno prior ms) as [p|]; [|done].
  cbn [merge_matches]. unfold merged_entry.
  destruct p as [p|].
  - destruct (merge_ok _ _); [|done]. by intros [= <-].
  - destruct (resno (resdom last) =? attrno) eqn:Hno; intros [= <-]; [|done].
    apply Z.eqb_eq in Hno. by rewrite <- Hno, Resdom_with_resno_same.
Qed.

Lemma build_column_default_Elog_inv E rel attrno e :
  build_column_default E rel attrno = Elog e ->
  exists att cs d,
    1 <= attrno /\
    attrs (rd_att rel) !! Z.to_nat (attrno - 1) = Some att /\
    constr (rd_att rel) = Some cs /\
    scan_defval (defval cs) (length (defval cs)) attrno = Some d /\
    exprType E (stringToNode E (adbin d)) <> atttypid att /\
    CoerceTargetExpr E (stringToNode E (adbin d))
      (exprType E (stringToNode E (adbin d)))
      (getBaseType E (atttypid att)) (atttypmod att) = None /\
    e = DefaultTypeMismatch (attname att) (atttypid att)
          (exprType E (stringToNode E (adbin d))).
Proof.
  unfold build_column_default. intros H.
  destruct (attrno <? 1) eqn:Hlt; [done|].
  destruct (attrs (rd_att rel) !! Z.to_nat (attrno - 1)) as [att|] eqn:Hatt;
    [|done].
  destruct (constr (rd_att rel)) as [cs|] eqn:Hcs; [|done].
  unfold num_defval in H. rewrite Nat2Z.id in H.
  destruct (0 <? Z.of_nat (length (defval cs))); [|done].
  destruct (scan_defval (defval cs) (length (defval cs)) attrno) as [d|]
    eqn:Hd; [|done].
  destruct (exprType E (stringToNode E (adbin d)) =? atttypid att) eqn:Hty;
    simpl in H; [done|].
  destruct (CoerceTargetExpr E _ _ _ _) as [c|] eqn:Hco; simpl in H; [done|].
  injection H as <-. exists att, cs, d. repeat split; try done; lia.
Qed.

Section ExpandTail.
Variable E : Collaborators.

(** The tail of a returned expansion: after one entry per attribute
    come the junk entries of the source list. *)
Lemma expand_targetlist_tail tlist ts cmd rr rt rel s out s' :
  resolves E rt rr rel ->
  Forall2 (points_to s) tlist ts ->
  expand_targetlist E tlist cmd rr rt s = (Done out, s') ->
  let n := length (attrs (rd_att rel)) in
  let junk := List.filter (fun t => resjunk (resdom t)) ts in
  length out = (n + length junk)%nat /\
  forall (k : nat) t, junk !! k = Some t ->
    exists q, out !! (n + k)%nat = Some q /\
      points_to s' q (renumbered t (Z.of_nat n + 1 + Z.of_nat k)).
Proof.
  intros Hres Hts Hrun.
  destruct (expand_targetlist_Done E _ _ _ _ _ _ _ _ _ Hres Hts Hrun)
    as (vs & used & ps & qs & Hvals & Hfv & -> & Hps & Hf & _).
  destruct (attribute_values_shape E rel ts cmd rr _ 1 _ _ _ ltac:(lia) Hvals)
    as [Hlen _].
  pose proof (Forall2_length _ _ _ Hps) as Hlps.
  pose proof (Forall2_length _ _ _ Hts) as Hlts.
  destruct (forwarded_lookup _ _ _ _ _ Hf) as [Hlq Hall].
  pose proof (unprocessed_snd tlist ts 0 used Hlts) as Hsnd.
  destruct (attribute_values_used E rel ts cmd rr _ _ _ _ _ Hvals)
    as (_ & _ & Hnew).
  assert (Hun : unprocessed ts 0 used
                = List.filter (fun t => resjunk (resdom t)) ts).
  { apply unprocessed_filter.
    - intros j t Hj Hu. simpl in Hu.
      destruct (Hnew j Hu) as [Hrep|(t' & Ht' & Hv)].
      + by rewrite replicate_false_lookup in Hrep.
      + rewrite Hj in Ht'. by injection Ht' as <-.
    - rewrite <- Hsnd. apply List.Forall_map.
      exact (first_visible_None _ Hfv). }
  cbv zeta. rewrite <- Hun, <- Hsnd. split.
  - rewrite length_app, length_map. lia.
  - intros k t Hk. apply map_lookup_Some in Hk as ([p t'] & Hk & ->).
    destruct (Hall _ _ _ Hk) as (q & Hq & Hpt & _).
    exists q. split; [|exact Hpt].
    rewrite lookup_app_r by lia.
    by replace (length (attrs (rd_att rel)) + k - length ps)%nat with k by lia.
Qed.

End ExpandTail.

Section ExpandProperties.
Variable E : Collaborators.

(** X1.  The list a successful expansion returns is numbered
    consecutively from 1: every entry, visible or junk, carries its place
    in the list as its position number.  The list is short enough for
    its last number to be within the range of the position field. *)
Theorem X1_consecutive_numbering tlist ts cmd rr rt rel s out s' :
  resolves E rt rr rel ->
  Forall2 (points_to s) tlist ts ->
  expand_targetlist E tlist cmd rr rt s = (Done out, s') ->
  fits_AttrNumber (Z.of_nat (length out)) ->
  length (entries_of s' out) = length out /\
  map (fun t => resno (resdom t)) (entries_of s' out)
    = seqZ 1 (Z.of_nat (length out)).
Proof.
  intros Hres Hts Hrun _.
  pose proof (expand_targetlist_positions E _ _ _ _ _ _ _ _ _ Hres Hts Hrun)
    as Hpos.
  destruct (expand_targetlist_Done E _ _ _ _ _ _ _ _ _ Hres Hts Hrun)
    as (vs & used & ps & qs & Hvals & Hfv & -> & Hps & Hf & _).
  destruct (forwarded_values _ _ _ _ _ Hf (first_visible_None _ Hfv))
    as (eq & Hqs & _).
  assert (Hall : Forall2 (points_to s') (ps ++ qs) (vs ++ eq))
    by by apply Forall2_app.
  rewrite (entries_of_points_to _ _ _ Hall).
  pose proof (Forall2_length _ _ _ Hall) as Hlen.
  split; [done|].
  rewrite <- (map_id (seqZ 1 _)).
  apply map_eq_by_lookup; [rewrite length_seqZ; lia|].
  intros i t z Hi Hz. apply lookup_seqZ in Hz as [-> _].
  destruct (Forall2_lookup_r _ _ _ _ _ Hall Hi) as (p & Hp & Hpt).
  rewrite (Hpos i p t Hp Hpt). lia.
Qed.

(** X2.  Whatever its outcome, a list or an error, the expansion leaves
    the entries it was given as it found them: no existing entry is
    changed or removed (new ones are only added), so every entry of the
    source list still has its value. *)
Theorem X2_expansion_frame tlist ts cmd rr rt rel s r s' :
  resolves E rt rr rel ->
  Forall2 (points_to s) tlist ts ->
  expand_targetlist E tlist cmd rr rt s = (r, s') ->
  tles s `prefix_of` tles s' /\
  Forall2 (points_to s') tlist ts.
Proof.
  intros Hres Hts Hrun.
  destruct (expand_targetlist_run E tlist ts cmd rr rt rel s Hres Hts)
    as (r1 & s1 & Hrun' & Hpre & _ & _).
  rewrite Hrun in Hrun'. injection Hrun' as <- <-.
  split; [exact Hpre|].
  eapply Forall2_impl; [exact Hts|].
  intros p t Hp. unfold points_to in *. by eapply prefix_lookup_Some.
Qed.

(** X3.  A successful expansion keeps every junk entry of the source
    list: the result has one entry per attribute followed by the source's
    junk entries, all of them, in their source order.  The [k]-th of them
    has the position number (number of attributes) + 1 + [k]; every other
    field of its descriptor and its expression are the source entry's.
    The list is short enough for its last number to be within the range
    of the position field. *)
Theorem X3_junk_entries_kept tlist ts cmd rr rt rel s out s' :
  resolves E rt rr rel ->
  Forall2 (points_to s) tlist ts ->
  expand_targetlist E tlist cmd rr rt s = (Done out, s') ->
  fits_AttrNumber (Z.of_nat (length out)) ->
  let n := length (attrs (rd_att rel)) in
  let junk := List.filter (fun t => resjunk (resdom t)) ts in
  length out = (n + length junk)%nat /\
  forall (k : nat) t, junk !! k = Some t ->
    exists q u,
      out !! (n + k)%nat = Some q /\ points_to s' q u /\
      resno (resdom u) = Z.of_nat n + 1 + Z.of_nat k /\
      restype (resdom u) = restype (resdom t) /\
      restypmod (resdom u) = restypmod (resdom t) /\
      resname (resdom u) = resname (resdom t) /\
      ressortgroupref (resdom u) = ressortgroupref (resdom t) /\
      reskey (resdom u) = reskey (resdom t) /\
      reskeyop (resdom u) = reskeyop (resdom t) /\
      resjunk (resdom u) = true /\
      expr u = expr t.
Proof.
  intros Hres Hts Hrun _.
  destruct (expand_targetlist_tail E tlist ts cmd rr rt rel s out s'
              Hres Hts Hrun) as [Hlen Hall].
  split; [exact Hlen|]. intros k t Hk.
  destruct (Hall k t Hk) as (q & Hq & Hpt).
  assert (Hjunk : resjunk (resdom t) = true).
  { apply list_elem_of_lookup_2, list_elem_of_In, filter_In in Hk.
    by destruct Hk as [_ Hk]. }
  exists q, (renumbered t (Z.of_nat (length (attrs (rd_att rel))) + 1
                           + Z.of_nat k)).
  split; [exact Hq|]. split; [exact Hpt|]. simpl. by repeat split.
Qed.

(** X4.  With a resolvable relation and valid entry pointers the
    expansion has five ways out and no other: a list; a conflict on an
    attribute; a visible entry that matched no attribute; for INSERT only,
    a default of the wrong type; and, for a command kind that is neither
    INSERT nor UPDATE only, the unsupported command kind.  In particular
    an UPDATE fails in two ways only. *)
Theorem X4_expansion_outcomes tlist ts cmd rr rt rel s r s' :
  resolves E rt rr rel ->
  Forall2 (points_to s) tlist ts ->
  expand_targetlist E tlist cmd rr rt s = (r, s') ->
  (exists out, r = Done out) \/
  (exists n, r = Elog (MultipleAssignmentConflict n)) \/
  (exists n, r = Elog (UnexpectedJunkAssignment n)) \/
  (cmd = CMD_INSERT /\
   exists c t1 t2, r = Elog (DefaultTypeMismatch c t1 t2)) \/
  (cmd <> CMD_INSERT /\ cmd <> CMD_UPDATE /\
   r = Elog UnsupportedCommandKind).
Proof.
  intros Hres Hts Hrun.
  pose proof (expand_targetlist_defined E _ _ cmd _ _ _ _ Hres Hts) as Hdef.
  rewrite Hrun in Hdef. simpl in Hdef.
  destruct r as [out|e|]; [left; eauto| |done].
  right.
  destruct (expand_targetlist_Elog E _ _ _ _ _ _ _ _ _ Hres Hts Hrun)
    as [Hv|(vs & used & pt & _ & _ & ->)]; [|right; left; eauto].
  destruct (attribute_values_Elog E rel ts cmd rr _ _ _ _ Hv)
    as [[n ->]|(a & k & Hm)]; [left; eauto|].
  right; right.
  apply missing_expr_Elog in Hm
    as [(-> & c & t1 & t2 & ->)|(H1 & H2 & ->)]; [left|right]; eauto 10.
Qed.

(** X5.  When the expansion fails with UnexpectedJunkAssignment, the
    name in the error is the name of a visible entry of the source list,
    and no attribute of the relation has that name. *)
Theorem X5_stray_assignment_named tlist ts cmd rr rt rel s n s' :
  resolves E rt rr rel ->
  Forall2 (points_to s) tlist ts ->
  expand_targetlist E tlist cmd rr rt s
    = (Elog (UnexpectedJunkAssignment n), s') ->
  (exists t, t ∈ ts /\ resjunk (resdom t) = false /\
             resname (resdom t) = n) /\
  (forall att, att ∈ attrs (rd_att rel) -> attname att <> n).
Proof.
  intros Hres Hts Hrun.
  destruct (expand_targetlist_Elog E _ _ _ _ _ _ _ _ _ Hres Hts Hrun)
    as [Hv|(vs & used & pt & Hvals & Hfv & [= ->])].
  { exfalso.
    destruct (attribute_values_Elog E rel ts cmd rr _ _ _ _ Hv)
      as [[m Hm]|(a & k & Hm)]; [done|].
    by apply missing_expr_Elog in Hm
      as [(_ & c & t1 & t2 & ?)|(_ & _ & ?)]. }
  apply first_visible_Some in Hfv as [Hin Hvis].
  apply unprocessed_elem in Hin as (j & Hj & Hu). simpl in Hu.
  apply zip_lookup_snd in Hj.
  split.
  - exists (snd pt). split; [by eapply list_elem_of_lookup_2|done].
  - intros att Hatt Hname.
    apply list_elem_of_lookup in Hatt as [i Hatt].
    pose proof (lookup_lt_Some _ _ _ Hatt) as Hi.
    assert (Hm : default false (used !! j) = true).
    { eapply (attribute_values_marks E rel ts cmd rr _ 1 _ vs used i att j
                (snd pt)); [lia|exact Hi| |exact Hatt|exact Hj| |exact Hvals].
      - rewrite length_replicate.
        pose proof (Forall2_length _ _ _ Hts). lia.
      - apply assigns_spec. done. }
    congruence.
Qed.

(** X6.  When the expansion fails with MultipleAssignmentConflict, the
    name in the error is the name of an attribute of the relation, and
    the source list has two or more visible entries of that name. *)
Theorem X6_conflict_named tlist ts cmd rr rt rel s n s' :
  resolves E rt rr rel ->
  Forall2 (points_to s) tlist ts ->
  expand_targetlist E tlist cmd rr rt s
    = (Elog (MultipleAssignmentConflict n), s') ->
  (exists att, att ∈ attrs (rd_att rel) /\ attname att = n) /\
  (2 <= length (List.filter (assigns n) ts))%nat.
Proof.
  intros Hres Hts Hrun.
  destruct (expand_targetlist_Elog E _ _ _ _ _ _ _ _ _ Hres Hts Hrun)
    as [Hv|(vs & used & pt & _ & _ & ?)]; [|done].
  destruct (attribute_values_Elog_at E rel ts cmd rr _ 1 _ _ ltac:(lia) Hv)
    as (i & att & _ & Hatt & [([= ->] & Hlen)|Hm]).
  - split; [|exact Hlen]. exists att. split; [|done].
    by eapply list_elem_of_lookup_2.
  - by apply missing_expr_Elog in Hm
      as [(_ & c & t1 & t2 & ?)|(_ & _ & ?)].
Qed.

(** X7.  UPDATE: an attribute that no visible source entry assigns gets
    an entry that copies the row's present value: a visible entry at the
    attribute's place, with the attribute's number, name, type and type
    modifier, whose expression is a Var for that attribute of the result
    relation. *)
Theorem X7_update_keeps_unassigned tlist ts rr rt rel s out s' (i : nat) att :
  resolves E rt rr rel ->
  Forall2 (points_to s) tlist ts ->
  expand_targetlist E tlist CMD_UPDATE rr rt s = (Done out, s') ->
  attrs (rd_att rel) !! i = Some att ->
  List.filter (assigns (attname att)) ts = [] ->
  DROP_COLUMN_HACK E && COLUMN_IS_DROPPED att = false ->
  exists p,
    out !! i = Some p /\
    points_to s' p
      (mkTargetEntry
         (makeResdom (Z.of_nat i + 1) (atttypid att) (atttypmod att)
                     (attname att) false)
         (Some (makeVar rr (Z.of_nat i + 1) (atttypid att)
                        (atttypmod att) 0))).
Proof.
  intros Hres Hts Hrun Hatt Hnone Hlive.
  destruct (expand_targetlist_attr_entries E _ _ _ _ _ _ _ _ _ Hres Hts Hrun)
    as (vs & used & Hvals & _ & Hent).
  pose proof (lookup_lt_Some _ _ _ Hatt) as Hi.
  destruct (attribute_values_unmatched_entry E rel ts CMD_UPDATE rr _ 1 _ vs
              used i att ltac:(lia) Hi Hatt Hnone Hvals) as (e & He & Hv).
  unfold missing_expr in He. rewrite Hlive in He. simpl in He.
  injection He as <-.
  replace (1 + Z.of_nat i) with (Z.of_nat i + 1) in Hv by lia.
  exact (Hent i _ Hv).
Qed.

(** X8.  INSERT: an attribute that no visible source entry assigns gets
    a visible entry at the attribute's place, with the attribute's
    number, name, type and type modifier, whose expression is the one
    [build_column_default] returns for that column. *)
Theorem X8_insert_fills_default tlist ts rr rt rel s out s' (i : nat) att :
  resolves E rt rr rel ->
  Forall2 (points_to s) tlist ts ->
  expand_targetlist E tlist CMD_INSERT rr rt s = (Done out, s') ->
  attrs (rd_att rel) !! i = Some att ->
  List.filter (assigns (attname att)) ts = [] ->
  exists p e,
    out !! i = Some p /\
    build_column_default E rel (Z.of_nat i + 1) = Done e /\
    points_to s' p
      (mkTargetEntry
         (makeResdom (Z.of_nat i + 1) (atttypid att) (atttypmod att)
                     (attname att) false) e).
Proof.
  intros Hres Hts Hrun Hatt Hnone.
  destruct (expand_targetlist_attr_entries E _ _ _ _ _ _ _ _ _ Hres Hts Hrun)
    as (vs & used & Hvals & _ & Hent).
  pose proof (lookup_lt_Some _ _ _ Hatt) as Hi.
  destruct (attribute_values_unmatched_entry E rel ts CMD_INSERT rr _ 1 _ vs
              used i att ltac:(lia) Hi Hatt Hnone Hvals) as (e & He & Hv).
  unfold missing_expr in He. simpl in He.
  replace (1 + Z.of_nat i) with (Z.of_nat i + 1) in *  by lia.
  destruct (Hent i _ Hv) as (p & Hp & Hpt). by exists p, e.
Qed.

(** X9.  The entry of an assigned attribute has the attribute's number
    (a number within the range of the position field) as position number
    and, in every other field of its descriptor (name, type, type
    modifier, sort and key fields, junk flag), what the attribute's last
    visible assignment in the source list has: type and type modifier
    are not taken from the attribute.  When it is the attribute's only
    assignment the expression is that entry's too. *)
Theorem X9_assigned_entry_descriptor tlist ts cmd rr rt rel s out s'
    (i : nat) att earlier last :
  resolves E rt rr rel ->
  Forall2 (points_to s) tlist ts ->
  expand_targetlist E tlist cmd rr rt s = (Done out, s') ->
  attrs (rd_att rel) !! i = Some att ->
  first_named rel (attname att) i ->
  List.filter (assigns (attname att)) ts = earlier ++ [last] ->
  fits_AttrNumber (Z.of_nat i + 1) ->
  exists p t,
    out !! i = Some p /\ points_to s' p t /\
    resno (resdom t) = Z.of_nat i + 1 /\
    restype (resdom t) = restype (resdom last) /\
    restypmod (resdom t) = restypmod (resdom last) /\
    resname (resdom t) = resname (resdom last) /\
    ressortgroupref (resdom t) = ressortgroupref (resdom last) /\
    reskey (resdom t) = reskey (resdom last) /\
    reskeyop (resdom t) = reskeyop (resdom last) /\
    resjunk (resdom t) = resjunk (resdom last) /\
    (earlier = [] -> expr t = expr last).
Proof.
  intros Hres Hts Hrun Hatt Hfirst Hcand _.
  destruct (expand_targetlist_attr_entries E _ _ _ _ _ _ _ _ _ Hres Hts Hrun)
    as (vs & used & Hvals & _ & Hent).
  pose proof (lookup_lt_Some _ _ _ Hatt) as Hi.
  pose proof (attribute_values_nth E rel ts cmd rr _ 1 _ i att vs used
                ltac:(lia) Hi (used_inv_nil rel ts _ _) Hatt Hfirst Hvals)
    as Hnth.
  rewrite Hcand in Hnth.
  replace (1 + Z.of_nat i) with (Z.of_nat i + 1) in Hnth by lia.
  destruct (merge_matches (Z.of_nat i + 1) None (earlier ++ [last]))
    as [[t|]|] eqn:Hm; [| |done].
  - destruct (Hent i t Hnth) as (p & Hp & Hpt). exists p, t.
    split; [exact Hp|]. split; [exact Hpt|].
    rewrite (merge_matches_last _ _ _ _ _ Hm). simpl.
    repeat (split; [reflexivity|]).
    intros ->. simpl in Hm. unfold merged_entry in Hm.
    by destruct (_ =? _); injection Hm as <-.
  - apply merge_matches_none in Hm. by destruct earlier.
Qed.

(** X10.  The expansion fails with DefaultTypeMismatch for INSERT only,
    and only over a column that has a stored default: the error names an
    attribute of the relation and its type, the default found for the
    attribute's number has another type, the one the error reports, and
    the coercion of the default to the attribute's base type failed.
    When no earlier attribute has the same name, the source list has no
    visible entry for that attribute. *)
Theorem X10_default_mismatch_named tlist ts cmd rr rt rel s c t1 t2 s' :
  resolves E rt rr rel ->
  Forall2 (points_to s) tlist ts ->
  expand_targetlist E tlist cmd rr rt s
    = (Elog (DefaultTypeMismatch c t1 t2), s') ->
  cmd = CMD_INSERT /\
  exists (i : nat) att cs d,
    attrs (rd_att rel) !! i = Some att /\
    attname att = c /\ atttypid att = t1 /\
    constr (rd_att rel) = Some cs /\
    scan_defval (defval cs) (length (defval cs)) (Z.of_nat i + 1) = Some d /\
    exprType E (stringToNode E (adbin d)) = t2 /\ t2 <> t1 /\
    CoerceTargetExpr E (stringToNode E (adbin d)) t2 (getBaseType E t1)
      (atttypmod att) = None /\
    (first_named rel c i -> List.filter (assigns c) ts = []).
Proof.
  intros Hres Hts Hrun.
  destruct (expand_targetlist_Elog E _ _ _ _ _ _ _ _ _ Hres Hts Hrun)
    as [Hv|(vs & used & pt & _ & _ & ?)]; [|done].
  destruct (attribute_values_Elog_missing E rel ts cmd rr _ 1 _ _ ltac:(lia)
              (used_inv_nil rel ts _ _) Hv ltac:(done))
    as (i & att & _ & Hatt & Hm & Hnone).
  simpl in Hatt, Hnone. unfold missing_expr in Hm.
  destruct (cmd =? CMD_INSERT) eqn:Hc.
  2:{ destruct (cmd =? CMD_UPDATE); [|done].
      by destruct (DROP_COLUMN_HACK E && COLUMN_IS_DROPPED att). }
  apply Z.eqb_eq in Hc. split; [exact Hc|].
  apply build_column_default_Elog_inv in Hm
    as (att' & cs & d & _ & Hatt' & Hcs & Hd & Hne & Hco & He).
  replace (Z.to_nat (1 + Z.of_nat i - 1)) with i in Hatt' by lia.
  rewrite Hatt in Hatt'. injection Hatt' as <-.
  injection He as -> -> ->.
  replace (1 + Z.of_nat i) with (Z.of_nat i + 1) in Hd by lia.
  exists i, att, cs, d. by repeat split.
Qed.

End ExpandProperties.

(* ================================================================== *)
(** ** When the expansion succeeds *)
(* ================================================================== *)

Lemma map_lookup_Some_2 {A B} (f : A -> B) (l : list A) (i : nat) x :
  l !! i = Some x -> map f l !! i = Some (f x).
Proof.
  revert i. induction l as [|x0 l IH]; intros [|i] H; simpl in *; try done.
  - by injection H as <-.
  - by apply IH.
Qed.

Lemma merge_matches_None_inv attrno ms : forall pre p,
  pre <> [] ->
  merge_matches attrno None pre = Some (Some p) ->
  merge_matches attrno (Some p) ms = None ->
  conflicting (pre ++ ms).
Proof.
  induction ms as [|m ms IH]; intros pre p Hne Hpre H; [done|].
  cbn [merge_matches] in H.
  destruct (merged_entry attrno (Some p) m) as [t|] eqn:Hm.
  - replace (pre ++ m :: ms) with ((pre ++ [m]) ++ ms)
      by by rewrite <- app_assoc.
    apply (IH (pre ++ [m]) t); [by destruct pre| |exact H].
    rewrite merge_matches_app, Hpre. cbn [merge_matches]. by rewrite Hm.
  - exists pre, m, ms. split; [done|]. split; [done|].
    rewrite <- (merge_matches_merged _ _ _ Hpre).
    intros Hok. apply merge_ok_spec in Hok. unfold merged_entry in Hm.
    by rewrite Hok in Hm.
Qed.

(** The candidates of an attribute fail to merge only when they are
    conflicting. *)
Lemma merge_matches_conflicting attrno ms :
  merge_matches attrno None ms = None -> conflicting ms.
Proof.
  destruct ms as [|m ms]; [done|]. cbn [merge_matches].
  destruct (merged_entry attrno None m) as [t|] eqn:Hm.
  - intros H. apply (merge_matches_None_inv attrno ms [m] t); [done| |done].
    cbn [merge_matches]. by rewrite Hm.
  - unfold merged_entry in Hm. by destruct (_ =? _).
Qed.

Lemma NoDup_first_named rel (i : nat) att :
  NoDup (map attname (attrs (rd_att rel))) ->
  attrs (rd_att rel) !! i = Some att -> first_named rel (attname att) i.
Proof.
  intros Hnd Hatt k' att' Hk Hatt' Heq.
  apply (map_lookup_Some_2 attname) in Hatt, Hatt'. rewrite Heq in Hatt'.
  pose proof (NoDup_lookup _ _ _ _ Hnd Hatt Hatt'). lia.
Qed.

Lemma not_array_assignment_base b :
  ~ array_assignment b -> innermost_base_of b = b.
Proof.
  intros Hb. destruct b as [n|]; [|done]. simpl.
  destruct n as [| |al el et eb up lo base [v|]|]; try done.
  exfalso. apply Hb. by repeat eexists.
Qed.

Lemma nest_assignments_same b et : forall later inner,
  array_assignment inner -> refelemtype_of inner = et ->
  innermost_base_of inner = b ->
  Forall (fun e => array_assignment e /\ refelemtype_of e = et) later ->
  array_assignment (nest_assignments inner later) /\
  refelemtype_of (nest_assignments inner later) = et /\
  innermost_base_of (nest_assignments inner later) = b.
Proof.
  induction later as [|e later IH]; intros inner Ha Ht Hb Hall; [done|].
  apply Forall_cons in Hall as [[He Het] Hall]. simpl. apply IH; [| | |done].
  - destruct He as (al & el & et' & eb & up & lo & base & v & ->). simpl.
    by repeat eexists.
  - destruct He as (al & el & et' & eb & up & lo & base & v & ->). done.
  - destruct He as (al & el & et' & eb & up & lo & base & v & ->). simpl.
    destruct inner as [n|]; [exact Hb|].
    by destruct Ha as (? & ? & ? & ? & ? & ? & ? & ? & ?).
Qed.

(** Assignments to elements of one array never conflict, however many
    they are. *)
Lemma same_array_not_conflicting b et ms :
  same_array b et ms -> ~ conflicting ms.
Proof.
  intros [Hb Hall] (pre & m & post & -> & Hne & Hnot). apply Hnot.
  apply Forall_app in Hall as [Hpre Hpost].
  apply Forall_cons in Hpost as [(Hm & Hmb & Hmt) _].
  destruct pre as [|e0 pre]; [done|].
  apply Forall_cons in Hpre as [(He0 & He0b & He0t) Hpre].
  simpl.
  destruct (nest_assignments_same b et (map expr pre) (expr e0))
    as (Ha & Ht & Hbase); [done|done| |
      |].
  - destruct He0 as (al & el & et' & eb & up & lo & base & v & Heq).
    rewrite Heq in *. simpl in *. subst base.
    pose proof (not_array_assignment_base _ Hb) as Hib.
    by destruct b.
  - apply List.Forall_map. eapply Forall_impl; [exact Hpre|].
    by intros x (? & _ & ?).
  - split; [done|]. split; [done|]. split; [by rewrite Hmt, Ht|].
    by rewrite Hbase, Hmb.
Qed.

Lemma short_not_conflicting (ms : list TargetEntry) :
  (length ms <= 1)%nat -> ~ conflicting ms.
Proof.
  intros Hlen (pre & m & post & -> & Hne & _).
  rewrite length_app in Hlen. simpl in Hlen. destruct pre; [done|].
  simpl in Hlen. lia.
Qed.

Section ExpandSuccess.
Variable E : Collaborators.
Variable rel : Relation.
Variable ts : list TargetEntry.
Variable cmd : Z.
Variable rr : Index.

Lemma attribute_values_Done todo : forall attrno used,
  1 <= attrno ->
  (Z.to_nat (attrno - 1) + todo <= length (attrs (rd_att rel)))%nat ->
  used_inv rel ts (Z.to_nat (attrno - 1)) used ->
  NoDup (map attname (attrs (rd_att rel))) ->
  no_conflict rel ts -> missing_ok E rel ts cmd rr ->
  exists vs used',
    attribute_values E rel ts cmd rr todo attrno used = Done (vs, used').
Proof.
  induction todo as [|todo IH];
    intros attrno used Hle Hlen Hinv Hnd Hnc Hmiss; [simpl; eauto|].
  cbn [attribute_values].
  destruct (attrs (rd_att rel) !! Z.to_nat (attrno - 1)) as [att|] eqn:Hatt.
  2:{ apply lookup_ge_None in Hatt. lia. }
  pose proof (scan_first rel ts _ _ _ Hinv (NoDup_first_named _ _ _ Hnd Hatt))
    as Hscan.
  pose proof (used_inv_step rel ts _ _ _ Hatt Hinv) as Hinv'.
  destruct (scan (attname att) ts 0 used) as [ms used1]. simpl in Hscan, Hinv'.
  subst ms.
  assert (Hk : Z.to_nat (attrno + 1 - 1) = S (Z.to_nat (attrno - 1))) by lia.
  destruct (IH (attrno + 1) used1) as (vs1 & u1 & Hrest);
    [lia|rewrite Hk; lia|by rewrite Hk|done|done|done|].
  rewrite Hrest.
  destruct (merge_matches attrno None _) as [[t|]|] eqn:Hm.
  - simpl. eauto.
  - apply merge_matches_none in Hm.
    destruct (Hmiss _ _ Hatt Hm) as [e He].
    replace (Z.of_nat (Z.to_nat (attrno - 1)) + 1) with attrno in He by lia.
    rewrite He. simpl. eauto.
  - exfalso. apply merge_matches_conflicting in Hm.
    eapply Hnc; [|exact Hm]. by eapply list_elem_of_lookup_2.
Qed.

(** The conditions under which the expansion returns a list. *)
Lemma expand_targetlist_succeeds tlist rt s :
  resolves E rt rr rel ->
  Forall2 (points_to s) tlist ts ->
  NoDup (map attname (attrs (rd_att rel))) ->
  no_conflict rel ts -> no_stray rel ts -> missing_ok E rel ts cmd rr ->
  exists out s', expand_targetlist E tlist cmd rr rt s = (Done out, s').
Proof.
  intros Hres Hts Hnd Hnc Hns Hmiss.
  destruct (expand_targetlist_run E tlist ts cmd rr rt rel s Hres Hts)
    as (r & s1 & Hrun & _ & _ & Hcase).
  destruct (attribute_values_Done (length (attrs (rd_att rel))) 1
              (replicate (length tlist + 1) false))
    as (vs & used & Hvals);
    [lia|simpl; lia|apply used_inv_nil|done|done|done|].
  rewrite Hvals in Hcase.
  destruct (first_visible _) as [pt|] eqn:Hfv.
  - exfalso. apply first_visible_Some in Hfv as [Hin Hvis].
    apply unprocessed_elem in Hin as (j & Hj & Hu). simpl in Hu.
    apply zip_lookup_snd in Hj.
    destruct (Hns (snd pt)) as (att & Hatt & Hname);
      [by eapply list_elem_of_lookup_2|done|].
    apply list_elem_of_lookup in Hatt as [i Hatt].
    pose proof (lookup_lt_Some _ _ _ Hatt) as Hi.
    assert (Hm : default false (used !! j) = true).
    { eapply (attribute_values_marks E rel ts cmd rr _ 1 _ vs used i att j
                (snd pt)); [lia|exact Hi| |exact Hatt|exact Hj| |exact Hvals].
      - rewrite length_replicate.
        pose proof (Forall2_length _ _ _ Hts). lia.
      - apply assigns_spec. done. }
    congruence.
  - destruct Hcase as (ps & qs & -> & _). eauto.
Qed.

(** What a returned list tells about the source list. *)
Lemma expand_targetlist_succeeded tlist rt s out s' :
  resolves E rt rr rel ->
  Forall2 (points_to s) tlist ts ->
  NoDup (map attname (attrs (rd_att rel))) ->
  expand_targetlist E tlist cmd rr rt s = (Done out, s') ->
  no_conflict rel ts /\ no_stray rel ts /\ missing_ok E rel ts cmd rr.
Proof.
  intros Hres Hts Hnd Hrun.
  destruct (expand_targetlist_Done E _ _ _ _ _ _ _ _ _ Hres Hts Hrun)
    as (vs & used & ps & qs & Hvals & Hfv & -> & Hps & Hf & _).
  split; [|split].
  - intros att Hatt Hc. apply list_elem_of_lookup in Hatt as [i Hatt].
    pose proof (lookup_lt_Some _ _ _ Hatt) as Hi.
    pose proof (attribute_values_nth E rel ts cmd rr _ 1 _ i att vs used
                  ltac:(lia) Hi (used_inv_nil rel ts _ _) Hatt
                  (NoDup_first_named _ _ _ Hnd Hatt) Hvals) as Hnth.
    by rewrite (conflicting_merge_matches _ _ Hc) in Hnth.
  - intros t Ht Hvis. apply list_elem_of_lookup in Ht as [j Hj].
    destruct (default false (used !! j)) eqn:Hu.
    + pose proof (attribute_values_used_inv E rel ts cmd rr _ 1 _ vs used
                    ltac:(lia) (used_inv_nil rel ts _ _) Hvals) as Hinv.
      destruct (Hinv j Hu) as (t' & k' & att' & Ht' & _ & Hatt' & Hn).
      rewrite Hj in Ht'. injection Ht' as <-.
      exists att'. split; [by eapply list_elem_of_lookup_2|done].
    + exfalso.
      pose proof (elem_unprocessed ts 0 used j t Hj Hu) as Hin.
      rewrite <- (unprocessed_snd tlist ts 0 used (Forall2_length _ _ _ Hts))
        in Hin.
      apply first_visible_None in Hfv.
      apply (List.Forall_map snd (fun t => resjunk (resdom t) = true)) in Hfv.
      rewrite Forall_forall in Hfv. specialize (Hfv t Hin). congruence.
  - intros i att Hatt Hnone.
    pose proof (lookup_lt_Some _ _ _ Hatt) as Hi.
    destruct (attribute_values_unmatched E rel ts cmd rr _ 1 _ vs used i att
                ltac:(lia) Hi Hatt Hnone Hvals) as [e He].
    exists e. by replace (Z.of_nat i + 1) with (1 + Z.of_nat i) by lia.
Qed.

End ExpandSuccess.

Section ExpandSuccessTheorems.
Variable E : Collaborators.

(** X11.  For a relation whose attribute names are distinct, the
    expansion for UPDATE returns a list exactly when no attribute has
    assignments that cannot be merged and every visible entry of the
    source list carries the name of an attribute. *)
Theorem X11_update_succeeds_iff tlist ts rr rt rel s :
  resolves E rt rr rel ->
  Forall2 (points_to s) tlist ts ->
  NoDup (map attname (attrs (rd_att rel))) ->
  (exists out s',
     expand_targetlist E tlist CMD_UPDATE rr rt s = (Done out, s')) <->
  (no_conflict rel ts /\ no_stray rel ts).
Proof.
  intros Hres Hts Hnd. split.
  - intros (out & s' & Hrun).
    destruct (expand_targetlist_succeeded E rel ts CMD_UPDATE rr tlist rt s
                out s' Hres Hts Hnd Hrun) as (Hnc & Hns & _). done.
  - intros [Hnc Hns].
    apply (expand_targetlist_succeeds E rel ts); try done.
    intros i att _ _. unfold missing_expr. simpl.
    destruct (DROP_COLUMN_HACK E && COLUMN_IS_DROPPED att); eauto.
Qed.

(** X12.  For a relation whose attribute names are distinct, the
    expansion for INSERT returns a list exactly when no attribute has
    assignments that cannot be merged, every visible entry of the source
    list carries the name of an attribute, and [build_column_default]
    returns an expression for every attribute no visible entry
    assigns. *)
Theorem X12_insert_succeeds_iff tlist ts rr rt rel s :
  resolves E rt rr rel ->
  Forall2 (points_to s) tlist ts ->
  NoDup (map attname (attrs (rd_att rel))) ->
  (exists out s',
     expand_targetlist E tlist CMD_INSERT rr rt s = (Done out, s')) <->
  (no_conflict rel ts /\ no_stray rel ts /\
   forall (i : nat) att,
     attrs (rd_att rel) !! i = Some att ->
     List.filter (assigns (attname att)) ts = [] ->
     exists e, build_column_default E rel (Z.of_nat i + 1) = Done e).
Proof.
  intros Hres Hts Hnd. split.
  - intros (out & s' & Hrun).
    exact (expand_targetlist_succeeded E rel ts CMD_INSERT rr tlist rt s
             out s' Hres Hts Hnd Hrun).
  - intros (Hnc & Hns & Hmiss).
    by apply (expand_targetlist_succeeds E rel ts).
Qed.

(** X13.  Assignments to elements of one array column never conflict,
    however many there are: an UPDATE whose visible entries all name
    attributes, and where each attribute has at most one assignment or
    only element assignments of one element type on one base, expands to
    a list. *)
Theorem X13_array_assignments_merge tlist ts rr rt rel s :
  resolves E rt rr rel ->
  Forall2 (points_to s) tlist ts ->
  NoDup (map attname (attrs (rd_att rel))) ->
  no_stray rel ts ->
  (forall att, att ∈ attrs (rd_att rel) ->
     (length (List.filter (assigns (attname att)) ts) <= 1)%nat \/
     exists b et, same_array b et (List.filter (assigns (attname att)) ts)) ->
  exists out s',
    expand_targetlist E tlist CMD_UPDATE rr rt s = (Done out, s').
Proof.
  intros Hres Hts Hnd Hns Hall.
  apply (expand_targetlist_succeeds E rel ts); try done.
  - intros att Hatt.
    destruct (Hall att Hatt) as [Hshort|(b & et & Hsame)].
    + by apply short_not_conflicting.
    + by eapply same_array_not_conflicting.
  - intros i att _ _. unfold missing_expr. simpl.
    destruct (DROP_COLUMN_HACK E && COLUMN_IS_DROPPED att); eauto.
Qed.

End ExpandSuccessTheorems.

(* ================================================================== *)
(** ** The default of a column *)
(* ================================================================== *)

Lemma scan_defval_take defval attrno : forall n,
  (n <= length defval)%nat ->
  scan_defval defval n attrno
  = List.find (fun d => attrno =? adnum d) (rev (take n defval)).
Proof.
  induction n as [|n IH]; intros Hn; [done|].
  destruct (lookup_lt_is_Some_2 defval n ltac:(lia)) as [d Hd].
  cbn [scan_defval]. rewrite Hd, (take_S_r _ _ _ Hd), rev_unit. simpl.
  destruct (attrno =? adnum d); [done|]. apply IH. lia.
Qed.

Lemma find_None_intro {A} (f : A -> bool) (l : list A) :
  (forall x, In x l -> f x = false) -> List.find f l = None.
Proof.
  induction l as [|x l IH]; intros H; [done|]. simpl.
  rewrite (H x (or_introl eq_refl)). apply IH. intros y Hy. apply H. by right.
Qed.

Lemma scan_defval_None defval attrno :
  Forall (fun d => adnum d <> attrno) defval ->
  scan_defval defval (length defval) attrno = None.
Proof.
  intros Hall. rewrite scan_defval_take by done.
  rewrite firstn_all. apply find_None_intro. intros d Hd.
  apply in_rev, list_elem_of_In in Hd.
  rewrite Forall_forall in Hall. specialize (Hall d Hd).
  apply Z.eqb_neq. congruence.
Qed.

Section DefaultProperties.
Variable E : Collaborators.

(** X14.  The stored defaults are searched from the end of the array:
    of several defaults stored for one column number the last one in the
    array is found, and none is found when no entry carries the number. *)
Theorem X14_last_default_wins defval attrno :
  scan_defval defval (length defval) attrno
  = List.find (fun d => attrno =? adnum d) (rev defval).
Proof. rewrite scan_defval_take by done. by rewrite firstn_all. Qed.

(** X15.  A column without a stored default never fails: the result is
    the length coercion of an expression that is there.  For a set
    attribute this is the NULL constant of the column's type with the
    length of an OID, passed by value, and the type's default is not
    consulted; otherwise it is the type's default when the type has one,
    and a NULL constant of the column's type when it has none. *)
Theorem X15_no_stored_default rel attrno att :
  1 <= attrno ->
  attrs (rd_att rel) !! Z.to_nat (attrno - 1) = Some att ->
  (forall cs, constr (rd_att rel) = Some cs ->
     Forall (fun d => adnum d <> attrno) (defval cs)) ->
  exists e,
    build_column_default E rel attrno
    = Done (coerce_type_typmod E (Some e) (atttypid att) (atttypmod att)) /\
    (attisset att = true ->
       e = makeConst (atttypid att) sizeof_Oid 0 true true false false) /\
    (attisset att = false ->
       DROP_COLUMN_HACK E && COLUMN_IS_DROPPED att = false ->
       match get_typdefault E (atttypid att) (atttypmod att) with
       | Some d => e = d
       | None => exists len byval,
           e = makeConst (atttypid att) len 0 true byval false false
       end).
Proof.
  intros Hle Hatt Hnone. unfold build_column_default.
  destruct (attrno <? 1) eqn:Hlt; [lia|]. rewrite Hatt.
  assert (Hfound :
    match constr (rd_att rel) with
    | Some c => if 0 <? num_defval c
                then scan_defval (defval c) (Z.to_nat (num_defval c)) attrno
                else None
    | None => None
    end = None).
  { destruct (constr (rd_att rel)) as [cs|] eqn:Hcs; [|done].
    destruct (0 <? num_defval cs); [|done].
    unfold num_defval. rewrite Nat2Z.id.
    apply scan_defval_None. by apply Hnone. }
  rewrite Hfound.
  destruct (attisset att) eqn:Hset.
  - eexists. split; [reflexivity|]. split; [done|]. intros [=].
  - destruct (DROP_COLUMN_HACK E && COLUMN_IS_DROPPED att) eqn:Hhack.
    + simpl. eexists. split; [reflexivity|]. split; [intros [=]|].
      intros _ [=].
    + destruct (get_typdefault E (atttypid att) (atttypmod att)) as [d|];
        simpl.
      * exists d. split; [reflexivity|]. split; [intros [=]|]. done.
      * eexists. split; [reflexivity|]. split; [intros [=]|].
        intros _ _. eauto.
Qed.

End DefaultProperties.

(* ================================================================== *)
(** ** The driver *)
(* ================================================================== *)

Section DriverProperties.
Variable E : Collaborators.

(** A returned expansion, by the values of its entries: every pointer
    of the result is valid and its entry is numbered by its place. *)
Lemma expand_targetlist_entries tlist ts cmd rr rt rel s out s' :
  resolves E rt rr rel ->
  Forall2 (points_to s) tlist ts ->
  expand_targetlist E tlist cmd rr rt s = (Done out, s') ->
  exists es,
    Forall2 (points_to s') out es /\
    forall (i : nat) t, es !! i = Some t ->
      resno (resdom t) = Z.of_nat i + 1.
Proof.
  intros Hres Hts Hrun.
  pose proof (expand_targetlist_positions E _ _ _ _ _ _ _ _ _ Hres Hts Hrun)
    as Hpos.
  destruct (expand_targetlist_Done E _ _ _ _ _ _ _ _ _ Hres Hts Hrun)
    as (vs & used & ps & qs & Hvals & Hfv & -> & Hps & Hf & _).
  destruct (forwarded_values _ _ _ _ _ Hf (first_visible_None _ Hfv))
    as (eq & Hqs & _).
  assert (Hall : Forall2 (points_to s') (ps ++ qs) (vs ++ eq))
    by by apply Forall2_app.
  exists (vs ++ eq). split; [exact Hall|]. intros i t Hi.
  destruct (Forall2_lookup_r _ _ _ _ _ Hall Hi) as (p & Hp & Hpt).
  exact (Hpos i p t Hp Hpt).
Qed.

(** X16.  When the result relation's range table entry is a subquery,
    or has no relation, the call fails with ResultRelationInvalid
    whatever the command kind and the target list, and before anything
    is allocated or locked. *)
Theorem X16_result_relation_rejected tlist cmd rr rt s rte :
  1 <= rr ->
  rt !! Z.to_nat (rr - 1) = Some rte ->
  subquery rte <> None \/ relid rte = InvalidOid ->
  preprocess_targetlist E tlist cmd rr rt s = (Elog ResultRelationInvalid, s).
Proof.
  intros Hle Hrte Hbad. rewrite preprocess_targetlist_unfold.
  rewrite run_bind. unfold check_result_relation, rt_fetch.
  destruct (rr =? 0) eqn:H0; [lia|]. simpl. rewrite run_bind.
  destruct (rr <? 1) eqn:H1; [lia|]. rewrite Hrte, run_ret.
  destruct Hbad as [Hsub|Hrel].
  - destruct (subquery rte); [done|]. done.
  - rewrite Hrel. by rewrite orb_true_r.
Qed.

(** X17.  For a command kind that is none of INSERT, UPDATE and DELETE,
    a call that passes the check of the result relation returns the list
    it was given, the same list and not a copy, and changes nothing. *)
Theorem X17_other_commands_unchanged tlist cmd rr rt s :
  result_relation_ok rr rt ->
  cmd <> CMD_INSERT -> cmd <> CMD_UPDATE -> cmd <> CMD_DELETE ->
  preprocess_targetlist E tlist cmd rr rt s = (Done tlist, s).
Proof.
  intros Hok Hi Hu Hd. rewrite preprocess_targetlist_unfold.
  rewrite run_bind, (check_result_relation_ok _ _ _ Hok).
  destruct (cmd =? CMD_INSERT) eqn:H1; [lia|].
  destruct (cmd =? CMD_UPDATE) eqn:H2; [lia|].
  destruct (cmd =? CMD_DELETE) eqn:H3; [lia|]. reflexivity.
Qed.

(** X18.  For INSERT the list returned holds the entries of the
    expansion and nothing else: no row-identifier entry is appended and
    no entry is allocated beyond those of the expansion. *)
Theorem X18_insert_result tlist rr rt s old new s1 :
  result_relation_ok rr rt ->
  list_contents_in (cells s) tlist = Some old ->
  expand_targetlist E old CMD_INSERT rr rt s = (Done new, s1) ->
  exists out s',
    preprocess_targetlist E tlist CMD_INSERT rr rt s = (Done out, s') /\
    list_contents_in (cells s') out = Some new /\
    tles s' = tles s1 /\ locks s' = locks s1.
Proof.
  intros Hok Hold Hexp. rewrite preprocess_targetlist_unfold.
  rewrite run_bind, (check_result_relation_ok _ _ _ Hok).
  change ((CMD_INSERT =? CMD_INSERT) || (CMD_INSERT =? CMD_UPDATE)) with true.
  change ((CMD_INSERT =? CMD_UPDATE) || (CMD_INSERT =? CMD_DELETE))
    with false.
  rewrite run_bind, run_bind, (list_contents_run _ _ _ Hold).
  rewrite run_bind, Hexp.
  destruct (lappend_all_run new NIL s1 [])
    as (l1 & s2 & Hrun2 & Hc2 & Ht2 & Hl2);
    [unfold list_contents_in; apply contents_from_NIL|].
  rewrite Hrun2. simpl in Hc2. rewrite run_ret. by exists l1, s2.
Qed.

(** X19.  For INSERT and UPDATE an error of the expansion is the error
    of the call, and the call stops there: the state is the one the
    expansion left, so for UPDATE no row-identifier entry is made. *)
Theorem X19_expansion_error_propagates tlist cmd rr rt s old e s1 :
  result_relation_ok rr rt ->
  cmd = CMD_INSERT \/ cmd = CMD_UPDATE ->
  list_contents_in (cells s) tlist = Some old ->
  expand_targetlist E old cmd rr rt s = (Elog e, s1) ->
  preprocess_targetlist E tlist cmd rr rt s = (Elog e, s1).
Proof.
  intros Hok Hcmd Hold Hexp. rewrite preprocess_targetlist_unfold.
  rewrite run_bind, (check_result_relation_ok _ _ _ Hok).
  assert ((cmd =? CMD_INSERT) || (cmd =? CMD_UPDATE) = true) as ->
    by by destruct Hcmd as [->| ->].
  rewrite run_bind, run_bind, (list_contents_run _ _ _ Hold).
  by rewrite run_bind, Hexp.
Qed.

(** X20.  For UPDATE the list returned is numbered consecutively from 1
    through to the row-identifier entry at its end: one entry per
    attribute, then the junk entries of the source list, then the row
    identifier, each carrying its place in the list as position number;
    and the locks held after the call are those held before.  The list
    is short enough for the row identifier's number to be within the
    range of the position field. *)
Theorem X20_update_numbering tlist ts rr rt rel s old base s1 :
  result_relation_ok rr rt ->
  resolves E rt rr rel ->
  list_contents_in (cells s) tlist = Some old ->
  Forall2 (points_to s) old ts ->
  expand_targetlist E old CMD_UPDATE rr rt s = (Done base, s1) ->
  fits_AttrNumber (Z.of_nat (length base) + 1) ->
  exists out s' l,
    preprocess_targetlist E tlist CMD_UPDATE rr rt s = (Done out, s') /\
    list_contents_in (cells s') out = Some l /\
    length l = (length (attrs (rd_att rel))
                + length (List.filter (fun t => resjunk (resdom t)) ts)
                + 1)%nat /\
    length (entries_of s' l) = length l /\
    map (fun t => resno (resdom t)) (entries_of s' l)
      = seqZ 1 (Z.of_nat (length l)) /\
    locks s' = locks s.
Proof.
  intros Hok Hres Hold Hts Hexp _. rewrite preprocess_targetlist_unfold.
  rewrite run_bind, (check_result_relation_ok _ _ _ Hok).
  change ((CMD_UPDATE =? CMD_INSERT) || (CMD_UPDATE =? CMD_UPDATE)) with true.
  change ((CMD_UPDATE =? CMD_UPDATE) || (CMD_UPDATE =? CMD_DELETE)) with true.
  rewrite run_bind, run_bind, (list_contents_run _ _ _ Hold).
  rewrite run_bind, Hexp.
  destruct (lappend_all_run base NIL s1 [])
    as (l1 & s2 & Hrun2 & Hc2 & Ht2 & Hl2);
    [unfold list_contents_in; apply contents_from_NIL|].
  rewrite Hrun2. simpl in Hc2.
  destruct (add_ctid_run CMD_UPDATE rr l1 s2 base Hc2)
    as (out & s' & Hrun & Hc & Ht & Hl & _).
  exists out, s', (base ++ [length (tles s2)]).
  split; [exact Hrun|]. split; [exact Hc|].
  destruct (expand_targetlist_entries _ _ _ _ _ _ _ _ _ Hres Hts Hexp)
    as (es & Hes & Hpos).
  pose proof (Forall2_length _ _ _ Hes) as Hlen.
  assert (Hall : Forall2 (points_to s') (base ++ [length (tles s2)])
                         (es ++ [ctid_entry rr (length base)])).
  { apply Forall2_app.
    - eapply Forall2_impl; [exact Hes|]. intros p t Hp.
      unfold points_to in *. rewrite Ht, Ht2.
      by apply lookup_app_l_Some.
    - constructor; [|constructor]. unfold points_to.
      rewrite Ht, lookup_app_r by done. by rewrite Nat.sub_diag. }
  rewrite (entries_of_points_to _ _ _ Hall).
  split; [|split; [|split]].
  - rewrite length_app. simpl.
    destruct (expand_targetlist_tail E _ _ _ _ _ _ _ _ _ Hres Hts Hexp)
      as [Hlb _]. lia.
  - by rewrite (Forall2_length _ _ _ Hall).
  - rewrite <- (map_id (seqZ 1 _)).
    apply map_eq_by_lookup;
      [rewrite length_seqZ, <- (Forall2_length _ _ _ Hall); lia|].
    intros i t z Hi Hz. apply lookup_seqZ in Hz as [-> _].
    apply lookup_app_Some in Hi as [Hi|[Hge Hi]].
    + rewrite (Hpos i t Hi). lia.
    + apply list_lookup_singleton_Some in Hi as [Hi0 <-]. simpl. lia.
  - destruct (expand_targetlist_Done E _ _ _ _ _ _ _ _ _ Hres Hts Hexp)
      as (_ & _ & _ & _ & _ & _ & _ & _ & _ & Hlk).
    by rewrite Hl, Hl2.
Qed.

End DriverProperties.

(* ================================================================== *)
(** ** Expansion of a list that is already expanded *)
(* ================================================================== *)

(** A scan that meets no candidate calls nothing and marks nothing. *)
Lemma match_attribute_skip name attrno temp :
  forall ts idx used prior s,
  Forall2 (points_to s) temp ts ->
  Forall (fun t => assigns name t = false) ts ->
  match_attribute name attrno temp idx used prior s
  = (Done (prior, used), s).
Proof.
  induction temp as [|p temp IH]; intros ts idx used prior s Hts Hno.
  - reflexivity.
  - apply Forall2_cons_inv_l in Hts as (t & ts' & Hp & Hts' & ->).
    apply Forall_cons in Hno as [Ht Hno].
    cbn [match_attribute]. rewrite run_bind, (deref_run _ _ _ Hp).
    rewrite scan_cond, Ht, andb_false_r. by apply (IH ts').
Qed.

(** A scan whose only candidate is the entry at place [i], already
    numbered for the attribute, returns that very entry and allocates
    nothing. *)
Lemma match_attribute_only name attrno temp :
  forall ts idx used s (i : nat) p t,
  Forall2 (points_to s) temp ts ->
  (forall (j : nat) t', ts !! j = Some t' -> j <> i ->
                        assigns name t' = false) ->
  temp !! i = Some p -> ts !! i = Some t ->
  assigns name t = true -> resno (resdom t) = attrno ->
  default false (used !! (idx + i)%nat) = false ->
  match_attribute name attrno temp idx used None s
  = (Done (Some p, <[(idx + i)%nat := true]> used), s).
Proof.
  induction temp as [|p0 temp IH];
    intros ts idx used s i p t Hts Hno Hp Ht Ha Hnum Hu; [done|].
  apply Forall2_cons_inv_l in Hts as (t0 & ts' & Hp0 & Hts' & ->).
  cbn [match_attribute]. rewrite run_bind, (deref_run _ _ _ Hp0), scan_cond.
  destruct i as [|i]; simpl in Hp, Ht.
  - injection Hp as ->. injection Ht as ->.
    rewrite Nat.add_0_r in *. rewrite Hu, Ha. simpl.
    rewrite run_bind. unfold process_matched_tle.
    rewrite run_bind, (deref_run _ _ _ Hp0).
    apply Z.eqb_eq in Hnum. rewrite Hnum, run_ret.
    apply (match_attribute_skip name attrno temp ts'); [done|].
    apply Forall_lookup. intros j t' Hj. by apply (Hno (S j) t').
  - rewrite (Hno 0%nat t0 eq_refl) by done. rewrite andb_false_r.
    replace (idx + S i)%nat with (S idx + i)%nat by lia.
    apply (IH ts' (S idx) used s i p t); try done.
    + intros j t' Hj Hne. apply (Hno (S j) t' Hj). lia.
    + by replace (S idx + i)%nat with (idx + S i)%nat by lia.
Qed.

Section ExpandCanonical.
Variable E : Collaborators.
Variable rel : Relation.
Variable cmd : Z.
Variable rr : Index.
Variable tlist : list tle_ptr.
Variable ts : list TargetEntry.
Hypothesis Hnames : NoDup (map attname (attrs (rd_att rel))).
Hypothesis Hcan : canonical rel ts.

(** Besides the entry at its place, an attribute has no candidate in a
    canonical list. *)
Lemma canonical_only (k : nat) att (j : nat) t :
  attrs (rd_att rel) !! k = Some att ->
  ts !! j = Some t -> j <> k -> assigns (attname att) t = false.
Proof.
  intros Hatt Hj Hne. destruct Hcan as [_ Hall].
  destruct (Hall j t Hj) as [_ Hkind]. unfold assigns.
  destruct (attrs (rd_att rel) !! j) as [att'|] eqn:Hatt'.
  - destruct Hkind as [_ Hn]. rewrite Hn.
    destruct (String.eqb (attname att') (attname att)) eqn:Heq;
      [|by rewrite andb_false_r].
    apply String.eqb_eq in Heq. exfalso. apply Hne.
    apply (map_lookup_Some_2 attname) in Hatt, Hatt'. rewrite Heq in Hatt'.
    exact (NoDup_lookup _ _ _ _ Hnames Hatt' Hatt).
  - by rewrite Hkind.
Qed.

(** The attribute loop over a canonical list picks the entries up as
    they are. *)
Lemma attribute_loop_canonical s : forall todo (k : nat) used acc,
  Forall2 (points_to s) tlist ts ->
  (k + todo = length (attrs (rd_att rel)))%nat ->
  (length ts < length used)%nat ->
  (forall j : nat, (k <= j)%nat -> default false (used !! j) = false) ->
  exists used',
    attribute_loop E rel tlist cmd rr todo (Z.of_nat k + 1) used acc s
    = (Done (acc ++ take todo (drop k tlist), used',
             Z.of_nat (length (attrs (rd_att rel))) + 1), s) /\
    length used' = length used /\
    (forall j : nat, default false (used !! j) = true ->
                     default false (used' !! j) = true) /\
    (forall j : nat, (k <= j < k + todo)%nat ->
                     default false (used' !! j) = true) /\
    (forall j : nat, (k + todo <= j)%nat ->
                     default false (used' !! j) = false).
Proof.
  induction todo as [|todo IH]; intros k used acc Hts Hk Hlen Hfree.
  - exists used. simpl. rewrite app_nil_r, Nat.add_0_r in *. subst k.
    split; [reflexivity|]. split; [done|]. split; [done|].
    split; [intros j ?; lia|]. intros j Hj. by apply Hfree.
  - destruct Hcan as [HN Hall].
    destruct (lookup_lt_is_Some_2 (attrs (rd_att rel)) k ltac:(lia))
      as [att Hatt].
    destruct (lookup_lt_is_Some_2 ts k ltac:(lia)) as [t Ht].
    destruct (Forall2_lookup_r _ _ _ _ _ Hts Ht) as (p & Hp & Hpt).
    destruct (Hall k t Ht) as [Hno Hkind]. rewrite Hatt in Hkind.
    destruct Hkind as [Hvis Hname].
    cbn [attribute_loop].
    replace (Z.to_nat (Z.of_nat k + 1 - 1)) with k by lia. rewrite Hatt.
    rewrite run_bind.
    rewrite (match_attribute_only (attname att) (Z.of_nat k + 1) tlist ts
               0 used s k p t Hts); [| |done|done| |done|].
    2:{ intros j t' Hj Hne. by eapply canonical_only. }
    2:{ apply assigns_spec. done. }
    2:{ simpl. apply Hfree. lia. }
    simpl. rewrite run_bind, run_ret.
    destruct (IH (S k) (<[k:=true]> used) (acc ++ [p]) Hts ltac:(lia))
      as (used' & Hrun & Hlen' & Hmono & Hmark & Hrest).
    { rewrite length_insert. lia. }
    { intros j Hj. rewrite list_lookup_insert_ne by lia. apply Hfree. lia. }
    exists used'. split.
    + replace (Z.of_nat k + 1 + 1) with (Z.of_nat (S k) + 1) by lia.
      rewrite Hrun. do 3 f_equal. rewrite <- app_assoc. f_equal.
      by rewrite (drop_S _ _ _ Hp).
    + split; [by rewrite Hlen', length_insert|]. split; [|split].
      * intros j Hj. apply Hmono.
        destruct (decide (k = j)) as [->|Hne].
        -- rewrite list_lookup_insert_eq by lia. done.
        -- by rewrite list_lookup_insert_ne.
      * intros j Hj. destruct (decide (j = k)) as [->|Hne].
        -- apply Hmono. rewrite list_lookup_insert_eq by lia. done.
        -- apply Hmark. lia.
      * intros j Hj. apply Hrest. lia.
Qed.

(** The copy loop over a canonical list, with the attributes' entries
    marked, passes the junk entries on as they are. *)
Lemma copy_unprocessed_canonical s used :
  (forall j : nat, (j < length (attrs (rd_att rel)))%nat ->
                   default false (used !! j) = true) ->
  (forall j : nat, (length (attrs (rd_att rel)) <= j)%nat ->
                   default false (used !! j) = false) ->
  forall temp (tv : list TargetEntry) (idx : nat) acc,
  Forall2 (points_to s) temp tv ->
  (forall (j : nat) t, tv !! j = Some t -> ts !! (idx + j)%nat = Some t) ->
  copy_unprocessed temp idx used
    (Z.of_nat (Nat.max (length (attrs (rd_att rel))) idx) + 1) acc s
  = (Done (acc ++ drop (length (attrs (rd_att rel)) - idx) temp), s).
Proof.
  intros Hmarked Hfree.
  induction temp as [|p temp IH]; intros tv idx acc Htv Hsub.
  - simpl. by rewrite drop_nil, app_nil_r.
  - apply Forall2_cons_inv_l in Htv as (t & tv' & Hp & Htv' & ->).
    cbn [copy_unprocessed].
    assert (Hsub' : forall (j : nat) t', tv' !! j = Some t' ->
                      ts !! (S idx + j)%nat = Some t').
    { intros j t' Hj. replace (S idx + j)%nat with (idx + S j)%nat by lia.
      by apply Hsub. }
    destruct (decide (idx < length (attrs (rd_att rel)))%nat) as [Hlt|Hge].
    + rewrite (Hmarked idx Hlt). simpl.
      replace (Nat.max (length (attrs (rd_att rel))) idx)
        with (Nat.max (length (attrs (rd_att rel))) (S idx)) by lia.
      rewrite (IH tv' (S idx) acc Htv' Hsub').
      do 3 f_equal.
      replace (length (attrs (rd_att rel)) - idx)%nat
        with (S (length (attrs (rd_att rel)) - S idx))%nat by lia.
      done.
    + rewrite (Hfree idx ltac:(lia)). simpl.
      rewrite run_bind, (deref_run _ _ _ Hp).
      destruct Hcan as [_ Hall].
      pose proof (Hsub 0%nat t eq_refl) as Ht. rewrite Nat.add_0_r in Ht.
      destruct (Hall idx t Ht) as [Hno Hkind].
      assert (Hnone : attrs (rd_att rel) !! idx = None)
        by (apply lookup_ge_None; lia).
      rewrite Hnone in Hkind.
      rewrite Hkind. simpl.
      replace (Nat.max (length (attrs (rd_att rel))) idx) with idx by lia.
      rewrite Hno, Z.eqb_refl. simpl. rewrite run_bind, run_ret.
      replace (Z.of_nat idx + 1 + 1)
        with (Z.of_nat (Nat.max (length (attrs (rd_att rel))) (S idx)) + 1)
        by lia.
      rewrite (IH tv' (S idx) (acc ++ [p]) Htv' Hsub').
      replace (length (attrs (rd_att rel)) - S idx)%nat with 0%nat by lia.
      replace (length (attrs (rd_att rel)) - idx)%nat with 0%nat by lia.
      simpl. by rewrite <- app_assoc.
Qed.

(** The expansion of a canonical list is the list itself. *)
Lemma expand_targetlist_canonical rt s :
  resolves E rt rr rel ->
  Forall2 (points_to s) tlist ts ->
  expand_targetlist E tlist cmd rr rt s = (Done tlist, s).
Proof.
  intros (Hle & rte & Hrte & Hrel) Hts. unfold expand_targetlist.
  rewrite run_bind, (getrelid_run _ _ _ _ Hle Hrte).
  rewrite run_bind. unfold heap_open at 1. rewrite Hrel.
  unfold RelationGetNumberOfAttributes. rewrite Nat2Z.id.
  pose proof (Forall2_length _ _ _ Hts) as Hlts.
  set (s1 := mkState (tles s) (cells s) ((rd_id rel, AccessShareLock) :: locks s)).
  assert (Hts1 : Forall2 (points_to s1) tlist ts) by exact Hts.
  destruct (attribute_loop_canonical s1 (length (attrs (rd_att rel))) 0
              (replicate (length tlist + 1) false) [] Hts1 eq_refl)
    as (used & Hrun & Hlen & _ & Hmark & Hrest).
  { rewrite length_replicate. lia. }
  { intros j _. apply replicate_false_lookup. }
  rewrite run_bind. change (Z.of_nat 0 + 1) with 1 in Hrun. rewrite Hrun.
  simpl app.
  pose proof (copy_unprocessed_canonical s1 used
                ltac:(intros j Hj; apply Hmark; lia)
                ltac:(intros j Hj; apply Hrest; lia)
                tlist ts 0%nat
                (take (length (attrs (rd_att rel))) (drop 0 tlist)) Hts1
                ltac:(by intros j t Hj)) as Hcopy.
  rewrite Nat.max_0_r, Nat.sub_0_r in Hcopy.
  rewrite run_bind, Hcopy. rewrite run_bind. unfold heap_close. simpl.
  rewrite decide_True by done. rewrite run_ret.
  rewrite drop_0, take_drop. by destruct s.
Qed.

End ExpandCanonical.

Section ExpandTwice.
Variable E : Collaborators.

(** The list a successful expansion returns is canonical. *)
Lemma expand_targetlist_output_canonical tlist ts cmd rr rt rel s out s' :
  resolves E rt rr rel ->
  Forall2 (points_to s) tlist ts ->
  expand_targetlist E tlist cmd rr rt s = (Done out, s') ->
  exists es, Forall2 (points_to s') out es /\ canonical rel es.
Proof.
  intros Hres Hts Hrun.
  pose proof (expand_targetlist_positions E _ _ _ _ _ _ _ _ _ Hres Hts Hrun)
    as Hpos.
  destruct (expand_targetlist_Done E _ _ _ _ _ _ _ _ _ Hres Hts Hrun)
    as (vs & used & ps & qs & Hvals & Hfv & -> & Hps & Hf & _).
  destruct (forwarded_values _ _ _ _ _ Hf (first_visible_None _ Hfv))
    as (eq & Hqs & Hjunk).
  destruct (attribute_values_shape E rel ts cmd rr _ 1 _ _ _ ltac:(lia) Hvals)
    as [Hlen Hshape].
  assert (Hall : Forall2 (points_to s') (ps ++ qs) (vs ++ eq))
    by by apply Forall2_app.
  exists (vs ++ eq). split; [exact Hall|]. split.
  - rewrite length_app. lia.
  - intros j t Hj. split.
    + destruct (Forall2_lookup_r _ _ _ _ _ Hall Hj) as (p & Hp & Hpt).
      exact (Hpos j p t Hp Hpt).
    + apply lookup_app_Some in Hj as [Hj|[Hge Hj]].
      * destruct (Hshape j t Hj) as (att & Hatt & _ & Hv & Hn).
        simpl in Hatt. rewrite Hatt. done.
      * assert (Hnone : attrs (rd_att rel) !! j = None)
          by (apply lookup_ge_None; lia).
        rewrite Hnone. rewrite Forall_lookup in Hjunk. by eapply Hjunk.
Qed.

(** X21.  The expansion does not rebuild what is already right: given
    a list in the form it produces (one visible entry per attribute, in
    attribute order and named after it, then junk entries, all numbered
    by their place), for a relation with distinct attribute names, it
    returns the very same entries in the same order, makes no new entry
    and changes none, and the locks held are those held before, whatever
    the command kind.  The list is short enough for its last number to
    be within the range of the position field. *)
Theorem X21_canonical_list_unchanged tlist ts cmd rr rt rel s :
  resolves E rt rr rel ->
  Forall2 (points_to s) tlist ts ->
  NoDup (map attname (attrs (rd_att rel))) ->
  canonical rel ts ->
  fits_AttrNumber (Z.of_nat (length tlist)) ->
  exists s',
    expand_targetlist E tlist cmd rr rt s = (Done tlist, s') /\
    tles s' = tles s /\ locks s' = locks s.
Proof.
  intros Hres Hts Hnd Hcan _. exists s. split; [|done].
  exact (expand_targetlist_canonical E rel cmd rr tlist ts Hnd Hcan rt s
           Hres Hts).
Qed.

(** X22.  The expansion is idempotent on the entries: for a relation
    with distinct attribute names, expanding a list the expansion
    returned (for the same command kind or another) gives the same
    entries again, in the same order, makes no new entry and changes
    none, and leaves the locks as they were.  The list is short enough
    for its last number to be within the range of the position field. *)
Theorem X22_expansion_idempotent tlist ts cmd cmd2 rr rt rel s out s' :
  resolves E rt rr rel ->
  Forall2 (points_to s) tlist ts ->
  NoDup (map attname (attrs (rd_att rel))) ->
  expand_targetlist E tlist cmd rr rt s = (Done out, s') ->
  fits_AttrNumber (Z.of_nat (length out)) ->
  exists s'',
    expand_targetlist E out cmd2 rr rt s' = (Done out, s'') /\
    tles s'' = tles s' /\ locks s'' = locks s'.
Proof.
  intros Hres Hts Hnd Hrun _.
  destruct (expand_targetlist_output_canonical _ _ _ _ _ _ _ _ _ Hres Hts Hrun)
    as (es & Hes & Hcan).
  exists s'. split; [|done].
  exact (expand_targetlist_canonical E rel cmd2 rr out es Hnd Hcan rt s'
           Hres Hes).
Qed.

End ExpandTwice.

(* ================================================================== *)
(** ** Commands that do not open the relation *)
(* ================================================================== *)

Lemma keeps_locks_ret {A} (a : A) : keeps_locks (mret a : M A).
Proof. by intros s r s' [= <- <-]. Qed.

Lemma keeps_locks_bind {A B} (m : M A) (k : A -> M B) :
  keeps_locks m -> (forall a, keeps_locks (k a)) -> keeps_locks (m ≫= k).
Proof.
  intros Hm Hk s r s' H.
  apply bind_inv in H as [(a & s1 & H1 & H2)|[(e & H1 & ->)|(H1 & ->)]].
  - rewrite (Hk a _ _ _ H2). by eapply Hm.
  - by eapply Hm.
  - by eapply Hm.
Qed.

Lemma keeps_locks_list_contents l : keeps_locks (list_contents l).
Proof.
  intros s r s'. unfold list_contents.
  by destruct (list_contents_in (cells s) l); intros [= <- <-].
Qed.

Lemma keeps_locks_lappend l x : keeps_locks (lappend l x).
Proof.
  unfold lappend. apply keeps_locks_bind; [by intros s r s' [= <- <-]|].
  intros c. destruct l as [a|]; [|apply keeps_locks_ret].
  apply keeps_locks_bind.
  { intros s r s'. unfold last_cell.
    by destruct (last_cell_from _ _ _); intros [= <- <-]. }
  intros temp. apply keeps_locks_bind; [|intros; apply keeps_locks_ret].
  intros s r s'. unfold set_lnext.
  by destruct (cells s !! temp) as [[x0 n0]|]; intros [= <- <-].
Qed.

Lemma keeps_locks_add_ctid cmd rr l : keeps_locks (add_ctid cmd rr l).
Proof.
  unfold add_ctid. apply keeps_locks_bind.
  { unfold length_List. apply keeps_locks_bind;
      [apply keeps_locks_list_contents|intros; apply keeps_locks_ret]. }
  intros len. apply keeps_locks_bind.
  { destruct (cmd =? CMD_DELETE); [|apply keeps_locks_ret].
    unfold listCopy. apply keeps_locks_bind;
      [apply keeps_locks_list_contents|].
    intros xs s r s'. unfold fresh_copy.
    by destruct xs; intros [= <- <-]. }
  intros l'. apply keeps_locks_bind; [by intros s r s' [= <- <-]|].
  intros tle. apply keeps_locks_lappend.
Qed.

Lemma keeps_locks_check rr rt : keeps_locks (check_result_relation rr rt).
Proof. intros s r s' H. by apply check_result_relation_state in H as ->. Qed.

(** X23.  Only INSERT and UPDATE open the relation.  For every other
    command kind (DELETE among them) the call does not consult the
    catalog: its result and final state are the same whatever the
    relation cache and the type catalog hold; and it takes no lock: the
    locks held after the call are those held before, whatever the
    outcome. *)
Theorem X23_catalog_untouched E1 E2 tlist cmd rr rt s :
  cmd <> CMD_INSERT -> cmd <> CMD_UPDATE ->
  preprocess_targetlist E1 tlist cmd rr rt s
  = preprocess_targetlist E2 tlist cmd rr rt s /\
  forall r s',
    preprocess_targetlist E1 tlist cmd rr rt s = (r, s') ->
    locks s' = locks s.
Proof.
  intros Hi Hu. rewrite !preprocess_targetlist_unfold.
  destruct (cmd =? CMD_INSERT) eqn:H1; [lia|].
  destruct (cmd =? CMD_UPDATE) eqn:H2; [lia|]. simpl.
  split; [reflexivity|].
  intros r s'.
  apply (keeps_locks_bind (check_result_relation rr rt));
    [apply keeps_locks_check|].
  intros _. apply keeps_locks_bind; [apply keeps_locks_ret|].
  intros l. destruct (cmd =? CMD_DELETE);
    [apply keeps_locks_add_ctid|apply keeps_locks_ret].
Qed.

(* ================================================================== *)
(** ** The entry [process_matched_tle] returns *)
(* ================================================================== *)

(** X24.  The entry [process_matched_tle] returns has the requested
    attribute number as position number (a number within the range of
    the position field) and, in every other field of its descriptor, what
    the source entry has.  On a first assignment its expression is the
    source entry's, and when the source entry is already numbered right
    it is the source entry itself and nothing is allocated.  On a later
    assignment the source's expression is an array-element assignment,
    and the entry's expression is that node, field for field, with the
    prior entry's expression in the place of its base.  The source entry
    and the prior entry are left as they were. *)
Theorem X24_matched_entry src_ptr prior_ptr attrno s src prior p s' :
  points_to s src_ptr src ->
  option_Forall2 (points_to s) prior_ptr prior ->
  fits_AttrNumber attrno ->
  process_matched_tle src_ptr prior_ptr attrno s = (Done p, s') ->
  exists t,
    points_to s' p t /\
    resno (resdom t) = attrno /\
    restype (resdom t) = restype (resdom src) /\
    restypmod (resdom t) = restypmod (resdom src) /\
    resname (resdom t) = resname (resdom src) /\
    ressortgroupref (resdom t) = ressortgroupref (resdom src) /\
    reskey (resdom t) = reskey (resdom src) /\
    reskeyop (resdom t) = reskeyop (resdom src) /\
    resjunk (resdom t) = resjunk (resdom src) /\
    points_to s' src_ptr src /\
    option_Forall2 (points_to s') prior_ptr prior /\
    match prior with
    | None =>
        expr t = expr src /\
        (resno (resdom src) = attrno -> p = src_ptr /\ s' = s)
    | Some pv =>
        exists al el et eb up lo base v,
          expr src = Some (T_ArrayRef al el et eb up lo base (Some v)) /\
          expr t = Some (T_ArrayRef al el et eb up lo (expr pv) (Some v))
    end.
Proof.
  intros Hsrc Hprior _. unfold process_matched_tle.
  rewrite run_bind, (deref_run _ _ _ Hsrc).
  destruct Hprior as [pp pv Hpp|].
  - rewrite run_bind, (deref_run _ _ _ Hpp).
    destruct (is_NULL (expr src) || _ || _ || _ || _ || _ || _) eqn:Hc;
      [done|].
    destruct (negb (equal _ _)); [done|].
    rewrite makeTargetEntry_run. intros [= <- <-].
    eexists. unfold points_to. simpl.
    split; [by rewrite lookup_app_r, Nat.sub_diag|]. simpl.
    repeat (split; [reflexivity|]).
    split; [by apply lookup_app_l_Some|].
    split; [constructor; by apply lookup_app_l_Some|].
    repeat (apply orb_false_iff in Hc as [Hc ?]).
    destruct (expr src) as [[| |al el et eb up lo base [v|]|]|]; try done.
    by exists al, el, et, eb, up, lo, base, v.
  - destruct (resno (resdom src) =? attrno) eqn:Hno.
    + rewrite run_ret. intros [= <- <-]. exists src.
      apply Z.eqb_eq in Hno. split; [done|]. split; [done|].
      repeat (split; [reflexivity|]).
      split; [done|]. split; [constructor|]. done.
    + rewrite makeTargetEntry_run. intros [= <- <-].
      eexists. unfold points_to. simpl.
      split; [by rewrite lookup_app_r, Nat.sub_diag|]. simpl.
      repeat (split; [reflexivity|]).
      split; [by apply lookup_app_l_Some|]. split; [constructor|].
      split; [reflexivity|]. intros Heq. apply Z.eqb_neq in Hno. done.
Qed.

(* ================================================================== *)
(** ** The further properties at the sample inputs *)
(* ================================================================== *)

Lemma ex_resolves_3 : resolves ex_E ex_rt 3 ex_rel_baddefault.
Proof. split; [lia|]. exists (mkRTE 102 None). split; reflexivity. Defined.

Lemma ex_resolves_4 : resolves ex_E ex_rt 4 ex_rel_one.
Proof. split; [lia|]. exists (mkRTE 103 None). split; reflexivity. Defined.

Lemma ex_result_relation_ok_3 : result_relation_ok 3 ex_rt.
Proof.
  right. split; [lia|]. exists (mkRTE 102 None).
  split; [reflexivity|]. split; [reflexivity|]. discriminate.
Defined.

Lemma ex_insert_valid :
  Forall2 (points_to ex_store_insert) [0; 1]%nat [ex_bx; ex_c].
Proof. repeat (constructor; [reflexivity|]). constructor. Defined.

Lemma ex_stray_valid :
  Forall2 (points_to ex_store_stray) [0; 1]%nat [ex_a; ex_stray].
Proof. repeat (constructor; [reflexivity|]). constructor. Defined.

Lemma ex_b1_valid : Forall2 (points_to ex_store_b1) [0]%nat [ex_b1].
Proof. repeat (constructor; [reflexivity|]). constructor. Defined.

Lemma ex_a_valid : Forall2 (points_to ex_store_a) [0]%nat [ex_a].
Proof. repeat (constructor; [reflexivity|]). constructor. Defined.

Lemma ex_names_distinct : NoDup (map attname (attrs (rd_att ex_rel))).
Proof.
  repeat (apply NoDup_cons; split;
          [intros H; repeat (apply elem_of_cons in H as [H|H];
                             [discriminate H|]);
           by apply elem_of_nil in H|]).
  apply NoDup_nil. done.
Defined.

Lemma ex_names_distinct_one :
  NoDup (map attname (attrs (rd_att ex_rel_one))).
Proof.
  apply NoDup_cons. split; [intros H; by apply elem_of_nil in H|].
  apply NoDup_nil. done.
Defined.

Lemma ex_first_named_a : first_named ex_rel "a" 0.
Proof. intros k' att' Hk. lia. Defined.

Lemma ex_arrays_no_stray : no_stray ex_rel [ex_b1; ex_b3; ex_ord].
Proof.
  intros t Ht Hvis. apply list_elem_of_lookup in Ht as [k Hk].
  destruct k as [|[|[|k]]]; simpl in Hk; try discriminate Hk;
    injection Hk as <-; try discriminate Hvis;
    exists (mkAttr "b" 1007 (-1) false false);
    (split; [apply (list_elem_of_lookup_2 _ 1%nat); reflexivity|reflexivity]).
Defined.

Lemma ex_arrays_mergeable :
  forall att, att ∈ attrs (rd_att ex_rel) ->
    (length (List.filter (assigns (attname att)) [ex_b1; ex_b3; ex_ord])
     <= 1)%nat \/
    exists b et,
      same_array b et
        (List.filter (assigns (attname att)) [ex_b1; ex_b3; ex_ord]).
Proof.
  intros att Hatt. apply list_elem_of_lookup in Hatt as [k Hk].
  destruct k as [|[|[|k]]]; simpl in Hk; try discriminate Hk;
    injection Hk as <-.
  - left. simpl. lia.
  - right. exists (Some ex_col_b), 23. split.
    + intros (al & el & et & eb & up & lo & base & v & H). discriminate H.
    + repeat constructor; by repeat eexists.
  - left. simpl. lia.
Defined.

Lemma ex_a_canonical : canonical ex_rel_one [ex_a].
Proof.
  split; [simpl; lia|]. intros j t Hj.
  destruct j as [|j]; simpl in Hj; [|discriminate Hj].
  injection Hj as <-. split; [reflexivity|]. split; reflexivity.
Defined.

Lemma X1_witness :
  length (entries_of ex_arrays_expanded [3; 5; 6; 7]%nat) = 4%nat /\
  map (fun t => resno (resdom t))
      (entries_of ex_arrays_expanded [3; 5; 6; 7]%nat)
    = seqZ 1 4.
Proof.
  exact (X1_consecutive_numbering ex_E [0; 1; 2]%nat [ex_b1; ex_b3; ex_ord]
           CMD_UPDATE 1 ex_rt ex_rel ex_store_arrays [3; 5; 6; 7]%nat
           ex_arrays_expanded ex_resolves_1 ex_arrays_valid eq_refl
           ltac:(split; simpl; lia)).
Defined.

(** The failed UPDATE with SET b = 1, b = 2, zzz = 3 has left the three
    source entries as they were. *)
Lemma X2_witness :
  tles ex_store_conflict `prefix_of` tles ex_conflict_left /\
  Forall2 (points_to ex_conflict_left) [0; 1; 2]%nat
          [ex_bx; ex_by; ex_stray].
Proof.
  exact (X2_expansion_frame ex_E [0; 1; 2]%nat [ex_bx; ex_by; ex_stray]
           CMD_UPDATE 1 ex_rt ex_rel ex_store_conflict
           (Elog (MultipleAssignmentConflict "b")) ex_conflict_left
           ex_resolves_1 ex_conflict_valid eq_refl).
Defined.

(** The ordering key of SET b[1] = 10, b[3] = 30 is numbered 3 in the
    source list and 4 in the result. *)
Lemma X3_witness :
  length [3; 5; 6; 7]%nat = (3 + 1)%nat /\
  forall (k : nat) t, [ex_ord] !! k = Some t ->
    exists q u,
      [3; 5; 6; 7]%nat !! (3 + k)%nat = Some q /\
      points_to ex_arrays_expanded q u /\
      resno (resdom u) = 3 + 1 + Z.of_nat k /\
      restype (resdom u) = restype (resdom t) /\
      restypmod (resdom u) = restypmod (resdom t) /\
      resname (resdom u) = resname (resdom t) /\
      ressortgroupref (resdom u) = ressortgroupref (resdom t) /\
      reskey (resdom u) = reskey (resdom t) /\
      reskeyop (resdom u) = reskeyop (resdom t) /\
      resjunk (resdom u) = true /\
      expr u = expr t.
Proof.
  exact (X3_junk_entries_kept ex_E [0; 1; 2]%nat [ex_b1; ex_b3; ex_ord]
           CMD_UPDATE 1 ex_rt ex_rel ex_store_arrays [3; 5; 6; 7]%nat
           ex_arrays_expanded ex_resolves_1 ex_arrays_valid eq_refl
           ltac:(split; simpl; lia)).
Defined.

Lemma X4_witness :
  let r : outcome (list tle_ptr) := Elog (MultipleAssignmentConflict "b") in
  (exists out, r = Done out) \/
  (exists n, r = Elog (MultipleAssignmentConflict n)) \/
  (exists n, r = Elog (UnexpectedJunkAssignment n)) \/
  (CMD_UPDATE = CMD_INSERT /\
   exists c t1 t2, r = Elog (DefaultTypeMismatch c t1 t2)) \/
  (CMD_UPDATE <> CMD_INSERT /\ CMD_UPDATE <> CMD_UPDATE /\
   r = Elog UnsupportedCommandKind).
Proof.
  exact (X4_expansion_outcomes ex_E [0; 1; 2]%nat [ex_bx; ex_by; ex_stray]
           CMD_UPDATE 1 ex_rt ex_rel ex_store_conflict
           (Elog (MultipleAssignmentConflict "b")) ex_conflict_left
           ex_resolves_1 ex_conflict_valid eq_refl).
Defined.

(** UPDATE one SET a = 1, zzz = 3: the relation has no column "zzz". *)
Lemma X5_witness :
  (exists t, t ∈ [ex_a; ex_stray] /\ resjunk (resdom t) = false /\
             resname (resdom t) = "zzz"%string) /\
  (forall att, att ∈ attrs (rd_att ex_rel_one) ->
               attname att <> "zzz"%string).
Proof.
  exact (X5_stray_assignment_named ex_E [0; 1]%nat [ex_a; ex_stray]
           CMD_UPDATE 4 ex_rt ex_rel_one ex_store_stray "zzz"
           ex_stray_left ex_resolves_4 ex_stray_valid eq_refl).
Defined.

Lemma X6_witness :
  (exists att, att ∈ attrs (rd_att ex_rel) /\ attname att = "b"%string) /\
  (2 <= length (List.filter (assigns "b") [ex_bx; ex_by; ex_stray]))%nat.
Proof.
  exact (X6_conflict_named ex_E [0; 1; 2]%nat [ex_bx; ex_by; ex_stray]
           CMD_UPDATE 1 ex_rt ex_rel ex_store_conflict "b"
           ex_conflict_left ex_resolves_1 ex_conflict_valid eq_refl).
Defined.

(** UPDATE ... SET b[1] = 10, b[3] = 30: column "a" keeps its value. *)
Lemma X7_witness :
  exists p,
    [3; 5; 6; 7]%nat !! 0%nat = Some p /\
    points_to ex_arrays_expanded p
      (mkTargetEntry (makeResdom 1 23 (-1) "a" false)
                     (Some (makeVar 1 1 23 (-1) 0))).
Proof.
  exact (X7_update_keeps_unassigned ex_E [0; 1; 2]%nat
           [ex_b1; ex_b3; ex_ord] 1 ex_rt ex_rel ex_store_arrays
           [3; 5; 6; 7]%nat ex_arrays_expanded 0%nat
           (mkAttr "a" 23 (-1) false false)
           ex_resolves_1 ex_arrays_valid eq_refl eq_refl eq_refl eq_refl).
Defined.

(** INSERT ... (b, c): column "a" is filled with its default. *)
Lemma X8_witness :
  exists p e,
    [2; 0; 1]%nat !! 0%nat = Some p /\
    build_column_default ex_E ex_rel 1 = Done e /\
    points_to ex_insert_expanded p
      (mkTargetEntry (makeResdom 1 23 (-1) "a" false) e).
Proof.
  exact (X8_insert_fills_default ex_E [0; 1]%nat [ex_bx; ex_c] 1 ex_rt
           ex_rel ex_store_insert [2; 0; 1]%nat ex_insert_expanded 0%nat
           (mkAttr "a" 23 (-1) false false)
           ex_resolves_1 ex_insert_valid eq_refl eq_refl eq_refl).
Defined.

(** UPDATE ... SET b[1] = 10: the source entry is numbered 1, the entry
    of "b" in the result is numbered 2. *)
Lemma X9_witness :
  exists p t,
    [1; 2; 3]%nat !! 1%nat = Some p /\
    points_to ex_b1_expanded p t /\
    resno (resdom t) = 2 /\
    restype (resdom t) = 1007 /\
    restypmod (resdom t) = -1 /\
    resname (resdom t) = "b"%string /\
    ressortgroupref (resdom t) = 0 /\
    reskey (resdom t) = 0 /\
    reskeyop (resdom t) = InvalidOid /\
    resjunk (resdom t) = false /\
    (@nil TargetEntry = [] -> expr t = expr ex_b1).
Proof.
  exact (X9_assigned_entry_descriptor ex_E [0]%nat [ex_b1] CMD_UPDATE 1
           ex_rt ex_rel ex_store_b1 [1; 2; 3]%nat ex_b1_expanded 1%nat
           (mkAttr "b" 1007 (-1) false false) [] ex_b1
           ex_resolves_1 ex_b1_valid eq_refl eq_refl ex_first_named_b
           eq_refl ltac:(split; simpl; lia)).
Defined.

(** INSERT with no column list into the relation whose column "a" has a
    text default that cannot be coerced to int4. *)
Lemma X10_witness :
  CMD_INSERT = CMD_INSERT /\
  exists (i : nat) att cs d,
    attrs (rd_att ex_rel_baddefault) !! i = Some att /\
    attname att = "a"%string /\ atttypid att = 23 /\
    constr (rd_att ex_rel_baddefault) = Some cs /\
    scan_defval (defval cs) (length (defval cs)) (Z.of_nat i + 1) = Some d /\
    exprType ex_E (stringToNode ex_E (adbin d)) = 25 /\ 25 <> 23 /\
    CoerceTargetExpr ex_E (stringToNode ex_E (adbin d)) 25
      (getBaseType ex_E 23) (atttypmod att) = None /\
    (first_named ex_rel_baddefault "a" i -> List.filter (assigns "a") [] = []).
Proof.
  exact (X10_default_mismatch_named ex_E [] [] CMD_INSERT 3 ex_rt
           ex_rel_baddefault ex_store_empty "a" 23 25 ex_baddefault_left
           ex_resolves_3 (List.Forall2_nil _) eq_refl).
Defined.

Lemma X11_witness :
  (exists out s',
     expand_targetlist ex_E [0; 1; 2]%nat CMD_UPDATE 1 ex_rt ex_store_arrays
     = (Done out, s')) <->
  (no_conflict ex_rel [ex_b1; ex_b3; ex_ord] /\
   no_stray ex_rel [ex_b1; ex_b3; ex_ord]).
Proof.
  exact (X11_update_succeeds_iff ex_E [0; 1; 2]%nat [ex_b1; ex_b3; ex_ord]
           1 ex_rt ex_rel ex_store_arrays ex_resolves_1 ex_arrays_valid
           ex_names_distinct).
Defined.

Lemma X12_witness :
  (exists out s',
     expand_targetlist ex_E [0; 1]%nat CMD_INSERT 1 ex_rt ex_store_insert
     = (Done out, s')) <->
  (no_conflict ex_rel [ex_bx; ex_c] /\ no_stray ex_rel [ex_bx; ex_c] /\
   forall (i : nat) att,
     attrs (rd_att ex_rel) !! i = Some att ->
     List.filter (assigns (attname att)) [ex_bx; ex_c] = [] ->
     exists e, build_column_default ex_E ex_rel (Z.of_nat i + 1) = Done e).
Proof.
  exact (X12_insert_succeeds_iff ex_E [0; 1]%nat [ex_bx; ex_c]
           1 ex_rt ex_rel ex_store_insert ex_resolves_1 ex_insert_valid
           ex_names_distinct).
Defined.

Lemma X13_witness :
  exists out s',
    expand_targetlist ex_E [0; 1; 2]%nat CMD_UPDATE 1 ex_rt ex_store_arrays
    = (Done out, s').
Proof.
  exact (X13_array_assignments_merge ex_E [0; 1; 2]%nat
           [ex_b1; ex_b3; ex_ord] 1 ex_rt ex_rel ex_store_arrays
           ex_resolves_1 ex_arrays_valid ex_names_distinct
           ex_arrays_no_stray ex_arrays_mergeable).
Defined.

Lemma X15_witness :
  exists e,
    build_column_default ex_E ex_rel 1
    = Done (coerce_type_typmod ex_E (Some e) 23 (-1)) /\
    (false = true -> e = makeConst 23 sizeof_Oid 0 true true false false) /\
    (false = false ->
     DROP_COLUMN_HACK ex_E
       && COLUMN_IS_DROPPED (mkAttr "a" 23 (-1) false false) = false ->
     match get_typdefault ex_E 23 (-1) with
     | Some d => e = d
     | None => exists len byval,
         e = makeConst 23 len 0 true byval false false
     end).
Proof.
  exact (X15_no_stored_default ex_E ex_rel 1 (mkAttr "a" 23 (-1) false false)
           ltac:(lia) eq_refl ltac:(discriminate)).
Defined.

Lemma X16_witness :
  preprocess_targetlist ex_E NIL CMD_SELECT 1 ex_rt_invalid ex_store_empty
  = (Elog ResultRelationInvalid, ex_store_empty).
Proof.
  exact (X16_result_relation_rejected ex_E NIL CMD_SELECT 1 ex_rt_invalid
           ex_store_empty (mkRTE InvalidOid None) ltac:(lia) eq_refl
           (or_intror eq_refl)).
Defined.

Lemma X17_witness :
  preprocess_targetlist ex_E (Some 0%nat) CMD_SELECT 1 ex_rt ex_store_arrays
  = (Done (Some 0%nat), ex_store_arrays).
Proof.
  exact (X17_other_commands_unchanged ex_E (Some 0%nat) CMD_SELECT 1 ex_rt
           ex_store_arrays ex_result_relation_ok ltac:(discriminate)
           ltac:(discriminate) ltac:(discriminate)).
Defined.

Lemma X18_witness :
  exists out s',
    preprocess_targetlist ex_E (Some 0%nat) CMD_INSERT 1 ex_rt ex_store_insert
    = (Done out, s') /\
    list_contents_in (cells s') out = Some [2; 0; 1]%nat /\
    tles s' = tles ex_insert_expanded /\
    locks s' = locks ex_insert_expanded.
Proof.
  exact (X18_insert_result ex_E (Some 0%nat) 1 ex_rt ex_store_insert
           [0; 1]%nat [2; 0; 1]%nat ex_insert_expanded
           ex_result_relation_ok eq_refl eq_refl).
Defined.

Lemma X19_witness :
  preprocess_targetlist ex_E NIL CMD_INSERT 3 ex_rt ex_store_empty
  = (Elog (DefaultTypeMismatch "a" 23 25), ex_baddefault_left).
Proof.
  exact (X19_expansion_error_propagates ex_E NIL CMD_INSERT 3 ex_rt
           ex_store_empty [] (DefaultTypeMismatch "a" 23 25)
           ex_baddefault_left ex_result_relation_ok_3 (or_introl eq_refl)
           eq_refl eq_refl).
Defined.

Lemma X20_witness :
  exists out s' l,
    preprocess_targetlist ex_E (Some 0%nat) CMD_UPDATE 1 ex_rt ex_store_arrays
    = (Done out, s') /\
    list_contents_in (cells s') out = Some l /\
    length l = (3 + 1 + 1)%nat /\
    length (entries_of s' l) = length l /\
    map (fun t => resno (resdom t)) (entries_of s' l)
      = seqZ 1 (Z.of_nat (length l)) /\
    locks s' = locks ex_store_arrays.
Proof.
  exact (X20_update_numbering ex_E (Some 0%nat) [ex_b1; ex_b3; ex_ord]
           1 ex_rt ex_rel ex_store_arrays [0; 1; 2]%nat [3; 5; 6; 7]%nat
           ex_arrays_expanded ex_result_relation_ok ex_resolves_1 eq_refl
           ex_arrays_valid eq_refl ltac:(split; simpl; lia)).
Defined.

(** UPDATE one SET a = 1, with the entry already numbered 1. *)
Lemma X21_witness :
  exists s',
    expand_targetlist ex_E [0]%nat CMD_UPDATE 4 ex_rt ex_store_a
    = (Done [0]%nat, s') /\
    tles s' = tles ex_store_a /\ locks s' = locks ex_store_a.
Proof.
  exact (X21_canonical_list_unchanged ex_E [0]%nat [ex_a] CMD_UPDATE 4 ex_rt
           ex_rel_one ex_store_a ex_resolves_4 ex_a_valid
           ex_names_distinct_one ex_a_canonical ltac:(split; simpl; lia)).
Defined.

Lemma X22_witness :
  exists s'',
    expand_targetlist ex_E [3; 5; 6; 7]%nat CMD_INSERT 1 ex_rt
                      ex_arrays_expanded
    = (Done [3; 5; 6; 7]%nat, s'') /\
    tles s'' = tles ex_arrays_expanded /\
    locks s'' = locks ex_arrays_expanded.
Proof.
  exact (X22_expansion_idempotent ex_E [0; 1; 2]%nat [ex_b1; ex_b3; ex_ord]
           CMD_UPDATE CMD_INSERT 1 ex_rt ex_rel ex_store_arrays
           [3; 5; 6; 7]%nat ex_arrays_expanded ex_resolves_1 ex_arrays_valid
           ex_names_distinct eq_refl ltac:(split; simpl; lia)).
Defined.

Lemma X23_witness :
  preprocess_targetlist ex_E (Some 0%nat) CMD_DELETE 1 ex_rt ex_store_arrays
  = preprocess_targetlist ex_E_hack (Some 0%nat) CMD_DELETE 1 ex_rt
      ex_store_arrays /\
  forall r s',
    preprocess_targetlist ex_E (Some 0%nat) CMD_DELETE 1 ex_rt
      ex_store_arrays = (r, s') ->
    locks s' = locks ex_store_arrays.
Proof.
  exact (X23_catalog_untouched ex_E ex_E_hack (Some 0%nat) CMD_DELETE 1
           ex_rt ex_store_arrays ltac:(discriminate) ltac:(discriminate)).
Defined.

(** The first assignment to "b" in SET b[1] = 10, b[3] = 30 is numbered
    1 in the source list and 2 in the relation: a new entry is made. *)
Lemma X24_witness :
  exists t,
    points_to ex_b1_matched 3%nat t /\
    resno (resdom t) = 2 /\
    restype (resdom t) = restype (resdom ex_b1) /\
    restypmod (resdom t) = restypmod (resdom ex_b1) /\
    resname (resdom t) = resname (resdom ex_b1) /\
    ressortgroupref (resdom t) = ressortgroupref (resdom ex_b1) /\
    reskey (resdom t) = reskey (resdom ex_b1) /\
    reskeyop (resdom t) = reskeyop (resdom ex_b1) /\
    resjunk (resdom t) = resjunk (resdom ex_b1) /\
    points_to ex_b1_matched 0%nat ex_b1 /\
    option_Forall2 (points_to ex_b1_matched) None None /\
    (expr t = expr ex_b1 /\
     (resno (resdom ex_b1) = 2 ->
      3%nat = 0%nat /\ ex_b1_matched = ex_store_arrays)).
Proof.
  exact (X24_matched_entry 0%nat None 2 ex_store_arrays ex_b1 None 3%nat
           ex_b1_matched eq_refl (None_Forall2 _) ltac:(split; lia)
           eq_refl).
Defined.
